(** * ORC: a shallow embedding of the ODR-violation engine

    The development follows the C++ sources of the repository:

    - [include/orc/parse_file.hpp], [src/parse_file.cpp]: the byte reader
      [freader], file-format detection and LEB128 decoding;
    - [src/string_pool.cpp]: the interning pool;
    - [include/orc/dwarf_structs.hpp]: attribute values, attribute sequences,
      object ancestries and DIEs;
    - [src/orc.cpp]: attribute conflicts, report filtering and the per-chain
      conflict analysis.

    Machine integers are values of [Z] with the wrap-around written out,
    pointers are 64-bit addresses, a failed [assert] or an undefined operation
    is [None]. *)

From Stdlib Require Import ZArith Lia List Bool Ascii String Strings.Byte.
From Stdlib Require Import Sorting.Sorted Sorting.Permutation.
From stdpp Require Import base option list gmap strings.

Local Open Scope Z_scope.

(* ===================================================================== *)
(** * Machine words *)
(* ===================================================================== *)

(** Conversion to an unsigned [w]-bit integer. *)
Definition wrap (w : Z) (x : Z) : Z := x mod 2 ^ w.

(** Conversion to a signed [w]-bit integer (two's complement). *)
Definition swrap (w : Z) (x : Z) : Z :=
  let u := wrap w x in if u <? 2 ^ (w - 1) then u else u - 2 ^ w.

(** [std::size_t], [std::uint32_t] and [std::int32_t]. *)
Definition size_t (x : Z) : Z := wrap 64 x.
Definition uint32_t (x : Z) : Z := wrap 32 x.
Definition int32_t (x : Z) : Z := swrap 32 x.

(** A byte of the mapped file as the value of an [unsigned char]. *)
Definition byte_to_Z (b : byte) : Z := Z.of_N (Byte.to_N b).

(** The same byte read through a [char], which is signed on the targets of
    the tool (x86-64 and arm64 Apple platforms). *)
Definition char_of_byte (b : byte) : Z := swrap 8 (byte_to_Z b).

(** [memcpy] of four bytes into a [std::uint32_t] on a little-endian host. *)
Definition uint32_of_bytes (bs : list byte) : Z :=
  match bs with
  | [b0; b1; b2; b3] =>
      Z.lor (byte_to_Z b0)
        (Z.lor (Z.shiftl (byte_to_Z b1) 8)
           (Z.lor (Z.shiftl (byte_to_Z b2) 16) (Z.shiftl (byte_to_Z b3) 24)))
  | _ => 0
  end.

(** [endian_swap] on a [std::uint32_t]: the four bytes reversed. *)
Definition endian_swap32 (c : Z) : Z :=
  Z.lor (Z.shiftl (Z.land c 255) 24)
    (Z.lor (Z.shiftl (Z.land (Z.shiftr c 8) 255) 16)
       (Z.lor (Z.shiftl (Z.land (Z.shiftr c 16) 255) 8)
          (Z.land (Z.shiftr c 24) 255))).

(* ===================================================================== *)
(** * The byte reader ([parse_file.hpp], [parse_file.cpp]) *)
(* ===================================================================== *)

(** [mmap_buffer]: a mapping of the file range starting at file offset
    [mb_start], [mb_len] bytes long, placed by [mmap] at address [mb_base]. *)
Record mmap_buffer := {
  mb_base : Z;
  mb_start : Z;
  mb_len : Z
}.

(** [filebuf]: the descriptor (here the bytes of the file it names) and the
    mapping; either may be null. *)
Record filebuf := {
  _descriptor : option (list byte);
  _buffer : option mmap_buffer
}.

(** [filebuf::operator bool]. *)
Definition filebuf_bool (fb : filebuf) : bool :=
  match _descriptor fb, _buffer fb with
  | Some _, Some _ => true
  | _, _ => false
  end.

(** [filebuf::get]: the address of the mapping ([nullptr] is [0]). *)
Definition filebuf_get (fb : filebuf) : Z :=
  match _buffer fb with
  | Some mb => mb_base mb
  | None => 0
  end.

(** The byte a pointer designates: defined only inside the mapping and inside
    the file (nothing is known of any other address). *)
Definition filebuf_deref (fb : filebuf) (a : Z) : option byte :=
  match _descriptor fb, _buffer fb with
  | Some file, Some mb =>
      if (mb_base mb <=? a) && (a <? mb_base mb + mb_len mb)
      then nth_error file (Z.to_nat (mb_start mb + (a - mb_base mb)))
      else None
  | _, _ => None
  end.

(** [freader]: the mapping, and the pointers [_f] (first), [_p] (current) and
    [_l] (last) into it. *)
Record freader := {
  _filebuf : filebuf;
  _f : Z;
  _p : Z;
  _l : Z
}.

(** The width of the window of a reader: [_l - _f]. *)
Definition freader_window (r : freader) : Z := size_t (_l r - _f r).

(** [freader::freader(path)]: the whole file mapped at [base]. *)
Definition freader_open (file : list byte) (base : Z) : freader :=
  let n := Z.of_nat (List.length file) in
  {| _filebuf := {| _descriptor := Some file;
                    _buffer := Some {| mb_base := base; mb_start := 0; mb_len := n |} |};
     _f := base; _p := base; _l := size_t (base + n) |}.

(** [freader::operator bool]. *)
Definition freader_bool (r : freader) : bool :=
  filebuf_bool (_filebuf r) && (_p r <=? _l r).

(** [freader::size]: [_l - _p]. *)
Definition freader_size (r : freader) : Z := size_t (_l r - _p r).

(** [freader::tellg]: [_p - _f]. *)
Definition freader_tellg (r : freader) : Z := size_t (_p r - _f r).

Definition set_p (r : freader) (p : Z) : freader :=
  {| _filebuf := _filebuf r; _f := _f r; _p := p; _l := _l r |}.

(** [freader::seekg(offset)]. *)
Definition freader_seekg (r : freader) (offset : Z) : option freader :=
  if freader_bool r then Some (set_p r (size_t (_f r + offset))) else None.

(** [std::ios::seekdir]. *)
Inductive seekdir := ios_beg | ios_cur | ios_end.

(** [freader::seekg(offset, dir)]. *)
Definition freader_seekg_dir (r : freader) (offset : Z) (dir : seekdir) : option freader :=
  if freader_bool r then
    match dir with
    | ios_beg => Some (set_p r (size_t (_f r + offset)))
    | ios_cur => Some (set_p r (size_t (_p r + offset)))
    | ios_end => Some (set_p r (size_t (_f r + size_t (freader_size r - offset))))
    end
  else None.

(** [freader::get]: [*_p++]. *)
Definition freader_get (r : freader) : option (byte * freader) :=
  if freader_bool r then
    match filebuf_deref (_filebuf r) (_p r) with
    | Some c => Some (c, set_p r (size_t (_p r + 1)))
    | None => None
    end
  else None.

(** The [n] bytes a [memcpy] from address [a] copies. *)
Fixpoint filebuf_bytes (fb : filebuf) (a : Z) (n : nat) : option (list byte) :=
  match n with
  | O => Some []
  | S n' =>
      match filebuf_deref fb a, filebuf_bytes fb (a + 1) n' with
      | Some c, Some cs => Some (c :: cs)
      | _, _ => None
      end
  end.

(** [freader::read(p, n)]. *)
Definition freader_read (r : freader) (n : nat) : option (list byte * freader) :=
  if freader_bool r then
    match filebuf_bytes (_filebuf r) (_p r) n with
    | Some bs => Some (bs, set_p r (size_t (_p r + Z.of_nat n)))
    | None => None
    end
  else None.

(** [filebuf::remmap(start, end)]: a mapping of the pages that hold
    [[start, end)]; [page_size] is [sysconf(_SC_PAGESIZE)] and [addr] the
    address [mmap] returns. *)
Definition filebuf_remmap (fb : filebuf) (page_size addr : Z) (start end_ : Z) : option filebuf :=
  let start_page := start / page_size in
  let start_page_offset := start_page * page_size in
  let end_page := end_ / page_size + 1 in
  let end_page_offset := end_page * page_size in
  if (start <? end_) && (start_page_offset <=? start) && (end_page_offset >=? end_) then
    Some {| _descriptor := _descriptor fb;
            _buffer := Some {| mb_base := addr;
                               mb_start := start_page_offset;
                               mb_len := end_page_offset - start_page_offset |} |}
  else None.

(** [freader::subbuf(end_pos)]. In the source the assignments to
    [result._p] and [result._l] read [_f] of the reader [subbuf] is called on
    (the member of [*this]), not the [_f] just stored in [result]. *)
Definition freader_subbuf (r : freader) (page_size addr : Z) (end_pos : Z) : option freader :=
  let pos := _p r - _f r in
  let new_size := size_t (end_pos - pos) in
  match filebuf_remmap (_filebuf r) page_size addr (size_t pos) end_pos with
  | Some fb =>
      Some {| _filebuf := fb;
              _f := filebuf_get fb;
              _p := size_t (_f r - pos);
              _l := size_t (_f r + new_size) |}
  | None => None
  end.

(** [temp_seek(s, offset, dir, f)]: the position is saved, [f] runs on the
    reader after the seek, and the position is restored. *)
Definition temp_seek {A} (s : freader) (offset : Z) (dir : seekdir)
    (f : freader -> option (A * freader)) : option (A * freader) :=
  let _pos := freader_tellg s in
  match freader_seekg_dir s offset dir with
  | Some s1 =>
      match f s1 with
      | Some (a, s2) =>
          match freader_seekg s2 _pos with
          | Some s3 => Some (a, s3)
          | None => None
          end
      | None => None
      end
  | None => None
  end.

(* ===================================================================== *)
(** * File detection ([parse_file.cpp]) *)
(* ===================================================================== *)

(** [enum class arch] of [dwarf_structs.hpp]. *)
Inductive arch :=
| arch_unknown | arch_x86 | arch_x86_64 | arch_arm | arch_arm64 | arch_arm64_32.

(** The value of each enumerator ([arch] is a [std::uint8_t] enumeration). *)
Definition arch_code (a : arch) : Z :=
  match a with
  | arch_unknown => 0 | arch_x86 => 1 | arch_x86_64 => 2
  | arch_arm => 3 | arch_arm64 => 4 | arch_arm64_32 => 5
  end.

Definition arch_eqb (a b : arch) : bool := arch_code a =? arch_code b.

(** [file_details::format]. *)
Inductive format := format_unknown | format_macho | format_ar | format_fat.

Record file_details := {
  _offset : Z;
  _format : format;
  _arch : arch;
  _is_64_bit : bool;
  _needs_byteswap : bool
}.

(** Modelled from the spec: the magic numbers and cputypes of
    [orc/mach_types.hpp], which is not among the sources; the values are those
    of section 6 of the specification (the Mach-O and fat headers). *)
Definition MH_MAGIC : Z := 0xfeedface.
Definition MH_CIGAM : Z := 0xcefaedfe.
Definition MH_MAGIC_64 : Z := 0xfeedfacf.
Definition MH_CIGAM_64 : Z := 0xcffaedfe.
Definition FAT_MAGIC : Z := 0xcafebabe.
Definition FAT_CIGAM : Z := 0xbebafeca.
Definition FAT_MAGIC_64 : Z := 0xcafebabf.
Definition FAT_CIGAM_64 : Z := 0xbfbafeca.
Definition CPU_ARCH_ABI64 : Z := 0x01000000.
Definition CPU_ARCH_ABI64_32 : Z := 0x02000000.
Definition CPU_TYPE_X86 : Z := 7.
Definition CPU_TYPE_X86_64 : Z := Z.lor CPU_TYPE_X86 CPU_ARCH_ABI64.
Definition CPU_TYPE_ARM : Z := 12.
Definition CPU_TYPE_ARM64 : Z := Z.lor CPU_TYPE_ARM CPU_ARCH_ABI64.
Definition CPU_TYPE_ARM64_32 : Z := Z.lor CPU_TYPE_ARM CPU_ARCH_ABI64_32.

(** The multi-character literals ['ra<!'] and ['!<ar']. *)
Definition lit_ra_lt_bang : Z := 0x72613c21.
Definition lit_bang_lt_ar : Z := 0x213c6172.

Definition Z_in (x : Z) (l : list Z) : bool := existsb (Z.eqb x) l.

(** The body of the lambda [detect_file] hands to [temp_seek]: the details
    and the lines written to the error stream (without their newline). The
    host is little-endian
    ([std::endian::native == std::endian::little]). *)
Definition detect_file_body (s : freader) : option ((file_details * list string) * freader) :=
  let offset := freader_tellg s in
  match freader_read s 4 with
  | None => None
  | Some (hb, s1) =>
      let header := uint32_of_bytes hb in
      let fmt :=
        if Z_in header [MH_MAGIC; MH_CIGAM; MH_MAGIC_64; MH_CIGAM_64] then format_macho
        else if Z_in header [lit_ra_lt_bang; lit_bang_lt_ar] then format_ar
        else if Z_in header [FAT_MAGIC; FAT_CIGAM; FAT_MAGIC_64; FAT_CIGAM_64] then format_fat
        else format_unknown in
      let is_64_bit := Z_in header [MH_MAGIC_64; MH_CIGAM_64; FAT_MAGIC_64; FAT_CIGAM_64] in
      let needs_byteswap :=
        Z_in header [MH_CIGAM; MH_CIGAM_64; FAT_CIGAM; FAT_CIGAM_64; lit_ra_lt_bang] in
      let details a :=
        {| _offset := offset; _format := fmt; _arch := a;
           _is_64_bit := is_64_bit; _needs_byteswap := needs_byteswap |} in
      match fmt with
      | format_macho =>
          match freader_read s1 4 with
          | None => None
          | Some (cb, s2) =>
              let cputype0 := uint32_of_bytes cb in
              let cputype := if needs_byteswap then endian_swap32 cputype0 else cputype0 in
              if Bool.eqb (negb (Z.land cputype CPU_ARCH_ABI64 =? 0)) is_64_bit then
                if cputype =? CPU_TYPE_X86 then Some ((details arch_x86, []), s2)
                else if cputype =? CPU_TYPE_X86_64 then Some ((details arch_x86_64, []), s2)
                else if cputype =? CPU_TYPE_ARM then Some ((details arch_arm, []), s2)
                else if cputype =? CPU_TYPE_ARM64 then Some ((details arch_arm64, []), s2)
                else if cputype =? CPU_TYPE_ARM64_32 then Some ((details arch_arm64, []), s2)
                else Some ((details arch_unknown, ["WARN: Unknown Mach-O cputype"%string]), s2)
              else None
          end
      | _ => Some ((details arch_unknown, []), s1)
      end
  end.

(** [detect_file]: the body under [temp_seek(s, 0, std::ios::cur, ...)]. *)
Definition detect_file (s : freader) : option ((file_details * list string) * freader) :=
  temp_seek s 0 ios_cur detect_file_body.

(* ===================================================================== *)
(** * LEB128 decoding ([parse_file.cpp]) *)
(* ===================================================================== *)

(** The iterations a decoding loop can make before its reads leave the
    mapping: one per byte between [_p] and the end of the mapping. *)
Definition freader_fuel (s : freader) : nat :=
  match _buffer (_filebuf s) with
  | Some mb => S (Z.to_nat (mb_base mb + mb_len mb - _p s))
  | None => 1%nat
  end.

(** The loop of [uleb128]; [result] is a [std::uint32_t], [shift] a
    [std::size_t]. The shifted group is an [int] (wrapping), converted to
    [std::uint32_t] by the [|=]. *)
Fixpoint uleb128_loop (fuel : nat) (s : freader) (result shift : Z) : option (Z * freader) :=
  match fuel with
  | O => None
  | S fuel' =>
      match freader_get s with
      | None => None
      | Some (b, s') =>
          let c := char_of_byte b in
          let result' :=
            if shift <? 32
            then Z.lor result (uint32_t (Z.shiftl (Z.land c 0x7f) shift))
            else result in
          if Z.land c 0x80 =? 0 then Some (result', s')
          else uleb128_loop fuel' s' result' (size_t (shift + 7))
      end
  end.

(** [uleb128]. *)
Definition uleb128 (s : freader) : option (Z * freader) :=
  uleb128_loop (freader_fuel s) s 0 0.

(** [x << shift] on a 32-bit [int]: undefined when [shift] is 32 or more,
    wrapping otherwise. *)
Definition int_shl (x shift : Z) : option Z :=
  if shift <? 32 then Some (int32_t (Z.shiftl x shift)) else None.

(** The loop of [sleb128]: the result, the shift and the sign at the [break]. *)
Fixpoint sleb128_loop (fuel : nat) (s : freader) (result shift : Z)
    : option (Z * Z * bool * freader) :=
  match fuel with
  | O => None
  | S fuel' =>
      match freader_get s with
      | None => None
      | Some (b, s') =>
          let c := char_of_byte b in
          match int_shl (Z.land c 0x7f) shift with
          | None => None
          | Some g =>
              let result' := Z.lor result g in
              let shift' := size_t (shift + 7) in
              if Z.land c 0x80 =? 0
              then Some (result', shift', negb (Z.land c 0x40 =? 0), s')
              else sleb128_loop fuel' s' result' shift'
          end
      end
  end.

(** [sleb128]. *)
Definition sleb128 (s : freader) : option (Z * freader) :=
  match sleb128_loop (freader_fuel s) s 0 0 with
  | None => None
  | Some (result, shift, sign, s') =>
      let size_k := 32 in
      if sign && (shift <? size_k) then
        match int_shl 1 shift with
        | Some m => Some (Z.lor result (- m), s')
        | None => None
        end
      else Some (result, s')
  end.

(** ** LEB128 encodings, as the format defines them *)

(** The 7-bit groups of an encoding, little-endian. *)
Fixpoint leb_groups_value (bs : list byte) : Z :=
  match bs with
  | [] => 0
  | b :: t => Z.land (byte_to_Z b) 0x7f + 128 * leb_groups_value t
  end.

(** Every byte but the last has its high bit set, the last has it clear. *)
Fixpoint leb_wf (bs : list byte) : bool :=
  match bs with
  | [] => false
  | [b] => Z.land (byte_to_Z b) 0x80 =? 0
  | b :: t => negb (Z.land (byte_to_Z b) 0x80 =? 0) && leb_wf t
  end.

(** [bs] is a ULEB128 encoding of [v] (padded encodings included). *)
Definition uleb128_encodes (bs : list byte) (v : Z) : Prop :=
  leb_wf bs = true /\ leb_groups_value bs = v.

(** The sign bit of an encoding: bit [0x40] of its last group. *)
Definition leb_sign (bs : list byte) : bool :=
  match last bs with
  | Some b => negb (Z.land (byte_to_Z b) 0x40 =? 0)
  | None => false
  end.

(** [bs] is an SLEB128 encoding of [v]: the groups read as a two's complement
    number of [7 * length bs] bits. *)
Definition sleb128_encodes (bs : list byte) (v : Z) : Prop :=
  leb_wf bs = true /\
  leb_groups_value bs - (if leb_sign bs then 2 ^ (7 * Z.of_nat (List.length bs)) else 0) = v.

(** The reader's next bytes are [bs]: each is in the mapping, and the reader
    stays valid while it reads them. *)
Definition freader_holds (s : freader) (bs : list byte) : Prop :=
  filebuf_bool (_filebuf s) = true /\
  0 <= _p s /\
  _p s + Z.of_nat (List.length bs) <= _l s + 1 /\
  _l s + 1 < 2 ^ 64 /\
  filebuf_bytes (_filebuf s) (_p s) (List.length bs) = Some bs.

(* ===================================================================== *)
(** * More of the reader ([parse_file.hpp]) *)
(* ===================================================================== *)

(** [freader::read_c_string_view], the loop [for (; *_p; ++_p)] from the
    address [p]: the characters before the NUL, and the address of the NUL.
    Nothing compares [_p] with [_l] on the way. *)
Fixpoint c_string_loop (fuel : nat) (fb : filebuf) (p : Z) : option (list byte * Z) :=
  match fuel with
  | O => None
  | S fuel' =>
      match filebuf_deref fb p with
      | None => None
      | Some c =>
          if Byte.eqb c x00 then Some ([], p)
          else
            match c_string_loop fuel' fb (size_t (p + 1)) with
            | Some (cs, q) => Some (c :: cs, q)
            | None => None
            end
      end
  end.

(** [freader::read_c_string_view]: the view [(f, n)] and the reader one past
    the NUL. *)
Definition freader_read_c_string_view (r : freader) : option (list byte * freader) :=
  if freader_bool r then
    match c_string_loop (freader_fuel r) (_filebuf r) (_p r) with
    | Some (cs, q) => Some (cs, set_p r (size_t (q + 1)))
    | None => None
    end
  else None.

(** [read_exactly(s, size, f)]: [f] runs, and the position must have advanced
    by [size]. *)
Definition read_exactly {A} (s : freader) (size : Z)
    (f : Z -> freader -> option (A * freader)) : option (A * freader) :=
  let start := freader_tellg s in
  match f size s with
  | Some (result, s') =>
      if freader_tellg s' =? size_t (start + size) then Some (result, s') else None
  | None => None
  end.

(** [read_pod<std::uint32_t>] (on a little-endian host) and the
    specialization [read_pod<bool>]. *)
Definition read_pod_uint32 (s : freader) : option (Z * freader) :=
  match freader_read s 4 with
  | Some (bs, s') => Some (uint32_of_bytes bs, s')
  | None => None
  end.

Definition read_pod_bool (s : freader) : option (bool * freader) :=
  match freader_read s 1 with
  | Some ([x], s') => Some (negb (Byte.eqb x x00), s')
  | _ => None
  end.

(** [endian_swap<T>]: the object as its [sizeof(T)] bytes, [first] and [last]
    as offsets into it. The loop runs while [first != last]; a swap through a
    pointer outside the object is undefined. *)
Fixpoint endian_swap_loop (fuel : nat) (c : list byte) (first last : Z) : option (list byte) :=
  if first =? last then Some c
  else
    match fuel with
    | O => None
    | S fuel' =>
        let last' := last - 1 in
        if (0 <=? first) && (0 <=? last') then
          match c !! Z.to_nat first, c !! Z.to_nat last' with
          | Some a, Some b =>
              endian_swap_loop fuel'
                (<[Z.to_nat last' := a]> (<[Z.to_nat first := b]> c)) (first + 1) last'
          | _, _ => None
          end
        else None
    end.

Definition endian_swap (fuel : nat) (c : list byte) : option (list byte) :=
  endian_swap_loop fuel c 0 (Z.of_nat (List.length c)).

(* ===================================================================== *)
(** * The string pool ([string_pool.cpp]) *)
(* ===================================================================== *)

(** A pointer into the arena: the pool it belongs to, the pond (slab) of that
    pool, and the offset inside the pond. *)
Abbreviation arena_ptr := (nat * nat * Z)%type.

(** Modelled from the spec: [pool_string] of [orc/string_pool.hpp], which is
    not among the sources. A handle holds one pointer into the arena, the
    empty string is the null handle, and two handles compare equal iff they
    point to the same arena slot (section 3 of the specification). *)
Definition pool_string : Type := option arena_ptr.

Definition pool_string_eqb (x y : pool_string) : bool := bool_decide (x = y).

(** What [pool::empool] packs before and at the returned pointer: the
    [uint32_t] length, the [size_t] hash, the bytes (followed by a NUL). *)
Record block := {
  b_size : Z;
  b_hash : Z;
  b_bytes : string
}.

(** The arena: the block at each pointer [pool::empool] has returned. *)
Abbreviation arena_t := (gmap arena_ptr block).

(** [struct pool]: the bump pointer [_p] (pond and offset, null at first),
    the bytes left [_n], and the capacity of each pond of [_ponds]. *)
Record pool := {
  pool_p : option (nat * Z);
  pool_n : Z;
  pool_ponds : list Z
}.

Definition pool_count_k : Z := 23.
Definition default_min_k : Z := 16 * 1024 * 1024.

(** [sizeof(uint32_t) + sizeof(size_t)]: the prefix of a block. *)
Definition prefix_k : Z := 4 + 8.

(** The whole of the interning state: the [keys] map of [empool], its
    [pools] array, and the arena bytes the pools have written. *)
Record pool_state := {
  keys : gmap Z arena_ptr;
  pools : list pool;
  arena : arena_t
}.

Definition pool_empty : pool := {| pool_p := None; pool_n := 0; pool_ponds := [] |}.

Definition pool_init : pool_state :=
  {| keys := ∅; pools := replicate (Z.to_nat pool_count_k) pool_empty; arena := ∅ |}.

(** [pool_string::get_size] and [pool_string::get_hash], with the assertions
    of the former. *)
Definition get_size (mem : arena_t) (d : arena_ptr) : option Z :=
  match mem !! d with
  | Some b => if (0 <? b_size b) && (b_size b <? 100000) then Some (b_size b) else None
  | None => None
  end.

Definition get_hash (mem : arena_t) (d : arena_ptr) : option Z :=
  match mem !! d with
  | Some b => Some (b_hash b)
  | None => None
  end.

(** Modelled from the spec: [pool_string::view] and [pool_string::hash] of
    the missing header. The null handle views as the empty string; any other
    handle views as the [get_size] bytes at its pointer and hashes to the
    stored [get_hash] (section 4.B). The specification gives the null handle
    no hash: it is taken as 0 here, and no property below depends on it. *)
Definition pool_string_view (mem : arena_t) (ps : pool_string) : option string :=
  match ps with
  | None => Some EmptyString
  | Some d =>
      match get_size mem d, mem !! d with
      | Some n, Some b => Some (substring 0 (Z.to_nat n) (b_bytes b))
      | _, _ => None
      end
  end.

Definition pool_string_hash (mem : arena_t) (ps : pool_string) : option Z :=
  match ps with
  | None => Some 0
  | Some d => get_hash mem d
  end.

Section StringPool.

(** [orc::murmur3_64] of [orc/hash.hpp], which is not among the sources: the
    hash of the bytes it is handed. *)
Variable murmur3_64 : string -> Z.

(** [string_view_hash]: the length is cast to [uint32_t]. *)
Definition string_view_hash (s : string) : Z :=
  size_t (murmur3_64 (substring 0 (Z.to_nat (uint32_t (Z.of_nat (String.length s)))) s)).

(** [pool::empool] of the pool with index [idx]: the pointer returned, the
    pool and the arena afterwards. Writing through a null [_p] is undefined. *)
Definition pool_empool (idx : nat) (pl : pool) (mem : arena_t) (incoming : string)
    : option (arena_ptr * pool * arena_t) :=
  let sz := uint32_t (Z.of_nat (String.length incoming)) in
  let tsz := uint32_t (sz + prefix_k + 1) in
  let pl1 :=
    if pool_n pl <? tsz then
      let n := Z.max default_min_k tsz in
      {| pool_p := Some (List.length (pool_ponds pl), 0);
         pool_n := n;
         pool_ponds := pool_ponds pl ++ [n] |}
    else pl in
  let h := string_view_hash incoming in
  match pool_p pl1 with
  | None => None
  | Some (pond, off) =>
      let result := (idx, pond, off + prefix_k) in
      let blk := {| b_size := sz; b_hash := h;
                    b_bytes := substring 0 (Z.to_nat sz) incoming |} in
      Some (result,
            {| pool_p := Some (pond, off + tsz);
               pool_n := pool_n pl1 - tsz;
               pool_ponds := pool_ponds pl1 |},
            <[result := blk]> mem)
  end.

(** The block [pool::empool] writes for a string that fits. *)
Definition block_of (s : string) : block :=
  {| b_size := Z.of_nat (String.length s);
     b_hash := string_view_hash s;
     b_bytes := s |}.

(** [find_key] of [empool], followed by the construction of the handle and
    [assert(ps.view() == src)]: [None] when the assertion fails. *)
Definition found_key (st : pool_state) (src : string) (c : arena_ptr) : option pool_string :=
  match pool_string_view (arena st) (Some c) with
  | Some v => if String.eqb v src then Some (Some c) else None
  | None => None
  end.

(** [empool]: the handle and the state afterwards. The second search, under
    the lock, finds what the first one found when no other thread runs. *)
Definition empool (st : pool_state) (src : string) : option (pool_string * pool_state) :=
  if String.eqb src EmptyString then Some (None, st)
  else
    let h := string_view_hash src in
    match keys st !! h with
    | Some c =>
        match found_key st src c with
        | Some ps => Some (ps, st)
        | None => None
        end
    | None =>
        let index := Z.to_nat (h mod pool_count_k) in
        match pools st !! index with
        | None => None
        | Some pl =>
            match pool_empool index pl (arena st) src with
            | None => None
            | Some (ptr, pl', mem') =>
                Some (Some ptr,
                      {| keys := <[h := ptr]> (keys st);
                         pools := <[index := pl']> (pools st);
                         arena := mem' |})
            end
        end
    end.

(** The strings whose block size fits the [uint32_t] arithmetic of
    [pool::empool]. *)
Definition fits_uint32 (s : string) : Prop :=
  Z.of_nat (String.length s) + prefix_k + 1 < 2 ^ 32.

(** The states the pool goes through: the initial one, and whatever a call of
    [empool] that returns leaves. *)
Inductive pool_reachable : pool_state -> Prop :=
| reach_init : pool_reachable pool_init
| reach_empool st src ps st' :
    pool_reachable st -> fits_uint32 src -> empool st src = Some (ps, st') ->
    pool_reachable st'.

(** No block of the arena has the hash of [s] and other bytes: what
    [assert(ps.view() == src)] checks when the key of [s] is found. *)
Definition no_collision (st : pool_state) (s : string) : Prop :=
  forall p b, arena st !! p = Some b -> b_hash b = string_view_hash s -> b_bytes b = s.

(** The bump allocator of the pool of index [i]: every block of the pool lies
    in a pond before the current one, or in the current one before [_p]. *)
Definition pool_alloc_ok (i : nat) (pl : pool) (mem : arena_t) : Prop :=
  match pool_p pl with
  | None => pool_n pl = 0 /\ forall pond off, mem !! (i, pond, off) = None
  | Some (cp, coff) =>
      S cp = List.length (pool_ponds pl) /\
      forall pond off, is_Some (mem !! (i, pond, off)) ->
        (pond < cp)%nat \/ (pond = cp /\ off < coff + prefix_k)
  end.

(** The invariant of the interning state. *)
Record pool_inv (st : pool_state) : Prop := {
  inv_pools : List.length (pools st) = Z.to_nat pool_count_k;
  inv_keys : forall k p, keys st !! k = Some p ->
    exists b, arena st !! p = Some b /\ b_hash b = k;
  inv_arena : forall p b, arena st !! p = Some b ->
    keys st !! b_hash b = Some p /\
    b_hash b = size_t (murmur3_64 (b_bytes b)) /\
    b_size b = Z.of_nat (String.length (b_bytes b)) /\
    0 < b_size b;
  inv_alloc : forall i pl, pools st !! i = Some pl -> pool_alloc_ok i pl (arena st)
}.

End StringPool.

(* ===================================================================== *)
(** * Attributes, ancestries and DIEs ([dwarf_structs.hpp]) *)
(* ===================================================================== *)

(** [attribute_value::type]: a set of flags. *)
Definition type_none : Z := 0.
Definition type_passover : Z := Z.shiftl 1 0.
Definition type_uint : Z := Z.shiftl 1 1.
Definition type_sint : Z := Z.shiftl 1 2.
Definition type_string : Z := Z.shiftl 1 3.
Definition type_reference : Z := Z.shiftl 1 4.
Definition type_die : Z := Z.shiftl 1 5.

(** [has_type]. *)
Definition has_type (x y : Z) : bool := negb (Z.land x y =? 0).

(** A DIE lives at an address of the global batch list. *)
Abbreviation die_ptr := positive.

Record attribute_value := {
  av_type : Z;
  av_uint : Z;
  av_int : Z;
  av_string : pool_string;
  av_die : option die_ptr
}.

(** [attribute_value::has]. *)
Definition av_has (x : attribute_value) (t : Z) : bool := has_type (av_type x) t.

(** [operator==] on attribute values: string first, then uint, then sint,
    then the flags; references and DIEs are not compared. *)
Definition attribute_value_eqb (x y : attribute_value) : bool :=
  if av_has x type_string then pool_string_eqb (av_string x) (av_string y)
  else if av_has x type_uint then av_uint x =? av_uint y
  else if av_has x type_sint then av_int x =? av_int y
  else av_type x =? av_type y.

(** Modelled from the spec: the codes of [dw::at] come from
    [orc/dwarf_constants.hpp], which is not among the sources; a name is a
    DWARF AT code (section 3), [none] the sentinel 0 and [type] DW_AT_type. *)
Definition at_none : Z := 0.
Definition at_type : Z := 0x49.

Record attribute := {
  _name : Z;
  _form : Z;
  _value : attribute_value
}.

(** [operator==] on attributes. *)
Definition attribute_eqb (x y : attribute) : bool :=
  (_name x =? _name y) && (_form x =? _form y) && attribute_value_eqb (_value x) (_value y).

Definition attribute_has (x : attribute) (t : Z) : bool := av_has (_value x) t.

(** [attribute::reference]: the offset shares [_uint]. *)
Definition attribute_reference (x : attribute) : Z := av_uint (_value x).

(** [attribute_sequence]: a vector of attributes. *)
Definition attribute_sequence : Type := list attribute.

(** [struct object_ancestry]: the array of five handles and the count. *)
Record object_ancestry := {
  _ancestors : list pool_string;
  _count : Z
}.

Definition ancestors_size : Z := 5.

(** A default-constructed ancestry: five null handles, no name. *)
Definition object_ancestry_fresh : object_ancestry :=
  {| _ancestors := replicate (Z.to_nat ancestors_size) None; _count := 0 |}.

(** The assertion that guards [emplace_back]. *)
Definition emplace_back_assertion (o : object_ancestry) : bool :=
  _count o + 1 <? ancestors_size.

(** What [emplace_back] does once past its assertion:
    [_ancestors[_count++] = ancestor]. *)
Definition emplace_back_store (o : object_ancestry) (ancestor : pool_string) : object_ancestry :=
  {| _ancestors := <[Z.to_nat (_count o) := ancestor]> (_ancestors o);
     _count := size_t (_count o + 1) |}.

(** [object_ancestry::emplace_back]. *)
Definition object_ancestry_emplace_back (o : object_ancestry) (ancestor : pool_string)
    : option object_ancestry :=
  if emplace_back_assertion o then Some (emplace_back_store o ancestor) else None.

(** A run of [emplace_back] calls, one per name. *)
Fixpoint emplace_back_all (o : object_ancestry) (names : list pool_string)
    : option object_ancestry :=
  match names with
  | [] => Some o
  | a :: rest =>
      match object_ancestry_emplace_back o a with
      | Some o' => emplace_back_all o' rest
      | None => None
      end
  end.

(** [object_ancestry::back]: [assert(_count); return _ancestors[_count]]. *)
Definition object_ancestry_back (o : object_ancestry) : option pool_string :=
  if negb (_count o =? 0) then _ancestors o !! Z.to_nat (_count o) else None.

(** [struct die]. *)
Record die := {
  _path : pool_string;
  _next_die : option die_ptr;
  _hash : Z;
  _fatal_attribute_hash : Z;
  _ofd_index : Z;
  _debug_info_offset : Z;
  _tag : Z;
  die_arch : arch;
  _has_children : bool;
  _conflict : bool;
  _skippable : bool
}.

(** The DIE storage: the DIE at each address. *)
Abbreviation die_heap := (gmap die_ptr die).

Definition die_set_next (d : die) (n : option die_ptr) : die :=
  {| _path := _path d; _next_die := n; _hash := _hash d;
     _fatal_attribute_hash := _fatal_attribute_hash d; _ofd_index := _ofd_index d;
     _debug_info_offset := _debug_info_offset d; _tag := _tag d; die_arch := die_arch d;
     _has_children := _has_children d; _conflict := _conflict d;
     _skippable := _skippable d |}.

Definition die_set_conflict (d : die) (c : bool) : die :=
  {| _path := _path d; _next_die := _next_die d; _hash := _hash d;
     _fatal_attribute_hash := _fatal_attribute_hash d; _ofd_index := _ofd_index d;
     _debug_info_offset := _debug_info_offset d; _tag := _tag d; die_arch := die_arch d;
     _has_children := _has_children d; _conflict := c;
     _skippable := _skippable d |}.

(** [std::lower_bound] over a vector of strings ordered by [operator<]: the
    halving search on [[first, first + count)]. *)
Fixpoint lower_bound (c : list string) (x : string) (first count : nat) (fuel : nat) : nat :=
  match fuel with
  | O => first
  | S fuel' =>
      match count with
      | O => first
      | _ =>
          let step := Nat.div2 count in
          let it := (first + step)%nat in
          match c !! it with
          | Some v =>
              if String.ltb v x
              then lower_bound c x (S it) (count - (step + 1))%nat fuel'
              else lower_bound c x first step fuel'
          | None => first
          end
      end
  end.

(** [sorted_has]. *)
Definition sorted_has (c : list string) (x : string) : bool :=
  let found := lower_bound c x 0 (List.length c) (List.length c) in
  match c !! found with
  | Some v => String.eqb v x
  | None => false
  end.

(** ** Setters, getters and searches *)

(** A default-constructed [attribute_value], and its setters: each flag is
    or-ed into [_type], except that [passover()] overwrites it; [uint] and
    [reference] both store into [_uint]. The parameter of [uint] is a
    [std::uint64_t], that of [sint] a [std::int32_t], that of [reference] a
    [std::uint32_t]. *)
Definition av_default : attribute_value :=
  {| av_type := type_none; av_uint := 0; av_int := 0; av_string := None; av_die := None |}.

Definition av_passover (v : attribute_value) : attribute_value :=
  {| av_type := type_passover; av_uint := av_uint v; av_int := av_int v;
     av_string := av_string v; av_die := av_die v |}.

Definition av_set_uint (v : attribute_value) (x : Z) : attribute_value :=
  {| av_type := Z.lor (av_type v) type_uint; av_uint := size_t x; av_int := av_int v;
     av_string := av_string v; av_die := av_die v |}.

Definition av_set_sint (v : attribute_value) (x : Z) : attribute_value :=
  {| av_type := Z.lor (av_type v) type_sint; av_uint := av_uint v; av_int := int32_t x;
     av_string := av_string v; av_die := av_die v |}.

Definition av_set_string (v : attribute_value) (x : pool_string) : attribute_value :=
  {| av_type := Z.lor (av_type v) type_string; av_uint := av_uint v; av_int := av_int v;
     av_string := x; av_die := av_die v |}.

Definition av_set_reference (v : attribute_value) (offset : Z) : attribute_value :=
  {| av_type := Z.lor (av_type v) type_reference; av_uint := uint32_t offset;
     av_int := av_int v; av_string := av_string v; av_die := av_die v |}.

Definition av_set_die (v : attribute_value) (d : die_ptr) : attribute_value :=
  {| av_type := Z.lor (av_type v) type_die; av_uint := av_uint v; av_int := av_int v;
     av_string := av_string v; av_die := Some d |}.

(** The getters, each behind its assertion. *)
Definition av_get_uint (v : attribute_value) : option Z :=
  if av_has v type_uint then Some (av_uint v) else None.

Definition av_get_sint (v : attribute_value) : option Z :=
  if av_has v type_sint then Some (av_int v) else None.

Definition av_get_string (v : attribute_value) : option pool_string :=
  if av_has v type_string then Some (av_string v) else None.

Definition av_get_reference (v : attribute_value) : option Z :=
  if av_has v type_reference then Some (av_uint v) else None.

Definition av_get_die (v : attribute_value) : option die_ptr :=
  if av_has v type_die then av_die v else None.

(** [attribute_value::has_none]. *)
Definition av_has_none (v : attribute_value) : bool := av_has v type_none.

(** [attribute_sequence::find], [has], [get] and [push_back]: the search is
    [std::find_if] by name, from the front. *)
Definition attribute_sequence_find (x : attribute_sequence) (name : Z) : option attribute :=
  List.find (fun attr => _name attr =? name) x.

Definition attribute_sequence_has (x : attribute_sequence) (name : Z) : bool :=
  match attribute_sequence_find x name with
  | Some _ => true
  | None => false
  end.

Definition attribute_sequence_has_type (x : attribute_sequence) (name t : Z) : bool :=
  match attribute_sequence_find x name with
  | Some a => attribute_has a t
  | None => false
  end.

(** [get] asserts that the name was found. *)
Definition attribute_sequence_get (x : attribute_sequence) (name : Z) : option attribute :=
  attribute_sequence_find x name.

Definition attribute_sequence_uint (x : attribute_sequence) (name : Z) : option Z :=
  match attribute_sequence_get x name with
  | Some a => av_get_uint (_value a)
  | None => None
  end.

Definition attribute_sequence_push_back (x : attribute_sequence) (a : attribute)
    : attribute_sequence :=
  x ++ [a].

(* ===================================================================== *)
(** * Parsing a file ([parse_file.cpp]) *)
(* ===================================================================== *)

(** What a parse acts on: the reader, the string pool, and the lines written
    to the error stream. *)
Record parse_state := {
  ps_reader : freader;
  ps_pool : pool_state;
  ps_cerr : list string
}.

(** How a call ends: it returns, it throws (with the [what()] of the
    exception), or an assertion fails. *)
Inductive outcome (A : Type) : Type :=
| returned (a : A) (st : parse_state)
| thrown (what : string) (st : parse_state)
| aborted.

Arguments returned {A} a st.
Arguments thrown {A} what st.
Arguments aborted {A}.

Section ParseFile.

Variable murmur3_64 : string -> Z.

(** [struct callbacks], handed on as it is. *)
Variable callbacks : Type.

(** [read_macho], [read_ar] and [read_fat], of [orc/macho.hpp], [orc/ar.hpp]
    and [orc/fat.hpp]. *)
Variable read_macho : object_ancestry -> parse_state -> Z -> file_details -> callbacks -> outcome unit.
Variable read_ar : object_ancestry -> parse_state -> Z -> file_details -> callbacks -> outcome unit.
Variable read_fat : object_ancestry -> parse_state -> Z -> file_details -> callbacks -> outcome unit.

(** [parse_file]: the detection, the name appended to a copy of the
    ancestry, then the dispatch on the format. *)
Definition parse_file (object_name : string) (ancestry : object_ancestry) (st : parse_state)
    (end_pos : Z) (cb : callbacks) : outcome unit :=
  match detect_file (ps_reader st) with
  | None => aborted
  | Some ((detection, warnings), s1) =>
      match empool murmur3_64 (ps_pool st) object_name with
      | None => aborted
      | Some (name, pool1) =>
          match object_ancestry_emplace_back ancestry name with
          | None => aborted
          | Some new_ancestry =>
              let st1 := {| ps_reader := s1; ps_pool := pool1;
                            ps_cerr := ps_cerr st ++ warnings |} in
              match _format detection with
              | format_unknown => thrown "unknown format" st1
              | format_macho => read_macho new_ancestry st1 end_pos detection cb
              | format_ar => read_ar new_ancestry st1 end_pos detection cb
              | format_fat => read_fat new_ancestry st1 end_pos detection cb
              end
          end
      end
  end.

End ParseFile.

(* ===================================================================== *)
(** * The conflict analyzer ([orc.cpp]) *)
(* ===================================================================== *)

(** [path_to_symbol]: the path without its seven-character prefix. *)
Definition path_to_symbol (path : string) : string :=
  if (String.length path <? 7)%nat then EmptyString
  else substring 7 (String.length path - 7) path.

(** [conflict_details] and [odrv_report]; the [std::map] of the report is the
    list of its entries in key order. *)
Record conflict_details := {
  cd_die : die_ptr;
  cd_attributes : attribute_sequence
}.

Record odrv_report := {
  _symbol : string;
  _list_head : die_ptr;
  _conflict_map : list (Z * conflict_details);
  odrv_name : Z
}.

(** [std::map::count] and insertion of a key that is not in the map. *)
Definition map_count {A} (k : Z) (m : list (Z * A)) : bool :=
  existsb (fun e => fst e =? k) m.

Fixpoint map_insert {A} (k : Z) (v : A) (m : list (Z * A)) : list (Z * A) :=
  match m with
  | [] => [(k, v)]
  | e :: rest => if k <? fst e then (k, v) :: m else e :: map_insert k v rest
  end.

(** The settings the analyzer reads (of [orc/settings.hpp]). *)
Record settings := {
  _violation_ignore : list string;
  _violation_report : list string
}.

Section Analyzer.

(** [nonfatal_attribute], declared in [dwarf_structs.hpp] and defined outside
    the sources. *)
Variable nonfatal_attribute : Z -> bool.

(** The arena the handles of the DIEs and ancestries point into. *)
Variable mem : arena_t.

(** [object_file_ancestry] of [orc/object_file_registry.hpp]. *)
Variable object_file_ancestry : Z -> object_ancestry.

(** [dwarf::fetch_one_die] on the object file of index [ofd_index], of
    [orc/dwarf.hpp]: the DIE at the offset and its attributes. *)
Variable fetch_one_die : Z -> Z -> die * attribute_sequence.

(** [to_string] on [dw::tag] and on [dw::at], of [orc/dwarf_constants.hpp]. *)
Variable tag_to_string : Z -> string.
Variable at_to_string : Z -> string.

(** [std::sort] with a comparator. The comparator may fail an assertion, and
    the sort with it: [None]. *)
Variable std_sort :
  (die_ptr -> die_ptr -> option bool) -> list die_ptr -> option (list die_ptr).

(** [pool_string::view] on a handle of the arena: [None] where [get_size]
    fails an assertion (a stored size of 100000 or more) and where the handle
    points to no block of [mem]. *)
Definition view (ps : pool_string) : option string := pool_string_view mem ps.

(** The hash of a handle of the arena (a handle that points to no block of
    [mem] is read as the null handle). *)
Definition string_hash (ps : pool_string) : Z :=
  default 0 (pool_string_hash mem ps).

(** [type_equivalent]. *)
Definition type_equivalent (x y : attribute) : bool :=
  if attribute_has x type_reference && attribute_has y type_reference &&
     (attribute_reference x =? attribute_reference y) then true
  else if attribute_has x type_string && attribute_has y type_string &&
          (string_hash (av_string (_value x)) =? string_hash (av_string (_value y))) then true
  else false.

(** The first loop of [find_attribute_conflict]: [Some name] when it returns
    [name], [None] when it runs to its end. *)
Fixpoint conflict_in_x (xs : list attribute) (y : attribute_sequence) : option Z :=
  match xs with
  | [] => None
  | xattr :: rest =>
      let name := _name xattr in
      if nonfatal_attribute name then conflict_in_x rest y
      else
        match List.find (fun a => name =? _name a) y with
        | None => Some name
        | Some yattr =>
            if (name =? at_type) && type_equivalent xattr yattr then conflict_in_x rest y
            else if attribute_eqb xattr yattr then conflict_in_x rest y
            else Some name
        end
  end.

(** The second loop: the fatal names of [y] that [x] lacks. *)
Fixpoint conflict_in_y (ys : list attribute) (x : attribute_sequence) : option Z :=
  match ys with
  | [] => None
  | yattr :: rest =>
      let name := _name yattr in
      if nonfatal_attribute name then conflict_in_y rest x
      else
        match List.find (fun a => name =? _name a) x with
        | None => Some name
        | Some _ => conflict_in_y rest x
        end
  end.

(** [find_attribute_conflict]. *)
Definition find_attribute_conflict (x y : attribute_sequence) : Z :=
  match conflict_in_x x y with
  | Some name => name
  | None =>
      match conflict_in_y y x with
      | Some name => name
      | None => at_none
      end
  end.

(** The names of the fatal attributes of a sequence, in order. *)
Definition fatal_names (x : attribute_sequence) : list Z :=
  map _name (List.filter (fun a => negb (nonfatal_attribute (_name a))) x).

(** [fetch_attributes_for_die], with its four assertions. *)
Definition fetch_attributes_for_die (d : die) : option attribute_sequence :=
  let '(die', attributes) := fetch_one_die (_ofd_index d) (_debug_info_offset d) in
  if (_tag die' =? _tag d) && arch_eqb (die_arch die') (die_arch d) &&
     Bool.eqb (_has_children die') (_has_children d) &&
     (_debug_info_offset die' =? _debug_info_offset d)
  then Some attributes else None.

(** The assertions of [fetch_attributes_for_die] hold for the members: the
    DIE read back from the object file is the registered one. *)
Definition fetch_agrees (h : die_heap) (l : list die_ptr) : Prop :=
  forall p d, p ∈ l -> h !! p = Some d ->
    is_Some (fetch_attributes_for_die d).

(** The loop of the constructor of [odrv_report] over the chain. *)
Fixpoint conflict_map_of (fuel : nat) (h : die_heap) (next_die : option die_ptr)
    (m : list (Z * conflict_details)) : option (list (Z * conflict_details)) :=
  match next_die with
  | None => Some m
  | Some p =>
      match fuel with
      | O => None
      | S fuel' =>
          match h !! p with
          | None => None
          | Some d =>
              let hash := _fatal_attribute_hash d in
              if map_count hash m then conflict_map_of fuel' h (_next_die d) m
              else
                match fetch_attributes_for_die d with
                | None => None
                | Some attrs =>
                    conflict_map_of fuel' h (_next_die d)
                      (map_insert hash {| cd_die := p; cd_attributes := attrs |} m)
                end
          end
      end
  end.

(** [odrv_report::odrv_report(symbol, list_head)]. *)
Definition odrv_report_make (fuel : nat) (h : die_heap) (symbol : string) (list_head : die_ptr)
    : option odrv_report :=
  match h !! list_head with
  | None => None
  | Some d =>
      if _conflict d then
        match conflict_map_of fuel h (Some list_head) [] with
        | None => None
        | Some m =>
            if (1 <? List.length m)%nat then
              match head m, last m with
              | Some front, Some back =>
                  Some {| _symbol := symbol; _list_head := list_head; _conflict_map := m;
                          odrv_name := find_attribute_conflict
                                         (cd_attributes (snd front))
                                         (cd_attributes (snd back)) |}
              | _, _ => None
              end
            else None
        end
      else None
  end.

(** [odrv_report::category]. *)
Definition category (h : die_heap) (report : odrv_report) : option string :=
  match head (_conflict_map report) with
  | None => None
  | Some e =>
      match h !! cd_die (snd e) with
      | None => None
      | Some d =>
          Some (tag_to_string (_tag d) ++ ":"%string ++ at_to_string (odrv_name report))%string
      end
  end.

(** [filter_report]. *)
Definition filter_report (st : settings) (h : die_heap) (report : odrv_report) : option bool :=
  match category h report with
  | None => None
  | Some odrv_category =>
      Some
        (if negb (bool_decide (_violation_ignore st = [])) then
           negb (sorted_has (_violation_ignore st) odrv_category)
         else if negb (bool_decide (_violation_report st = [])) then
           sorted_has (_violation_report st) odrv_category
         else true)
  end.

(** [object_ancestry::operator<]: the loop over the first [_count] names.
    Each turn reads slot [i] of both arrays and takes the view of both
    handles: a slot outside the array, or a handle without a view, is [None]. *)
Fixpoint ancestry_lt_loop (xs ys : list pool_string) (i n : nat) : option bool :=
  match n with
  | O => Some false
  | S n' =>
      match xs !! i, ys !! i with
      | Some px, Some py =>
          match view px, view py with
          | Some a, Some b =>
              if String.ltb a b then Some true
              else if String.ltb b a then Some false
              else ancestry_lt_loop xs ys (S i) n'
          | _, _ => None
          end
      | _, _ => None
      end
  end.

Definition ancestry_lt (x y : object_ancestry) : option bool :=
  if _count x <? _count y then Some true
  else if _count x >? _count y then Some false
  else ancestry_lt_loop (_ancestors x) (_ancestors y) 0 (Z.to_nat (_count x)).

(** The comparator [enforce_odrv_for_die_list] hands to [std::sort]: it reads
    [_ofd_index] through both pointers. *)
Definition die_ancestry_lt (h : die_heap) (a b : die_ptr) : option bool :=
  match h !! a, h !! b with
  | Some da, Some db =>
      ancestry_lt (object_file_ancestry (_ofd_index da))
                  (object_file_ancestry (_ofd_index db))
  | _, _ => None
  end.

(** The first loop of [enforce_odrv_for_die_list]: the chain from [ptr]. *)
Fixpoint collect_dies (fuel : nat) (h : die_heap) (ptr : option die_ptr)
    : option (list die_ptr) :=
  match ptr with
  | None => Some []
  | Some p =>
      match fuel with
      | O => None
      | S fuel' =>
          match h !! p with
          | None => None
          | Some d =>
              match collect_dies fuel' h (_next_die d) with
              | Some rest => Some (p :: rest)
              | None => None
              end
          end
      end
  end.

(** The second loop, over [i = 1 .. size - 1]: [prev] is [dies[i - 1]] and
    [rest] holds [dies[i]] onwards. *)
Fixpoint relink_dies (h : die_heap) (prev : die_ptr) (rest : list die_ptr) (conflict : bool)
    : option (die_heap * bool) :=
  match rest with
  | [] => Some (h, conflict)
  | cur :: rest' =>
      let h1 := alter (fun d => die_set_next d (Some cur)) prev h in
      match h1 !! prev, h1 !! cur with
      | Some dp, Some dc =>
          let conflict' :=
            if negb conflict
            then negb (_fatal_attribute_hash dp =? _fatal_attribute_hash dc)
            else conflict in
          relink_dies h1 cur rest' conflict'
      | _, _ => None
      end
  end.

(** [enforce_odrv_for_die_list]: the heap, the head returned and the results
    vector afterwards. *)
Definition enforce_odrv_for_die_list (fuel : nat) (h : die_heap) (base : option die_ptr)
    (results : list odrv_report) : option (die_heap * option die_ptr * list odrv_report) :=
  match collect_dies fuel h base with
  | None => None
  | Some [] => None
  | Some [_] => Some (h, base, results)
  | Some dies =>
      match std_sort (die_ancestry_lt h) dies with
      | None => None
      | Some [] => None
      | Some (front :: rest) =>
          match relink_dies h front rest false with
          | None => None
          | Some (h1, conflict) =>
              let back := List.last rest front in
              let h2 := alter (fun d => die_set_next d None) back h1 in
              if negb conflict then Some (h2, Some front, results)
              else
                let h3 := alter (fun d => die_set_conflict d true) front h2 in
                match base with
                | None => None
                | Some b =>
                    match h3 !! b with
                    | None => None
                    | Some bd =>
                        match view (_path bd) with
                        | None => None
                        | Some path =>
                            match odrv_report_make fuel h3 (path_to_symbol path) front with
                            | Some report => Some (h3, Some front, results ++ [report])
                            | None => None
                            end
                        end
                    end
                end
          end
      end
  end.

End Analyzer.

(** ** The registry *)

(** The registry of [orc.cpp]: the DIE storage behind
    [unsafe_global_die_collection], [global_die_map] (from a symbol hash to
    the head of its chain), and the counters of [globals] that [register_dies]
    advances. *)
Record registry := {
  reg_heap : die_heap;
  reg_map : gmap Z die_ptr;
  _die_processed_count : Z;
  _unique_symbol_count : Z;
  _die_analyzed_count : Z
}.






(** [orc_reset]. *)
Definition orc_reset (st : registry) : registry :=
  {| reg_heap := ∅; reg_map := ∅; _die_processed_count := _die_processed_count st;
     _unique_symbol_count := _unique_symbol_count st;
     _die_analyzed_count := _die_analyzed_count st |}.

(* ===================================================================== *)
(** * The vocabulary of the properties *)
(* ===================================================================== *)

(** A registry chain: the DIEs reached from a pointer through [_next_die],
    up to the null pointer. *)
Inductive chain (h : die_heap) : option die_ptr -> list die_ptr -> Prop :=
| chain_nil : chain h None []
| chain_cons p d l :
    h !! p = Some d -> chain h (_next_die d) l -> chain h (Some p) (p :: l).

(** A DIE without the two fields the analysis writes. *)
Definition die_core (d : die) : die := die_set_conflict (die_set_next d None) false.

(** Two heaps that differ at most in [_next_die] and [_conflict] fields. *)
Definition same_cores (h h' : die_heap) : Prop :=
  forall q, die_core <$> h' !! q = die_core <$> h !! q.

(** The fatal hash and the conflict flag behind a pointer. *)
Definition die_fatal_hash (h : die_heap) (p : die_ptr) : Z :=
  from_option _fatal_attribute_hash 0 (h !! p).

Definition die_conflict (h : die_heap) (p : option die_ptr) : bool :=
  match p with
  | Some q => from_option _conflict false (h !! q)
  | None => false
  end.

(** Some two members of the list have different fatal hashes. *)
Definition hashes_differ (h : die_heap) (l : list die_ptr) : Prop :=
  exists a b, a ∈ l /\ b ∈ l /\ die_fatal_hash h a <> die_fatal_hash h b.

(** Some two neighbours of the list have different fatal hashes. *)
Fixpoint adjacent_differ (h : die_heap) (prev : die_ptr) (rest : list die_ptr) : bool :=
  match rest with
  | [] => false
  | cur :: rest' =>
      negb (die_fatal_hash h prev =? die_fatal_hash h cur) || adjacent_differ h cur rest'
  end.

(** Every member but the last points to the next one. *)
Fixpoint linked (h : die_heap) (prev : die_ptr) (rest : list die_ptr) : Prop :=
  match rest with
  | [] => True
  | cur :: rest' =>
      (exists d, h !! prev = Some d /\ _next_die d = Some cur) /\ linked h cur rest'
  end.

(** A vector of strings in the order [std::sort] leaves it in. *)
Definition strings_sorted (c : list string) : Prop :=
  StronglySorted (fun a b => String.ltb b a = false) c.

(** The contract of the comparator of [std::sort] on the elements of the
    vector: it returns on every pair of them, and it is a strict weak ordering
    there (irreflexive, transitive, with a transitive incomparability). *)
Definition comparator_contract {A} (lt : A -> A -> option bool) (l : list A) : Prop :=
  (forall a b, a ∈ l -> b ∈ l -> is_Some (lt a b)) /\
  (forall a, a ∈ l -> lt a a = Some false) /\
  (forall a b c, a ∈ l -> b ∈ l -> c ∈ l ->
     lt a b = Some true -> lt b c = Some true -> lt a c = Some true) /\
  (forall a b c, a ∈ l -> b ∈ l -> c ∈ l ->
     lt a b = Some false -> lt b a = Some false ->
     lt b c = Some false -> lt c b = Some false ->
     lt a c = Some false /\ lt c a = Some false).

(** The contract of [std::sort]: given such a comparator, it returns a
    permutation of the vector in which no element is less than an earlier
    one. Nothing is said of a comparator that breaks its contract. *)
Definition sort_contract
    (sort : (die_ptr -> die_ptr -> option bool) -> list die_ptr -> option (list die_ptr))
    : Prop :=
  forall lt l, comparator_contract lt l ->
    exists s, sort lt l = Some s /\
      s ≡ₚ l /\ StronglySorted (fun a b => lt b a = Some false) s.

(** The names of an ancestry can be read: each of the first [_count] slots is
    a slot of the array, and its handle has a view. *)
Definition ancestry_readable (mem : arena_t) (x : object_ancestry) : Prop :=
  forall j : nat, (j < Z.to_nat (_count x))%nat ->
    exists px v, _ancestors x !! j = Some px /\ view mem px = Some v.


(** The reader is valid, its next bytes are [bs], and it is still valid when
    it has read them all. *)
Definition freader_window_holds (s : freader) (bs : list byte) : Prop :=
  filebuf_bool (_filebuf s) = true /\
  0 <= _f s /\
  _f s <= _p s /\
  _p s + Z.of_nat (List.length bs) <= _l s /\
  _l s < 2 ^ 64 /\
  filebuf_bytes (_filebuf s) (_p s) (List.length bs) = Some bs.

(** The bytes [pool::empool] writes for the block it returns at offset
    [off]: the prefix before the pointer, then the characters and the NUL. *)
Definition block_first (off : Z) : Z := off - prefix_k.
Definition block_end (off : Z) (b : block) : Z := off + b_size b + 1.

(** The layout of the pool of index [i]: [_p] and [_n] split the current
    pond, every pond has at least the default size, every block lies inside
    its pond (before [_p] in the current one), and no two blocks overlap. *)
Definition pool_layout_ok (i : nat) (pl : pool) (mem : arena_t) : Prop :=
  match pool_p pl with
  | None => pool_n pl = 0 /\ pool_ponds pl = []
  | Some (cp, coff) =>
      S cp = List.length (pool_ponds pl) /\ 0 <= coff /\ 0 <= pool_n pl /\
      pool_ponds pl !! cp = Some (coff + pool_n pl)
  end /\
  (forall cap, cap ∈ pool_ponds pl -> default_min_k <= cap) /\
  (forall pond off b, mem !! (i, pond, off) = Some b ->
     exists cap, pool_ponds pl !! pond = Some cap /\
       0 <= block_first off /\ block_end off b <= cap /\
       (forall coff, pool_p pl = Some (pond, coff) -> block_end off b <= coff)) /\
  (forall pond off1 off2 b1 b2,
     mem !! (i, pond, off1) = Some b1 -> mem !! (i, pond, off2) = Some b2 -> off1 <> off2 ->
     block_end off1 b1 <= block_first off2 \/ block_end off2 b2 <= block_first off1).

(** The layout of the whole arena. *)
Definition arena_layout_ok (st : pool_state) : Prop :=
  (forall i pond off b, arena st !! (i, pond, off) = Some b ->
     is_Some (pools st !! i) /\ b_size b = Z.of_nat (String.length (b_bytes b))) /\
  (forall i pl, pools st !! i = Some pl -> pool_layout_ok i pl (arena st)).

Section StringPoolSteps.

Variable murmur3_64 : string -> Z.

(** The states that follow a state: any number of calls of [empool] that
    return. *)
Inductive pool_extends : pool_state -> pool_state -> Prop :=
| extends_refl st : pool_extends st st
| extends_empool st st1 src ps st2 :
    pool_extends st st1 -> fits_uint32 src -> empool murmur3_64 st1 src = Some (ps, st2) ->
    pool_extends st st2.

End StringPoolSteps.





(* ===================================================================== *)
(** * Concrete inputs *)
(* ===================================================================== *)

(** A ten-byte file mapped at address 4096, read up to position 4. *)
Definition reader_at_4 : freader :=
  set_p (freader_open [x00; x01; x02; x03; x04; x05; x06; x07; x08; x09] 4096) 4100.

(** An eight-byte file mapped at address 8192, read up to position 2. *)
Definition reader_at_2 : freader :=
  set_p (freader_open [x01; x02; x03; x04; x05; x06; x07; x08] 8192) 8194.

(** A Mach-O header: the magic and the cputype, both little-endian. *)
Definition macho_header (magic cputype : list byte) : freader :=
  freader_open (magic ++ cputype) 4096.

(** The architecture [detect_file] reports and the lines it writes. *)
Definition detected_arch (s : freader) : option (arch * list string) :=
  option_map (fun x => (_arch (fst (fst x)), snd (fst x))) (detect_file s).

(** One sort that meets the contract of [std::sort] (a permutation, in
    ascending order of the comparator): insertion, to run the analysis on the
    chains below. *)
Fixpoint insert_sorted (lt : die_ptr -> die_ptr -> option bool) (x : die_ptr)
    (l : list die_ptr) : option (list die_ptr) :=
  match l with
  | [] => Some [x]
  | y :: t =>
      match lt x y with
      | Some true => Some (x :: l)
      | Some false =>
          match insert_sorted lt x t with
          | Some t' => Some (y :: t')
          | None => None
          end
      | None => None
      end
  end.

Fixpoint insertion_sort (lt : die_ptr -> die_ptr -> option bool) (l : list die_ptr)
    : option (list die_ptr) :=
  match l with
  | [] => Some []
  | x :: t =>
      match insertion_sort lt t with
      | Some s => insert_sorted lt x s
      | None => None
      end
  end.

(** Modelled from the spec: the table of [nonfatal_attribute] is outside the
    sources; these are the attributes section 4.D names as nonfatal, by their
    DWARF codes: location, low_pc, high_pc, decl_column, decl_file, decl_line
    and ranges. DW_AT_type is fatal (scenario 2 of section 8 reports
    [subprogram:type]). *)
Definition nonfatal_attribute_spec (name : Z) : bool :=
  Z_in name [0x02; 0x11; 0x12; 0x39; 0x3a; 0x3b; 0x55].

(** An attribute that holds an unsigned constant. *)
Definition uint_attribute (name form x : Z) : attribute :=
  {| _name := name; _form := form;
     _value := {| av_type := type_uint; av_uint := x; av_int := 0;
                  av_string := None; av_die := None |} |}.

(** A sequence with DW_AT_type twice (form data1), with different values, and
    one with each name once: decl_line, type, byte_size. *)
Definition twice_typed : attribute_sequence :=
  [uint_attribute at_type 0x0b 1; uint_attribute at_type 0x0b 2].

Definition once_each : attribute_sequence :=
  [uint_attribute 0x3b 0x0b 7; uint_attribute at_type 0x0b 1; uint_attribute 0x0b 0x0b 4].

(** Two object files [a.o] and [b.o] that define the symbol [foo]: the arena
    with the three names, the ancestry of each file, and the chain of the two
    DIEs as registration left it ([b.o] first), with different fatal hashes. *)
Definition name_a : arena_ptr := (0%nat, 0%nat, 12).
Definition name_b : arena_ptr := (1%nat, 0%nat, 12).
Definition name_foo : arena_ptr := (2%nat, 0%nat, 12).

Definition two_objects_mem : arena_t :=
  <[name_a := {| b_size := 3; b_hash := 101; b_bytes := "a.o" |}]>
  (<[name_b := {| b_size := 3; b_hash := 102; b_bytes := "b.o" |}]>
  (<[name_foo := {| b_size := 10; b_hash := 103; b_bytes := "::[u]::foo" |}]> ∅)).

Definition two_objects_ancestry (ofd_index : Z) : object_ancestry :=
  {| _ancestors := [Some (if ofd_index =? 0 then name_a else name_b); None; None; None; None];
     _count := 1 |}.

Definition foo_die (ofd_index offset fatal : Z) (next : option die_ptr) : die :=
  {| _path := Some name_foo; _next_die := next; _hash := 77;
     _fatal_attribute_hash := fatal; _ofd_index := ofd_index;
     _debug_info_offset := offset; _tag := 0x2e; die_arch := arch_arm64;
     _has_children := false; _conflict := false; _skippable := false |}.

Definition two_objects_heap : die_heap :=
  <[1%positive := foo_die 1 0x2a 10 (Some 2%positive)]>
  (<[2%positive := foo_die 0 0x2a 20 None]> ∅).

Definition two_objects_fetch (ofd_index offset : Z) : die * attribute_sequence :=
  (foo_die ofd_index offset 0 None, [uint_attribute at_type 0x0b ofd_index]).

(** The names of the tag and of the attribute of the category
    [subprogram:type], a report of that category, and settings that ignore it. *)
Definition tag_names (tag : Z) : string :=
  if tag =? 0x2e then "subprogram"%string else "tag"%string.

Definition at_names (name : Z) : string :=
  if name =? at_type then "type"%string else "at"%string.

Definition foo_report : odrv_report :=
  {| _symbol := "foo"; _list_head := 2%positive;
     _conflict_map := [(10, {| cd_die := 1%positive; cd_attributes := [] |});
                       (20, {| cd_die := 2%positive; cd_attributes := [] |})];
     odrv_name := at_type |}.

Definition ignore_subprogram_type : settings :=
  {| _violation_ignore := ["subprogram:type"%string];
     _violation_report := ["structure_type:member"%string] |}.

(** A hash to run the pool with: the length of the string. *)
Definition length_hash (s : string) : Z := Z.of_nat (String.length s).

(** The first bytes of an archive ([!<arch>] and a newline), a big-endian
    64-bit Mach-O header for arm64, an ELF magic number, the C string [AB]
    followed by one more byte, and a six-byte SLEB128 encoding, each in a
    file mapped at address 4096. *)
Definition archive_reader : freader :=
  freader_open [x21; x3c; x61; x72; x63; x68; x3e; x0a] 4096.

Definition swapped_macho_reader : freader :=
  freader_open [xfe; xed; xfa; xcf; x01; x00; x00; x0c] 4096.

Definition elf_reader : freader := freader_open [x7f; x45; x4c; x46] 4096.

Definition c_string_reader : freader := freader_open [x41; x42; x00; x43] 4096.

Definition padded_sleb_reader : freader :=
  freader_open [x80; x80; x80; x80; xf8; x7f] 4096.

(** A string of 100000 characters. *)
Definition long_string : string :=
  string_of_list_ascii (repeat "a"%char (Z.to_nat 100000)).




(** The chain of [foo] with the conflict flag of its head set. *)
Definition flagged_heap : die_heap :=
  alter (fun d => die_set_conflict d true) 1%positive two_objects_heap.

(** The readers of the formats, for a run of [parse_file] that does not
    reach them. *)
Definition no_reader (_ : object_ancestry) (_ : parse_state) (_ : Z) (_ : file_details)
    (_ : unit) : outcome unit :=
  aborted.

(* ===================================================================== *)
(** * Properties of the reader *)
(* ===================================================================== *)

Lemma size_t_idemp_add_l a b : size_t (size_t a + b) = size_t (a + b).
Proof. unfold size_t, wrap. apply Zplus_mod_idemp_l. Qed.

Lemma size_t_idemp_sub_l a b : size_t (size_t a - b) = size_t (a - b).
Proof. unfold size_t, wrap. apply Zminus_mod_idemp_l. Qed.

Lemma size_t_idemp_sub_r a b : size_t (a - size_t b) = size_t (a - b).
Proof. unfold size_t, wrap. apply Zminus_mod_idemp_r. Qed.

Lemma size_t_idemp a : size_t (size_t a) = size_t a.
Proof. unfold size_t, wrap. apply Z.mod_mod. lia. Qed.

Lemma size_t_small a : 0 <= a < 2 ^ 64 -> size_t a = a.
Proof. intros H. unfold size_t, wrap. apply Z.mod_small. exact H. Qed.

Lemma size_t_eq_iff a b : size_t a = size_t b <-> size_t (a - b) = 0.
Proof. unfold size_t, wrap. apply Z.cong_iff_0. Qed.

Lemma size_t_range a : 0 <= size_t a < 2 ^ 64.
Proof. unfold size_t, wrap. apply Z.mod_pos_bound. lia. Qed.

Lemma size_t_opp_zero t : 0 <= t < 2 ^ 64 -> size_t (0 - t) = 0 <-> t = 0.
Proof.
  intros Ht. split.
  - intros H. unfold size_t, wrap in H.
    apply Z.mod_divide in H; [|lia]. destruct H as [k Hk]. nia.
  - intros ->. reflexivity.
Qed.

(** After an end-relative seek the position is the number of bytes that were
    left, less the offset. *)
Lemma seekg_end_tellg r offset r' :
  freader_seekg_dir r offset ios_end = Some r' ->
  freader_tellg r' = size_t (freader_size r - offset).
Proof.
  unfold freader_seekg_dir. destruct (freader_bool r); [|discriminate].
  intros [= <-]. unfold freader_tellg, set_p; simpl.
  rewrite size_t_idemp_sub_l.
  replace (_f r + size_t (freader_size r - offset) - _f r)
    with (size_t (freader_size r - offset)) by lia.
  apply size_t_idemp.
Qed.

(** C10 (as amended). An end-relative seek depends on the current position:
    [seekg(offset, std::ios::end)] on a valid reader sets the position to the
    bytes remaining less [offset], counted from the start of the window, that
    is to window size - current position - offset; it is window size - offset
    exactly when the reader stood at position 0. *)
Theorem seekg_end_depends_on_position (r : freader) (offset : Z) :
  freader_bool r = true ->
  exists r', freader_seekg_dir r offset ios_end = Some r' /\
    freader_tellg r' = size_t (freader_size r - offset) /\
    freader_tellg r' = size_t (freader_window r - freader_tellg r - offset) /\
    (freader_tellg r' = size_t (freader_window r - offset) <-> freader_tellg r = 0).
Proof.
  intros Hok.
  assert (Hs : freader_seekg_dir r offset ios_end
               = Some (set_p r (size_t (_f r + size_t (freader_size r - offset))))).
  { unfold freader_seekg_dir. now rewrite Hok. }
  eexists. split; [exact Hs|].
  pose proof (seekg_end_tellg _ _ _ Hs) as Ht.
  assert (Hpos : size_t (freader_size r - offset)
                 = size_t (freader_window r - freader_tellg r - offset)).
  { unfold freader_size, freader_window, freader_tellg.
    rewrite size_t_idemp_sub_l.
    replace (size_t (_l r - _f r) - size_t (_p r - _f r) - offset)
      with (size_t (_l r - _f r) - offset - size_t (_p r - _f r)) by lia.
    rewrite size_t_idemp_sub_r.
    replace (size_t (_l r - _f r) - offset - (_p r - _f r))
      with (size_t (_l r - _f r) - (offset + (_p r - _f r))) by lia.
    rewrite size_t_idemp_sub_l. f_equal. lia. }
  split; [exact Ht|]. split; [now rewrite Ht|].
  rewrite Ht, Hpos. rewrite size_t_eq_iff.
  replace (freader_window r - freader_tellg r - offset - (freader_window r - offset))
    with (0 - freader_tellg r) by lia.
  apply size_t_opp_zero. apply size_t_range.
Qed.

Lemma seekg_end_depends_on_position_witness :
  exists r', freader_seekg_dir reader_at_4 1 ios_end = Some r' /\
    freader_tellg r' = size_t (freader_size reader_at_4 - 1) /\
    freader_tellg r' = size_t (freader_window reader_at_4 - freader_tellg reader_at_4 - 1) /\
    (freader_tellg r' = size_t (freader_window reader_at_4 - 1)
     <-> freader_tellg reader_at_4 = 0).
Proof. apply (seekg_end_depends_on_position reader_at_4 1). reflexivity. Defined.

(** C10 (as stated) fails: with four of ten bytes read, [seekg(1, end)] lands
    at position 5, not at current position + (remaining - offset) = 9. *)
Lemma seekg_end_not_current_plus_remaining :
  exists r', freader_seekg_dir reader_at_4 1 ios_end = Some r' /\
    freader_tellg r' = 5 /\
    freader_tellg reader_at_4 + (freader_size reader_at_4 - 1) = 9.
Proof. eexists. split; [reflexivity|]. split; reflexivity. Qed.

(** The size of what [subbuf] returns is [end_pos], whatever the position. *)
Lemma subbuf_size r page_size addr end_pos r' :
  freader_subbuf r page_size addr end_pos = Some r' ->
  freader_size r' = size_t end_pos.
Proof.
  unfold freader_subbuf.
  destruct (filebuf_remmap _ _ _ _ _); [|discriminate].
  intros [= <-]. unfold freader_size; simpl.
  rewrite size_t_idemp_sub_l, size_t_idemp_sub_r.
  replace (_f r + size_t (end_pos - (_p r - _f r)) - (_f r - (_p r - _f r)))
    with (size_t (end_pos - (_p r - _f r)) + (_p r - _f r)) by lia.
  rewrite size_t_idemp_add_l. f_equal. lia.
Qed.

(** C7 (the code at the failing input). At position 2 of an eight-byte window,
    [subbuf(6)] (4096-byte pages, the new mapping at address 131072) returns a
    reader of size 6, not 4, whose [_p] is two bytes before the parent's
    mapping: its position is not 0 and its reads are outside its mapping,
    while the parent reads byte 3 there. *)
Theorem subbuf_window_is_not_tell_to_end :
  exists r', freader_subbuf reader_at_2 4096 131072 6 = Some r' /\
    freader_size r' = 6 /\
    _p r' = _f reader_at_2 - 2 /\
    freader_tellg r' = size_t (8190 - 131072) /\
    freader_get r' = None /\
    option_map fst (freader_get reader_at_2) = Some x03.
Proof. eexists. split; [reflexivity|]. repeat split; reflexivity. Qed.

(* ===================================================================== *)
(** * Properties of file detection *)
(* ===================================================================== *)

(** The cputypes whose branch stores the like-named architecture, and the
    warning for a cputype of no branch. *)
Lemma detect_file_like_named :
  detected_arch (macho_header [xce; xfa; xed; xfe] [x07; x00; x00; x00])
    = Some (arch_x86, []) /\
  detected_arch (macho_header [xcf; xfa; xed; xfe] [x07; x00; x00; x01])
    = Some (arch_x86_64, []) /\
  detected_arch (macho_header [xce; xfa; xed; xfe] [x0c; x00; x00; x00])
    = Some (arch_arm, []) /\
  detected_arch (macho_header [xcf; xfa; xed; xfe] [x0c; x00; x00; x01])
    = Some (arch_arm64, []) /\
  detected_arch (macho_header [xce; xfa; xed; xfe] [x12; x00; x00; x00])
    = Some (arch_unknown, ["WARN: Unknown Mach-O cputype"%string]).
Proof. repeat split; reflexivity. Qed.

(** C4 (the code at the failing input). A 32-bit Mach-O header whose cputype
    is [CPU_TYPE_ARM64_32] (12 | ABI64_32) is detected as [arch::arm64],
    without a warning: the branch of [arm64_32] stores [arm64]. *)
Theorem detect_file_arm64_32_is_arm64 :
  uint32_of_bytes [x0c; x00; x00; x02] = CPU_TYPE_ARM64_32 /\
  detected_arch (macho_header [xce; xfa; xed; xfe] [x0c; x00; x00; x02])
    = Some (arch_arm64, []).
Proof. split; reflexivity. Qed.

(* ===================================================================== *)
(** * Properties of object ancestries *)
(* ===================================================================== *)

(** Up to four names: every assertion holds, the names fill the first slots
    and the other slots keep the null handle. *)
Lemma emplace_back_all_fresh (names : list pool_string) :
  (List.length names <= 4)%nat ->
  emplace_back_all object_ancestry_fresh names
  = Some {| _ancestors := names ++ replicate (5 - List.length names) None;
            _count := Z.of_nat (List.length names) |}.
Proof.
  intros H.
  destruct names as [|a [|b [|c [|d [|e rest]]]]]; try reflexivity.
  simpl in H. lia.
Qed.

(** Up to four calls of [emplace_back] on a fresh ancestry: every assertion
    holds, the count is the number of names, and the names are the first
    slots of the array, in order. *)
Theorem emplace_back_up_to_four (names : list pool_string) :
  (List.length names <= 4)%nat ->
  exists o, emplace_back_all object_ancestry_fresh names = Some o /\
    _count o = Z.of_nat (List.length names) /\
    take (List.length names) (_ancestors o) = names /\
    List.length (_ancestors o) = 5%nat.
Proof.
  intros H. eexists. split; [apply emplace_back_all_fresh; exact H|]. simpl.
  split; [reflexivity|]. split.
  - now rewrite take_app_length.
  - rewrite length_app, length_replicate. lia.
Qed.

(** C8 (the code at the failing input). Whatever the names, the fifth
    [emplace_back] on a fresh ancestry fails its assertion
    [(_count + 1) < _ancestors.size()]: four calls leave the count at 4, and
    4 + 1 < 5 is false, although the store would be to the last slot of the
    array. *)
Theorem emplace_back_fifth_assertion_fails (a b c d e : pool_string) :
  exists o4, emplace_back_all object_ancestry_fresh [a; b; c; d] = Some o4 /\
    _count o4 = 4 /\
    emplace_back_assertion o4 = false /\
    emplace_back_all object_ancestry_fresh [a; b; c; d; e] = None /\
    _ancestors (emplace_back_store o4 e) = [a; b; c; d; e] /\
    _count (emplace_back_store o4 e) = 5.
Proof. eexists. split; [reflexivity|]. repeat split; reflexivity. Qed.

(** C9. After [n] calls of [emplace_back] on a fresh ancestry, 1 <= n < 5,
    [back()] returns the slot at index [_count], which still holds the default
    (null) handle; the name appended last is in the slot at [_count - 1]. *)
Theorem back_returns_slot_past_last (names : list pool_string) :
  (1 <= List.length names < 5)%nat ->
  exists o, emplace_back_all object_ancestry_fresh names = Some o /\
    _count o = Z.of_nat (List.length names) /\
    object_ancestry_back o = _ancestors o !! List.length names /\
    object_ancestry_back o = Some None /\
    _ancestors o !! (List.length names - 1)%nat = last names.
Proof.
  intros H. eexists. split; [apply emplace_back_all_fresh; lia|].
  destruct names as [|a [|b [|c [|d [|e rest]]]]]; simpl in H; try lia;
    repeat split; reflexivity.
Qed.

Lemma back_returns_slot_past_last_witness :
  exists o,
    emplace_back_all object_ancestry_fresh [Some (0%nat, 0%nat, 12); Some (1%nat, 0%nat, 12)]
    = Some o /\
    _count o = 2 /\
    object_ancestry_back o = _ancestors o !! 2%nat /\
    object_ancestry_back o = Some None /\
    _ancestors o !! 1%nat = Some (Some (1%nat, 0%nat, 12)).
Proof.
  apply (back_returns_slot_past_last [Some (0%nat, 0%nat, 12); Some (1%nat, 0%nat, 12)]).
  simpl. lia.
Defined.

(* ===================================================================== *)
(** * Properties of LEB128 decoding *)
(* ===================================================================== *)

(** A value below [2 ^ s] and a multiple of [2 ^ s] share no bit. *)
Lemma lor_low_high a y s :
  0 <= s -> 0 <= a < 2 ^ s -> Z.lor a (y * 2 ^ s) = a + y * 2 ^ s.
Proof.
  intros Hs Ha.
  assert (Hd : Z.land a (y * 2 ^ s) = 0).
  { apply Z.bits_inj'. intros n Hn.
    rewrite Z.land_spec, Z.bits_0.
    destruct (Z.lt_ge_cases n s) as [Hlt|Hge].
    - rewrite Z.mul_pow2_bits_low by lia. apply andb_false_r.
    - replace a with (a mod 2 ^ s) by (apply Z.mod_small; lia).
      rewrite Z.mod_pow2_bits_high by lia. reflexivity. }
  rewrite <- Z.lxor_lor by exact Hd.
  symmetry. apply Z.add_nocarry_lxor. exact Hd.
Qed.

(** The masks of the decoders see the same bits through a signed [char]. *)
Lemma char_land_7f b : Z.land (char_of_byte b) 0x7f = Z.land (byte_to_Z b) 0x7f.
Proof. destruct b; reflexivity. Qed.

Lemma char_land_80 b : (Z.land (char_of_byte b) 0x80 =? 0) = (Z.land (byte_to_Z b) 0x80 =? 0).
Proof. destruct b; reflexivity. Qed.

Lemma char_land_40 b : (Z.land (char_of_byte b) 0x40 =? 0) = (Z.land (byte_to_Z b) 0x40 =? 0).
Proof. destruct b; reflexivity. Qed.

Lemma group_range b : 0 <= Z.land (byte_to_Z b) 0x7f < 128.
Proof. destruct b; cbv; split; congruence. Qed.

Lemma leb_groups_value_range bs :
  0 <= leb_groups_value bs < 2 ^ (7 * Z.of_nat (List.length bs)).
Proof.
  induction bs as [|b t IH]; simpl leb_groups_value.
  - simpl. lia.
  - pose proof (group_range b) as Hg.
    replace (7 * Z.of_nat (List.length (b :: t))) with (7 + 7 * Z.of_nat (List.length t))
      by (simpl List.length; lia).
    rewrite Z.pow_add_r by lia. change (2 ^ 7) with 128. nia.
Qed.

(** Reading one byte of what the reader holds. *)
Lemma freader_holds_get s b t :
  freader_holds s (b :: t) ->
  freader_get s = Some (b, set_p s (_p s + 1)) /\
  (t <> [] -> freader_holds (set_p s (_p s + 1)) t).
Proof.
  intros (Hfb & Hp & Hl & Hmax & Hbytes).
  simpl List.length in *. simpl filebuf_bytes in Hbytes.
  destruct (filebuf_deref (_filebuf s) (_p s)) as [c|] eqn:Hc; [|discriminate].
  destruct (filebuf_bytes (_filebuf s) (_p s + 1) (List.length t)) as [cs|] eqn:Hcs;
    [|discriminate].
  injection Hbytes as -> ->.
  split.
  - unfold freader_get, freader_bool. rewrite Hfb, Hc.
    replace (_p s <=? _l s) with true by (symmetry; apply Z.leb_le; lia).
    simpl. rewrite size_t_small by lia. reflexivity.
  - intros Hne. unfold freader_holds, set_p; simpl.
    repeat split; try assumption; try lia.
Qed.

(** The bytes the reader holds are inside its mapping, so the fuel of a
    decoding loop covers them. *)
Lemma filebuf_bytes_in_mapping fb a n bs mb :
  _buffer fb = Some mb -> filebuf_bytes fb a n = Some bs ->
  n = 0%nat \/ a + Z.of_nat n <= mb_base mb + mb_len mb.
Proof.
  intros Hmb. revert a bs. induction n as [|n IH]; intros a bs H; [now left|right].
  simpl in H.
  destruct (filebuf_deref fb a) as [c|] eqn:Hc; [|discriminate].
  destruct (filebuf_bytes fb (a + 1) n) as [cs|] eqn:Hcs; [|discriminate].
  destruct (IH _ _ Hcs) as [->|Hle]; [|lia].
  unfold filebuf_deref in Hc. rewrite Hmb in Hc.
  destruct (_descriptor fb); [|discriminate].
  destruct ((mb_base mb <=? a) && (a <? mb_base mb + mb_len mb)) eqn:Hin; [|discriminate].
  apply andb_true_iff in Hin as [_ Hlt]. apply Z.ltb_lt in Hlt. lia.
Qed.

Lemma freader_holds_fuel s bs : freader_holds s bs -> (List.length bs < freader_fuel s)%nat.
Proof.
  intros (Hfb & Hp & Hl & Hmax & Hbytes).
  unfold freader_fuel. unfold filebuf_bool in Hfb.
  destruct (_descriptor (_filebuf s)); [|discriminate].
  destruct (_buffer (_filebuf s)) as [mb|] eqn:Hmb; [|discriminate].
  destruct (filebuf_bytes_in_mapping _ _ _ _ _ Hmb Hbytes) as [H0|Hle]; lia.
Qed.

(** A group shifted into a 32-bit word keeps its low [32 - s] bits. *)
Lemma wrap32_shifted g s :
  0 <= s < 32 -> wrap 32 (g * 2 ^ s) = (g mod 2 ^ (32 - s)) * 2 ^ s.
Proof.
  intros Hs. unfold wrap.
  replace (2 ^ 32) with (2 ^ (32 - s) * 2 ^ s)
    by (rewrite <- Z.pow_add_r by lia; f_equal; lia).
  apply Z.mul_mod_distr_r; apply Z.pow_nonzero; lia.
Qed.

Lemma wrap32_low_plus_shifted A g s :
  0 <= s < 32 -> 0 <= A < 2 ^ s ->
  wrap 32 (A + g * 2 ^ s) = A + (g mod 2 ^ (32 - s)) * 2 ^ s.
Proof.
  intros Hs HA. unfold wrap. symmetry.
  assert (HP : 0 < 2 ^ s) by (apply Z.pow_pos_nonneg; lia).
  assert (HM : 0 < 2 ^ (32 - s)) by (apply Z.pow_pos_nonneg; lia).
  assert (H32 : 2 ^ 32 = 2 ^ (32 - s) * 2 ^ s)
    by (rewrite <- Z.pow_add_r by lia; f_equal; lia).
  pose proof (Z.mod_pos_bound g (2 ^ (32 - s)) HM) as Hy.
  pose proof (Z.div_mod g (2 ^ (32 - s)) ltac:(lia)) as Hg.
  apply (Z.mod_unique _ _ (g / 2 ^ (32 - s))).
  - left. rewrite H32. nia.
  - rewrite H32. nia.
Qed.

(** One iteration of [uleb128] on the accumulated value. *)
Lemma uleb128_step A g k :
  0 <= k -> 0 <= A < 2 ^ (7 * k) -> 0 <= g < 128 ->
  (if 7 * k <? 32
   then Z.lor (uint32_t A) (uint32_t (Z.shiftl g (7 * k)))
   else uint32_t A)
  = uint32_t (A + g * 2 ^ (7 * k)).
Proof.
  intros Hk HA Hg. destruct (7 * k <? 32) eqn:Hlt.
  - apply Z.ltb_lt in Hlt. unfold uint32_t.
    rewrite Z.shiftl_mul_pow2 by lia.
    rewrite wrap32_shifted, wrap32_low_plus_shifted by lia.
    assert (2 ^ (7 * k) <= 2 ^ 32) by (apply Z.pow_le_mono_r; lia).
    unfold wrap at 1. rewrite Z.mod_small by lia.
    apply lor_low_high; lia.
  - apply Z.ltb_ge in Hlt. unfold uint32_t, wrap.
    replace (2 ^ (7 * k)) with (2 ^ (7 * k - 32) * 2 ^ 32)
      by (rewrite <- Z.pow_add_r by lia; f_equal; lia).
    rewrite Z.mul_assoc. now rewrite Z_mod_plus_full.
Qed.

(** The loop of [uleb128] from the [k]-th group on: [A] is the value of the
    groups already read. *)
Lemma uleb128_loop_value bs : forall fuel s A k,
  leb_wf bs = true -> freader_holds s bs -> (List.length bs <= fuel)%nat ->
  0 <= k -> 7 * (k + Z.of_nat (List.length bs)) < 2 ^ 64 ->
  0 <= A < 2 ^ (7 * k) ->
  uleb128_loop fuel s (uint32_t A) (7 * k)
  = Some (uint32_t (A + 2 ^ (7 * k) * leb_groups_value bs),
          set_p s (_p s + Z.of_nat (List.length bs))).
Proof.
  induction bs as [|b t IH]; intros fuel s A k Hwf Hh Hfuel Hk Hlen HA; [discriminate|].
  destruct fuel as [|fuel]; [simpl in Hfuel; lia|].
  destruct (freader_holds_get _ _ _ Hh) as [Hget Hnext].
  pose proof (group_range b) as Hg.
  simpl uleb128_loop. rewrite Hget. rewrite char_land_7f, char_land_80.
  rewrite (uleb128_step A _ k Hk HA Hg).
  destruct t as [|b' t'].
  - simpl in Hwf. rewrite Hwf. simpl leb_groups_value. simpl List.length.
    do 3 f_equal. lia.
  - assert (Hwf' : negb (Z.land (byte_to_Z b) 128 =? 0) && leb_wf (b' :: t') = true)
      by exact Hwf.
    apply andb_true_iff in Hwf' as [Hb Ht]. apply negb_true_iff in Hb. rewrite Hb.
    simpl List.length in *.
    rewrite size_t_small by lia.
    replace (7 * k + 7) with (7 * (k + 1)) by lia.
    rewrite (IH fuel _ _ (k + 1) Ht (Hnext ltac:(discriminate))); try lia.
    + unfold set_p; simpl. f_equal. f_equal.
      * f_equal. change (leb_groups_value (b :: b' :: t'))
          with (Z.land (byte_to_Z b) 127 + 128 * leb_groups_value (b' :: t')).
        replace (7 * (k + 1)) with (7 * k + 7) by lia.
        rewrite Z.pow_add_r by lia. change (2 ^ 7) with 128. ring.
      * f_equal. lia.
    + replace (7 * (k + 1)) with (7 * k + 7) by lia.
      rewrite Z.pow_add_r by lia. change (2 ^ 7) with 128. nia.
Qed.

(** ULEB128 decoding inverts encoding on 32-bit values: whatever encoding of
    [v] the reader holds, padded or not, [uleb128] returns [v] and leaves the
    reader just after the encoding. *)
Theorem uleb128_decodes (s : freader) (bs : list byte) (v : Z) :
  0 <= v < 2 ^ 32 -> uleb128_encodes bs v -> freader_holds s bs ->
  7 * Z.of_nat (List.length bs) < 2 ^ 64 ->
  uleb128 s = Some (v, set_p s (_p s + Z.of_nat (List.length bs))).
Proof.
  intros Hv [Hwf Hval] Hh Hlen. unfold uleb128.
  pose proof (freader_holds_fuel _ _ Hh) as Hfuel.
  change (uleb128_loop (freader_fuel s) s 0 0)
    with (uleb128_loop (freader_fuel s) s (uint32_t 0) (7 * 0)).
  rewrite (uleb128_loop_value bs _ s 0 0 Hwf Hh) by (simpl; lia).
  rewrite Hval. do 2 f_equal. unfold uint32_t, wrap.
  change (2 ^ (7 * 0)) with 1. rewrite Z.mod_small by lia. lia.
Qed.

Lemma int32_t_small v : - 2 ^ 31 <= v < 2 ^ 31 -> int32_t v = v.
Proof.
  intros Hv. unfold int32_t, swrap, wrap.
  change (2 ^ (32 - 1)) with 2147483648. change (2 ^ 32) with 4294967296.
  change (2 ^ 31) with 2147483648 in Hv.
  destruct (v mod 4294967296 <? 2147483648) eqn:Hlt;
    [apply Z.ltb_lt in Hlt|apply Z.ltb_ge in Hlt];
    Z.div_mod_to_equations; lia.
Qed.

Lemma int32_t_plus_multiple v q : int32_t (v + q * 2 ^ 32) = int32_t v.
Proof. unfold int32_t, swrap, wrap. now rewrite Z_mod_plus_full. Qed.

(** One iteration of [sleb128] on the accumulated value, while the shift is
    defined. *)
Lemma sleb128_step A g k :
  0 <= k -> 7 * k < 32 -> 0 <= A < 2 ^ (7 * k) ->
  int_shl g (7 * k) = Some (int32_t (g * 2 ^ (7 * k))) /\
  Z.lor A (int32_t (g * 2 ^ (7 * k))) = int32_t (A + g * 2 ^ (7 * k)).
Proof.
  intros Hk Hlt HA. split.
  - unfold int_shl. replace (7 * k <? 32) with true by (symmetry; apply Z.ltb_lt; lia).
    now rewrite Z.shiftl_mul_pow2 by lia.
  - unfold int32_t, swrap.
    rewrite wrap32_shifted, wrap32_low_plus_shifted by lia.
    set (s := 7 * k) in *. set (y := g mod 2 ^ (32 - s)).
    assert (HP : 0 < 2 ^ s) by (apply Z.pow_pos_nonneg; lia).
    assert (H31 : 2 ^ (32 - 1) = 2 ^ (31 - s) * 2 ^ s)
      by (rewrite <- Z.pow_add_r by lia; f_equal; lia).
    assert (H32 : 2 ^ 32 = 2 ^ (32 - s) * 2 ^ s)
      by (rewrite <- Z.pow_add_r by lia; f_equal; lia).
    assert (HH : 0 < 2 ^ (31 - s)) by (apply Z.pow_pos_nonneg; lia).
    assert (Hy : 0 <= y < 2 ^ (32 - s))
      by (apply Z.mod_pos_bound; apply Z.pow_pos_nonneg; lia).
    assert (Hiff : (y * 2 ^ s <? 2 ^ (32 - 1)) = (A + y * 2 ^ s <? 2 ^ (32 - 1))).
    { rewrite H31. destruct (y * 2 ^ s <? 2 ^ (31 - s) * 2 ^ s) eqn:E1;
        destruct (A + y * 2 ^ s <? 2 ^ (31 - s) * 2 ^ s) eqn:E2; try reflexivity;
        [apply Z.ltb_lt in E1; apply Z.ltb_ge in E2|apply Z.ltb_ge in E1; apply Z.ltb_lt in E2];
        exfalso; nia. }
    rewrite <- Hiff. destruct (y * 2 ^ s <? 2 ^ (32 - 1)).
    + apply lor_low_high; lia.
    + rewrite H32.
      replace (y * 2 ^ s - 2 ^ (32 - s) * 2 ^ s) with ((y - 2 ^ (32 - s)) * 2 ^ s) by ring.
      rewrite lor_low_high by lia. ring.
Qed.

Lemma leb_sign_cons b b' t : leb_sign (b :: b' :: t) = leb_sign (b' :: t).
Proof. reflexivity. Qed.

(** The loop of [sleb128] from the [k]-th group on, for encodings of at most
    five bytes: every shift is below 32. *)
Lemma sleb128_loop_value bs : forall fuel s A k,
  leb_wf bs = true -> freader_holds s bs -> (List.length bs <= fuel)%nat ->
  0 <= k -> k + Z.of_nat (List.length bs) <= 5 ->
  0 <= A < 2 ^ (7 * k) ->
  sleb128_loop fuel s (int32_t A) (7 * k)
  = Some (int32_t (A + 2 ^ (7 * k) * leb_groups_value bs),
          7 * (k + Z.of_nat (List.length bs)),
          leb_sign bs,
          set_p s (_p s + Z.of_nat (List.length bs))).
Proof.
  induction bs as [|b t IH]; intros fuel s A k Hwf Hh Hfuel Hk Hlen HA; [discriminate|].
  destruct fuel as [|fuel]; [simpl in Hfuel; lia|].
  destruct (freader_holds_get _ _ _ Hh) as [Hget Hnext].
  pose proof (group_range b) as Hg.
  simpl List.length in Hlen.
  assert (Hk4 : 7 * k < 32) by lia.
  assert (HA28 : 2 ^ (7 * k) <= 2 ^ 28) by (apply Z.pow_le_mono_r; lia).
  destruct (sleb128_step A (Z.land (byte_to_Z b) 127) k Hk Hk4 HA) as [Hshl Hlor].
  simpl sleb128_loop. rewrite Hget. rewrite char_land_7f, char_land_80, char_land_40.
  rewrite Hshl. rewrite (int32_t_small A) by (change (2 ^ 28) with 268435456 in HA28; lia).
  rewrite Hlor. rewrite size_t_small by lia.
  destruct t as [|b' t'].
  - simpl in Hwf. rewrite Hwf. simpl leb_groups_value. simpl List.length.
    unfold leb_sign; simpl last.
    replace (A + 2 ^ (7 * k) * (Z.land (byte_to_Z b) 127 + 128 * 0))
      with (A + Z.land (byte_to_Z b) 127 * 2 ^ (7 * k)) by ring.
    replace (7 * (k + Z.of_nat 1)) with (7 * k + 7) by lia.
    reflexivity.
  - assert (Hwf' : negb (Z.land (byte_to_Z b) 128 =? 0) && leb_wf (b' :: t') = true)
      by exact Hwf.
    apply andb_true_iff in Hwf' as [Hb Ht]. apply negb_true_iff in Hb. rewrite Hb.
    simpl List.length in *.
    replace (7 * k + 7) with (7 * (k + 1)) by lia.
    assert (HA' : 0 <= A + Z.land (byte_to_Z b) 127 * 2 ^ (7 * k) < 2 ^ (7 * (k + 1))).
    { replace (7 * (k + 1)) with (7 * k + 7) by lia.
      rewrite Z.pow_add_r by lia. change (2 ^ 7) with 128. nia. }
    rewrite (IH fuel _ _ (k + 1) Ht (Hnext ltac:(discriminate))); try lia.
    rewrite leb_sign_cons.
    assert (E : A + Z.land (byte_to_Z b) 127 * 2 ^ (7 * k)
                + 2 ^ (7 * (k + 1)) * leb_groups_value (b' :: t')
                = A + 2 ^ (7 * k) * leb_groups_value (b :: b' :: t')).
    { change (leb_groups_value (b :: b' :: t'))
        with (Z.land (byte_to_Z b) 127 + 128 * leb_groups_value (b' :: t')).
      replace (7 * (k + 1)) with (7 * k + 7) by lia.
      rewrite Z.pow_add_r by lia. change (2 ^ 7) with 128. ring. }
    rewrite E.
    replace (7 * (k + 1 + Z.of_nat (S (List.length t'))))
      with (7 * (k + Z.of_nat (S (S (List.length t'))))) by lia.
    unfold set_p; simpl _p; simpl _filebuf; simpl _f; simpl _l.
    replace (_p s + 1 + Z.of_nat (S (List.length t')))
      with (_p s + Z.of_nat (S (S (List.length t')))) by lia.
    reflexivity.
Qed.

(** SLEB128 decoding inverts encoding on 32-bit values for the encodings of
    at most five bytes (all the shifts of the loop are then below 32). *)
Theorem sleb128_decodes_up_to_five_bytes (s : freader) (bs : list byte) (v : Z) :
  - 2 ^ 31 <= v < 2 ^ 31 -> sleb128_encodes bs v -> (List.length bs <= 5)%nat ->
  freader_holds s bs ->
  sleb128 s = Some (v, set_p s (_p s + Z.of_nat (List.length bs))).
Proof.
  intros Hv [Hwf Hval] Hn Hh. unfold sleb128.
  pose proof (freader_holds_fuel _ _ Hh) as Hfuel.
  pose proof (leb_groups_value_range bs) as HV.
  change (sleb128_loop (freader_fuel s) s 0 0)
    with (sleb128_loop (freader_fuel s) s (int32_t 0) (7 * 0)).
  rewrite (sleb128_loop_value bs _ s 0 0 Hwf Hh) by (simpl; lia).
  change (2 ^ (7 * 0)) with 1.
  replace (0 + 1 * leb_groups_value bs) with (leb_groups_value bs) by lia.
  replace (7 * (0 + Z.of_nat (List.length bs))) with (7 * Z.of_nat (List.length bs)) by lia.
  set (n := Z.of_nat (List.length bs)) in *.
  destruct (leb_sign bs) eqn:Hsign; simpl andb.
  - destruct (7 * n <? 32) eqn:Hlt.
    + apply Z.ltb_lt in Hlt.
      assert (H28 : 2 ^ (7 * n) <= 2 ^ 28) by (apply Z.pow_le_mono_r; lia).
      change (2 ^ 28) with 268435456 in H28.
      unfold int_shl. replace (7 * n <? 32) with true by (symmetry; apply Z.ltb_lt; lia).
      rewrite Z.shiftl_mul_pow2 by lia.
      rewrite !int32_t_small by lia.
      replace (- (1 * 2 ^ (7 * n))) with ((-1) * 2 ^ (7 * n)) by ring.
      rewrite lor_low_high by lia. do 2 f_equal. lia.
    + apply Z.ltb_ge in Hlt. assert (n = 5) as Hn5 by lia.
      do 2 f_equal. rewrite Hn5 in Hval.
      replace (leb_groups_value bs) with (v + 8 * 2 ^ 32) by (change (2 ^ (7 * 5)) with (8 * 2 ^ 32) in Hval; lia).
      rewrite int32_t_plus_multiple. apply int32_t_small. exact Hv.
  - do 2 f_equal. replace (leb_groups_value bs) with v by lia.
    apply int32_t_small. exact Hv.
Qed.

(** C5 (the code at the failing input). The six bytes 80 80 80 80 F8 7F are an
    SLEB128 encoding of -2^31 (its five-byte encoding 80 80 80 80 78, padded
    with one sign group). [sleb128] decodes the five-byte form, but on the
    padded form its sixth iteration shifts an [int] by 35, which is undefined:
    the loop has no guard like the [shift < 32] of [uleb128]. *)
Theorem sleb128_padded_shift_undefined :
  sleb128_encodes [x80; x80; x80; x80; xf8; x7f] (- 2 ^ 31) /\
  sleb128 (freader_open [x80; x80; x80; x80; xf8; x7f] 4096) = None /\
  option_map fst (sleb128 (freader_open [x80; x80; x80; x80; x78] 4096)) = Some (- 2 ^ 31) /\
  int_shl (Z.land (char_of_byte x7f) 0x7f) 35 = None /\
  option_map fst (uleb128 (freader_open [x80; x80; x80; x80; x88; x00] 4096)) = Some (2 ^ 31).
Proof. repeat split; reflexivity. Qed.

(* ===================================================================== *)
(** * More properties of the reader *)
(* ===================================================================== *)

(** ** Seeking *)

(** A reader that is not valid fails the assertion of every operation. *)
Lemma invalid_reader_fails r :
  freader_bool r = false ->
  freader_get r = None /\ (forall n, freader_read r n = None) /\
  (forall o, freader_seekg r o = None) /\ (forall o d, freader_seekg_dir r o d = None) /\
  freader_read_c_string_view r = None.
Proof.
  intros H. unfold freader_get, freader_read, freader_seekg, freader_seekg_dir,
    freader_read_c_string_view. rewrite H. repeat split.
Qed.

(** [seekg] checks nothing about the offset: a seek to more than one past the
    end of the window returns, and leaves a reader on which every later
    operation, a seek back included, fails its assertion. *)
Theorem seekg_past_end_is_final (r : freader) (offset : Z) :
  freader_bool r = true -> 0 <= _f r <= _l r -> _f r + offset < 2 ^ 64 ->
  _l r < _f r + offset ->
  exists r', freader_seekg r offset = Some r' /\
    freader_tellg r' = offset /\
    freader_bool r' = false /\
    freader_get r' = None /\
    (forall n, freader_read r' n = None) /\
    (forall o, freader_seekg r' o = None) /\
    (forall o d, freader_seekg_dir r' o d = None).
Proof.
  intros Hok Hf Hmax Hl.
  assert (Hle : _p r <= _l r).
  { unfold freader_bool in Hok. apply andb_true_iff in Hok as [_ H]. now apply Z.leb_le. }
  exists (set_p r (_f r + offset)).
  assert (Hbad : freader_bool (set_p r (_f r + offset)) = false).
  { unfold freader_bool, set_p; simpl. apply andb_false_iff. right. apply Z.leb_gt. lia. }
  destruct (invalid_reader_fails _ Hbad) as (Hg & Hr & Hs & Hd & _).
  split.
  - unfold freader_seekg. rewrite Hok. now rewrite size_t_small by lia.
  - split; [|repeat split; assumption].
    unfold freader_tellg, set_p; simpl.
    replace (_f r + offset - _f r) with offset by lia. apply size_t_small. lia.
Qed.

(** ** Reading *)




Lemma filebuf_bytes_app fb : forall (n m : nat) a,
  filebuf_bytes fb a (n + m)
  = match filebuf_bytes fb a n, filebuf_bytes fb (a + Z.of_nat n) m with
    | Some x, Some y => Some (x ++ y)
    | _, _ => None
    end.
Proof.
  induction n as [|n IH]; intros m a.
  - change (Z.of_nat 0) with 0. rewrite Z.add_0_r. simpl.
    destruct (filebuf_bytes fb a m); reflexivity.
  - change (S n + m)%nat with (S (n + m)). simpl filebuf_bytes.
    rewrite IH. replace (a + 1 + Z.of_nat n) with (a + Z.of_nat (S n)) by lia.
    destruct (filebuf_deref fb a); [|reflexivity].
    destruct (filebuf_bytes fb (a + 1) n); [|reflexivity].
    destruct (filebuf_bytes fb (a + Z.of_nat (S n)) m); reflexivity.
Qed.

(** Reads compose: while the first read stays inside the window, reading [n]
    bytes and then [m] bytes is reading [n + m] bytes. *)
Theorem read_then_read (r : freader) (n m : nat) :
  0 <= _p r -> _p r + Z.of_nat n <= _l r -> _l r < 2 ^ 64 ->
  freader_read r (n + m)
  = match freader_read r n with
    | Some (bs1, r1) =>
        match freader_read r1 m with
        | Some (bs2, r2) => Some (bs1 ++ bs2, r2)
        | None => None
        end
    | None => None
    end.
Proof.
  intros Hp Hn Hl. unfold freader_read.
  destruct (freader_bool r) eqn:Hok; [|reflexivity].
  rewrite filebuf_bytes_app.
  destruct (filebuf_bytes (_filebuf r) (_p r) n) as [bs1|]; [|reflexivity].
  assert (Hok1 : freader_bool (set_p r (size_t (_p r + Z.of_nat n))) = true).
  { unfold freader_bool in *. cbn [set_p _filebuf _p _l].
    apply andb_true_iff in Hok as [Hfb _]. rewrite Hfb. simpl.
    apply Z.leb_le. rewrite size_t_small by lia. exact Hn. }
  rewrite Hok1. cbn [set_p _filebuf _p _l _f].
  rewrite (size_t_small (_p r + Z.of_nat n)) by lia.
  destruct (filebuf_bytes (_filebuf r) (_p r + Z.of_nat n) m) as [bs2|]; [|reflexivity].
  do 3 f_equal. f_equal. lia.
Qed.

(** ** C strings *)

Lemma c_string_loop_spec fb : forall bs fuel p,
  0 <= p -> p + Z.of_nat (List.length bs) + 1 < 2 ^ 64 ->
  filebuf_bytes fb p (S (List.length bs)) = Some (bs ++ [x00]) ->
  Forall (fun b => b <> x00) bs -> (List.length bs < fuel)%nat ->
  c_string_loop fuel fb p = Some (bs, p + Z.of_nat (List.length bs)).
Proof.
  induction bs as [|b t IH]; intros fuel p Hp Hmax Hbytes Hnz Hfuel;
    (destruct fuel as [|fuel]; [simpl in Hfuel; lia|]).
  - simpl in *. destruct (filebuf_deref fb p) as [c|]; [|discriminate].
    injection Hbytes as ->. simpl. do 2 f_equal. lia.
  - simpl List.length in *. simpl filebuf_bytes in Hbytes.
    destruct (filebuf_deref fb p) as [c|] eqn:Hc; [|discriminate].
    destruct (filebuf_deref fb (p + 1)) as [c'|] eqn:Hc'; [|discriminate].
    destruct (filebuf_bytes fb (p + 1 + 1) (List.length t)) as [cs|] eqn:Hcs; [|discriminate].
    injection Hbytes as -> Ht.
    apply Forall_cons in Hnz as [Hb Hnz].
    simpl c_string_loop. rewrite Hc.
    destruct (Byte.eqb b x00) eqn:E; [apply Byte.byte_dec_bl in E; contradiction|].
    rewrite size_t_small by lia.
    rewrite (IH fuel (p + 1)); try lia; try assumption.
    + do 2 f_equal. lia.
    + simpl filebuf_bytes. rewrite Hc', Hcs. now rewrite Ht.
Qed.

(** [read_c_string_view] returns the bytes before the first NUL and leaves
    the reader one past that NUL, wherever [_l] is. *)
Theorem read_c_string_view_spec (r : freader) (bs : list byte) :
  freader_bool r = true -> 0 <= _p r ->
  _p r + Z.of_nat (List.length bs) + 1 < 2 ^ 64 ->
  filebuf_bytes (_filebuf r) (_p r) (S (List.length bs)) = Some (bs ++ [x00]) ->
  Forall (fun b => b <> x00) bs ->
  freader_read_c_string_view r
  = Some (bs, set_p r (_p r + Z.of_nat (List.length bs) + 1)).
Proof.
  intros Hok Hp Hmax Hbytes Hnz. unfold freader_read_c_string_view. rewrite Hok.
  rewrite (c_string_loop_spec _ bs); try assumption.
  - now rewrite size_t_small by lia.
  - unfold freader_fuel. unfold freader_bool, filebuf_bool in Hok.
    destruct (_descriptor (_filebuf r)); [|discriminate].
    destruct (_buffer (_filebuf r)) as [mb|] eqn:Hmb; [|discriminate].
    destruct (filebuf_bytes_in_mapping _ _ _ _ _ Hmb Hbytes) as [H0|Hle]; lia.
Qed.

(** ** [temp_seek] *)

(** [temp_seek] puts the reader back where it was, wherever the function
    left it inside the window; if the function left a reader that is not
    valid, the seek back fails its assertion. *)
Theorem temp_seek_restores_position {A} (s s1 s2 : freader) (offset : Z) (dir : seekdir)
    (f : freader -> option (A * freader)) (a : A) :
  freader_seekg_dir s offset dir = Some s1 -> f s1 = Some (a, s2) -> _f s2 = _f s ->
  (freader_bool s2 = true ->
     temp_seek s offset dir f = Some (a, set_p s2 (size_t (_p s))) /\
     freader_tellg (set_p s2 (size_t (_p s))) = freader_tellg s) /\
  (freader_bool s2 = false -> temp_seek s offset dir f = None).
Proof.
  intros Hseek Hf Hframe. unfold temp_seek. rewrite Hseek, Hf. unfold freader_seekg.
  split; intros Hok; rewrite Hok; [|reflexivity].
  rewrite Hframe. unfold freader_tellg at 1.
  assert (E : size_t (_f s + size_t (_p s - _f s)) = size_t (_p s)).
  { rewrite Z.add_comm, size_t_idemp_add_l. f_equal. lia. }
  rewrite E. split; [reflexivity|].
  unfold freader_tellg. cbn [set_p _p _f]. rewrite Hframe.
  now rewrite size_t_idemp_sub_l.
Qed.

(** ** [endian_swap] *)

Lemma endian_swap_loop_eq fuel c first last :
  endian_swap_loop fuel c first last
  = if first =? last then Some c
    else
      match fuel with
      | O => None
      | S fuel' =>
          if (0 <=? first) && (0 <=? last - 1) then
            match c !! Z.to_nat first, c !! Z.to_nat (last - 1) with
            | Some a, Some b =>
                endian_swap_loop fuel'
                  (<[Z.to_nat (last - 1) := a]> (<[Z.to_nat first := b]> c))
                  (first + 1) (last - 1)
            | _, _ => None
            end
          else None
      end.
Proof. destruct fuel; reflexivity. Qed.

Lemma list_insert_middle {A} (l1 l2 : list A) (x y : A) (n : nat) :
  n = List.length l1 -> <[n := y]> (l1 ++ x :: l2) = l1 ++ y :: l2.
Proof.
  intros ->. rewrite insert_app_r_alt by lia.
  now replace (List.length l1 - List.length l1)%nat with 0%nat by lia.
Qed.

(** The loop on the middle part of the object: [k] swaps reverse [2 * k]
    bytes. *)
Lemma endian_swap_loop_rev : forall (k : nat) (mid pre post : list byte) (fuel : nat),
  List.length mid = (2 * k)%nat -> (k <= fuel)%nat ->
  endian_swap_loop fuel (pre ++ mid ++ post)
    (Z.of_nat (List.length pre)) (Z.of_nat (List.length pre + List.length mid))
  = Some (pre ++ rev mid ++ post).
Proof.
  induction k as [|k IH]; intros mid pre post fuel Hlen Hfuel.
  - destruct mid; [|discriminate]. rewrite endian_swap_loop_eq.
    replace (Z.of_nat (List.length pre + List.length [])) with (Z.of_nat (List.length pre))
      by (simpl; lia).
    now rewrite Z.eqb_refl.
  - destruct mid as [|a t]; [discriminate|].
    assert (Ht : t <> []) by (intros ->; simpl in Hlen; lia).
    destruct (exists_last Ht) as (m & b & ->).
    assert (Hm : List.length m = (2 * k)%nat).
    { simpl in Hlen. rewrite length_app in Hlen. simpl in Hlen. lia. }
    destruct fuel as [|fuel]; [lia|].
    rewrite endian_swap_loop_eq.
    replace (Z.of_nat (List.length pre) =?
             Z.of_nat (List.length pre + List.length (a :: m ++ [b]))) with false
      by (symmetry; apply Z.eqb_neq; simpl; lia).
    replace ((0 <=? Z.of_nat (List.length pre)) &&
             (0 <=? Z.of_nat (List.length pre + List.length (a :: m ++ [b])) - 1)) with true
      by (symmetry; apply andb_true_iff; split; apply Z.leb_le; simpl; lia).
    rewrite Nat2Z.id.
    replace (Z.to_nat (Z.of_nat (List.length pre + List.length (a :: m ++ [b])) - 1))
      with (List.length (pre ++ a :: m))
      by (rewrite ?length_app; cbn [List.length]; rewrite ?length_app; cbn [List.length]; lia).
    replace (pre ++ (a :: m ++ [b]) ++ post) with (pre ++ a :: (m ++ b :: post))
      by (simpl; now rewrite <- app_assoc).
    rewrite (list_lookup_middle pre _ a) by reflexivity.
    replace ((pre ++ a :: m ++ b :: post) !! List.length (pre ++ a :: m)) with (Some b)
      by (symmetry; replace (pre ++ a :: m ++ b :: post) with ((pre ++ a :: m) ++ b :: post)
            by (now rewrite <- app_assoc); now apply list_lookup_middle).
    rewrite (list_insert_middle pre _ a b) by reflexivity.
    replace (pre ++ b :: m ++ b :: post) with ((pre ++ b :: m) ++ b :: post)
      by (now rewrite <- app_assoc).
    replace (List.length (pre ++ a :: m)) with (List.length (pre ++ b :: m))
      by (rewrite !length_app; reflexivity).
    rewrite (list_insert_middle (pre ++ b :: m) post b a) by reflexivity.
    replace ((pre ++ b :: m) ++ a :: post) with ((pre ++ [b]) ++ m ++ (a :: post))
      by (rewrite <- !app_assoc; reflexivity).
    replace (Z.of_nat (List.length pre) + 1) with (Z.of_nat (List.length (pre ++ [b])))
      by (rewrite length_app; simpl; lia).
    replace (Z.of_nat (List.length pre + List.length (a :: m ++ [b])) - 1)
      with (Z.of_nat (List.length (pre ++ [b]) + List.length m))
      by (rewrite ?length_app; cbn [List.length]; rewrite ?length_app; cbn [List.length]; lia).
    rewrite (IH m (pre ++ [b]) (a :: post) fuel Hm) by lia.
    f_equal. simpl rev. rewrite rev_unit. simpl. rewrite <- !app_assoc. reflexivity.
Qed.

(** The loop never ends on an object of odd size: [first] and [last] move by
    one each, so they never meet, and the swaps leave the object. *)
Lemma endian_swap_loop_odd : forall (fuel : nat) (c : list byte) (first last : Z),
  Z.odd (first + last) = true -> endian_swap_loop fuel c first last = None.
Proof.
  induction fuel as [|fuel IH]; intros c first last Hodd; rewrite endian_swap_loop_eq.
  - destruct (Z.eqb_spec first last) as [->|]; [|reflexivity].
    replace (last + last) with (2 * last) in Hodd by lia.
    rewrite Z.odd_mul in Hodd. discriminate.
  - destruct (Z.eqb_spec first last) as [->|].
    + replace (last + last) with (2 * last) in Hodd by lia.
      rewrite Z.odd_mul in Hodd. discriminate.
    + destruct ((0 <=? first) && (0 <=? last - 1)); [|reflexivity].
      destruct (c !! Z.to_nat first); [|reflexivity].
      destruct (c !! Z.to_nat (last - 1)); [|reflexivity].
      apply IH. now replace (first + 1 + (last - 1)) with (first + last) by lia.
Qed.

(** [endian_swap] reverses the bytes of an object of even size (half as
    many swaps as bytes), so that two swaps give the object back; on an
    object of odd size the loop does not return, however long it runs. *)
Theorem endian_swap_even_odd (c : list byte) (k fuel : nat) :
  (List.length c = (2 * k)%nat -> (k <= fuel)%nat ->
     endian_swap fuel c = Some (rev c) /\ endian_swap fuel (rev c) = Some c) /\
  (List.length c = (2 * k + 1)%nat -> endian_swap fuel c = None).
Proof.
  split.
  - intros Hk Hfuel.
    assert (Hrev : forall d : list byte, List.length d = (2 * k)%nat ->
              endian_swap fuel d = Some (rev d)).
    { intros d Hd. unfold endian_swap.
      pose proof (endian_swap_loop_rev k d [] [] fuel Hd Hfuel) as H.
      simpl in H. rewrite !app_nil_r in H. exact H. }
    split; [now apply Hrev|].
    rewrite Hrev by (now rewrite length_rev). now rewrite rev_involutive.
  - intros Hk. apply endian_swap_loop_odd. rewrite Hk.
    replace (0 + Z.of_nat (2 * k + 1)) with (1 + 2 * Z.of_nat k) by lia.
    now rewrite Z.odd_add_mul_2.
Qed.

Lemma byte_to_Z_range b : 0 <= byte_to_Z b < 256.
Proof. destruct b; cbv; split; congruence. Qed.

(** Four bytes as a little-endian number. *)
Lemma uint32_of_bytes_sum b0 b1 b2 b3 :
  uint32_of_bytes [b0; b1; b2; b3]
  = byte_to_Z b0 + 256 * byte_to_Z b1 + 65536 * byte_to_Z b2 + 16777216 * byte_to_Z b3.
Proof.
  pose proof (byte_to_Z_range b0). pose proof (byte_to_Z_range b1).
  pose proof (byte_to_Z_range b2). pose proof (byte_to_Z_range b3).
  unfold uint32_of_bytes. rewrite !Z.shiftl_mul_pow2 by lia.
  rewrite (lor_low_high (byte_to_Z b2 * 2 ^ 16) (byte_to_Z b3) 24) by lia.
  replace (byte_to_Z b2 * 2 ^ 16 + byte_to_Z b3 * 2 ^ 24)
    with ((byte_to_Z b2 + 256 * byte_to_Z b3) * 2 ^ 16) by lia.
  rewrite (lor_low_high (byte_to_Z b1 * 2 ^ 8) _ 16) by lia.
  replace (byte_to_Z b1 * 2 ^ 8 + (byte_to_Z b2 + 256 * byte_to_Z b3) * 2 ^ 16)
    with ((byte_to_Z b1 + 256 * byte_to_Z b2 + 65536 * byte_to_Z b3) * 2 ^ 8) by lia.
  rewrite (lor_low_high (byte_to_Z b0) _ 8) by lia. lia.
Qed.

(** [endian_swap32] on a number given by its four bytes. *)
Lemma endian_swap32_sum x0 x1 x2 x3 :
  0 <= x0 < 256 -> 0 <= x1 < 256 -> 0 <= x2 < 256 -> 0 <= x3 < 256 ->
  endian_swap32 (x0 + 256 * x1 + 65536 * x2 + 16777216 * x3)
  = x3 + 256 * x2 + 65536 * x1 + 16777216 * x0.
Proof.
  intros H0 H1 H2 H3. unfold endian_swap32.
  set (c := x0 + 256 * x1 + 65536 * x2 + 16777216 * x3).
  change 255 with (Z.ones 8). rewrite !Z.land_ones by lia.
  rewrite !Z.shiftr_div_pow2, !Z.shiftl_mul_pow2 by lia.
  assert (E0 : c mod 2 ^ 8 = x0) by (unfold c; Z.div_mod_to_equations; lia).
  assert (E1 : (c / 2 ^ 8) mod 2 ^ 8 = x1) by (unfold c; Z.div_mod_to_equations; lia).
  assert (E2 : (c / 2 ^ 16) mod 2 ^ 8 = x2) by (unfold c; Z.div_mod_to_equations; lia).
  assert (E3 : (c / 2 ^ 24) mod 2 ^ 8 = x3) by (unfold c; Z.div_mod_to_equations; lia).
  rewrite E0, E1, E2, E3.
  rewrite (Z.lor_comm (x2 * 2 ^ 8) x3), (lor_low_high x3 x2 8) by lia.
  rewrite (Z.lor_comm (x1 * 2 ^ 16)), (lor_low_high _ x1 16) by lia.
  rewrite (Z.lor_comm (x0 * 2 ^ 24)), (lor_low_high _ x0 24) by lia.
  lia.
Qed.

Lemma uint32_of_bytes_rev (c : list byte) :
  List.length c = 4%nat -> uint32_of_bytes (rev c) = endian_swap32 (uint32_of_bytes c).
Proof.
  destruct c as [|b0 [|b1 [|b2 [|b3 [|b4 t]]]]]; try discriminate. intros _.
  change (rev [b0; b1; b2; b3]) with [b3; b2; b1; b0].
  rewrite !uint32_of_bytes_sum. symmetry.
  apply endian_swap32_sum; apply byte_to_Z_range.
Qed.

(** On a [std::uint32_t] the loop of [endian_swap] makes two swaps, and the
    number read back from the reversed bytes is the one with its four bytes
    in the opposite order. *)
Theorem endian_swap_uint32 (b0 b1 b2 b3 : byte) :
  endian_swap 2 [b0; b1; b2; b3] = Some [b3; b2; b1; b0] /\
  uint32_of_bytes [b3; b2; b1; b0] = endian_swap32 (uint32_of_bytes [b0; b1; b2; b3]) /\
  endian_swap32 (endian_swap32 (uint32_of_bytes [b0; b1; b2; b3]))
  = uint32_of_bytes [b0; b1; b2; b3].
Proof.
  pose proof (byte_to_Z_range b0). pose proof (byte_to_Z_range b1).
  pose proof (byte_to_Z_range b2). pose proof (byte_to_Z_range b3).
  split; [reflexivity|].
  rewrite !uint32_of_bytes_sum. rewrite !endian_swap32_sum by assumption.
  split; reflexivity.
Qed.

(** ** Mappings *)

(** With a page size that is positive and a range that is not empty the
    three assertions of [remmap] hold. *)
Lemma remmap_returns (fb : filebuf) (page_size addr start end_ : Z) :
  0 < page_size -> 0 <= start < end_ ->
  filebuf_remmap fb page_size addr start end_
  = Some {| _descriptor := _descriptor fb;
            _buffer := Some {| mb_base := addr;
                               mb_start := start / page_size * page_size;
                               mb_len := (end_ / page_size + 1) * page_size
                                         - start / page_size * page_size |} |}.
Proof.
  intros Hps Hs. unfold filebuf_remmap.
  pose proof (Z.div_mod start page_size ltac:(lia)) as Hds.
  pose proof (Z.mod_pos_bound start page_size Hps) as Hms.
  pose proof (Z.div_mod end_ page_size ltac:(lia)) as Hde.
  pose proof (Z.mod_pos_bound end_ page_size Hps) as Hme.
  replace (start <? end_) with true by (symmetry; apply Z.ltb_lt; lia).
  replace (start / page_size * page_size <=? start) with true
    by (symmetry; apply Z.leb_le; lia).
  replace ((end_ / page_size + 1) * page_size >=? end_) with true
    by (symmetry; rewrite Z.geb_leb; apply Z.leb_le; lia).
  reflexivity.
Qed.

(** [remmap] maps whole pages around the range: with a page size that is
    positive and a range that is not empty (and ends a page before the top
    of [std::size_t]) its three assertions hold, the mapping starts on the
    page boundary at or before [start], less than a page before it, and ends
    after [end], at most a page after it. An empty range fails the first
    assertion. *)
Theorem remmap_covers_range (fb : filebuf) (page_size addr start end_ : Z) :
  0 < page_size -> 0 <= start -> end_ + page_size < 2 ^ 64 ->
  (start < end_ ->
     exists mb,
       filebuf_remmap fb page_size addr start end_
       = Some {| _descriptor := _descriptor fb; _buffer := Some mb |} /\
       mb_base mb = addr /\
       mb_start mb mod page_size = 0 /\
       mb_start mb <= start < mb_start mb + page_size /\
       end_ < mb_start mb + mb_len mb <= end_ + page_size) /\
  (end_ <= start -> filebuf_remmap fb page_size addr start end_ = None).
Proof.
  intros Hps Hs Hmax. split.
  - intros Hlt. eexists. split; [apply remmap_returns; lia|]. cbn [mb_base mb_start mb_len].
    pose proof (Z.div_mod start page_size ltac:(lia)) as Hds.
    pose proof (Z.mod_pos_bound start page_size Hps) as Hms.
    pose proof (Z.div_mod end_ page_size ltac:(lia)) as Hde.
    pose proof (Z.mod_pos_bound end_ page_size Hps) as Hme.
    split; [reflexivity|]. split; [apply Z_mod_mult|]. lia.
  - intros Hge. unfold filebuf_remmap.
    replace (start <? end_) with false by (symmetry; apply Z.ltb_ge; lia).
    reflexivity.
Qed.

(** [subbuf] in general: on a reader at position [pos] of its window, with a
    range that is not empty, it returns a reader over a new mapping whose
    [_f] is the address of that mapping, whose [_p] is [pos] bytes before the
    [_f] of the reader it was called on, and whose size is [end_pos]: not the
    window from the position to [end_pos]. *)
Theorem subbuf_pointers (r : freader) (page_size addr end_pos : Z) :
  0 < page_size -> _f r <= _p r -> 0 <= _f r -> _p r - _f r < end_pos -> _f r + end_pos < 2 ^ 64 ->
  exists r', freader_subbuf r page_size addr end_pos = Some r' /\
    _f r' = addr /\
    _p r' = size_t (_f r - freader_tellg r) /\
    _l r' = _f r + end_pos - freader_tellg r /\
    freader_size r' = end_pos /\
    (_f r < _p r -> freader_size r' <> end_pos - freader_tellg r).
Proof.
  intros Hps Hfp Hf Hpos Hmax.
  assert (Ht : freader_tellg r = _p r - _f r) by (apply size_t_small; lia).
  pose proof (remmap_returns (_filebuf r) page_size addr (_p r - _f r) end_pos Hps ltac:(lia))
    as Hre.
  set (mb := {| mb_base := addr;
                mb_start := (_p r - _f r) / page_size * page_size;
                mb_len := (end_pos / page_size + 1) * page_size
                          - (_p r - _f r) / page_size * page_size |}) in Hre.
  assert (Hbase : filebuf_get {| _descriptor := _descriptor (_filebuf r); _buffer := Some mb |}
                  = addr) by reflexivity.
  unfold freader_subbuf. rewrite (size_t_small (_p r - _f r)) by lia. rewrite Hre.
  eexists. split; [reflexivity|]. cbn [_f _p _l _filebuf].
  assert (Hsz : freader_size
            {| _filebuf := {| _descriptor := _descriptor (_filebuf r); _buffer := Some mb |};
               _f := filebuf_get {| _descriptor := _descriptor (_filebuf r); _buffer := Some mb |};
               _p := size_t (_f r - (_p r - _f r));
               _l := size_t (_f r + size_t (end_pos - (_p r - _f r))) |} = end_pos).
  { rewrite (subbuf_size r page_size addr end_pos); [apply size_t_small; lia|].
    unfold freader_subbuf. rewrite (size_t_small (_p r - _f r)) by lia. now rewrite Hre. }
  split; [exact Hbase|]. rewrite Ht. split; [reflexivity|].
  split; [rewrite (size_t_small (end_pos - _)) by lia; rewrite size_t_small by lia; lia|].
  split; [exact Hsz|]. rewrite Hsz. lia.
Qed.

(** ** [read_exactly] *)

(** [read_exactly] around a read of [size] bytes never fails its check, and
    around a read of another number of bytes always does. *)
Lemma read_exactly_read (s : freader) (size : Z) (n : nat) :
  0 <= size < 2 ^ 64 -> Z.of_nat n < 2 ^ 64 ->
  read_exactly s size (fun _ s0 => freader_read s0 n)
  = if Z.of_nat n =? size then freader_read s n else None.
Proof.
  intros Hsize Hn. unfold read_exactly, freader_read.
  destruct (freader_bool s); [|now destruct (Z.of_nat n =? size)].
  destruct (filebuf_bytes (_filebuf s) (_p s) n) as [bs|]; [|now destruct (Z.of_nat n =? size)].
  unfold freader_tellg. cbn [set_p _p _f].
  rewrite size_t_idemp_sub_l, size_t_idemp_add_l.
  destruct (Z.eqb_spec (Z.of_nat n) size) as [->|Hne].
  - replace (_p s + size - _f s) with (_p s - _f s + size) by lia. now rewrite Z.eqb_refl.
  - destruct (Z.eqb_spec (size_t (_p s + Z.of_nat n - _f s)) (size_t (_p s - _f s + size)))
      as [E|]; [|reflexivity].
    exfalso. apply size_t_eq_iff in E.
    replace (_p s + Z.of_nat n - _f s - (_p s - _f s + size)) with (Z.of_nat n - size) in E by lia.
    unfold size_t, wrap in E. apply Z.mod_divide in E; [|lia]. destruct E as [q Hq]. lia.
Qed.

(* ===================================================================== *)
(** * More properties of file detection *)
(* ===================================================================== *)

(** ** Detection in general *)

Lemma set_p_same s : set_p s (_p s) = s.
Proof. now destruct s. Qed.

Lemma set_p_set_p s p q : set_p (set_p s p) q = set_p s q.
Proof. reflexivity. Qed.

(** A read of bytes the window holds. *)
Lemma freader_window_read s bs :
  freader_window_holds s bs ->
  freader_read s (List.length bs) = Some (bs, set_p s (_p s + Z.of_nat (List.length bs))) /\
  freader_bool (set_p s (_p s + Z.of_nat (List.length bs))) = true.
Proof.
  intros (Hfb & Hp & Hf & Hl & Hmax & Hbytes). unfold freader_read, freader_bool.
  cbn [set_p _filebuf _p _l]. rewrite Hfb, Hbytes.
  replace (_p s <=? _l s) with true by (symmetry; apply Z.leb_le; lia).
  replace (_p s + Z.of_nat (List.length bs) <=? _l s) with true by (symmetry; apply Z.leb_le; lia).
  simpl. now rewrite size_t_small by lia.
Qed.

Lemma freader_window_split s bs1 bs2 :
  freader_window_holds s (bs1 ++ bs2) ->
  freader_window_holds s bs1 /\
  freader_window_holds (set_p s (_p s + Z.of_nat (List.length bs1))) bs2.
Proof.
  intros (Hfb & Hp & Hf & Hl & Hmax & Hbytes).
  rewrite length_app in *. rewrite filebuf_bytes_app in Hbytes.
  destruct (filebuf_bytes (_filebuf s) (_p s) (List.length bs1)) as [x|] eqn:Hx; [|discriminate].
  destruct (filebuf_bytes (_filebuf s) (_p s + Z.of_nat (List.length bs1)) (List.length bs2))
    as [y|] eqn:Hy; [|discriminate].
  injection Hbytes as Hxy.
  assert (Hlx : List.length x = List.length bs1).
  { clear -Hx. revert x Hx. generalize (_p s).
    induction (List.length bs1) as [|n IH]; intros a x Hx; simpl in Hx.
    - now injection Hx as <-.
    - destruct (filebuf_deref (_filebuf s) a); [|discriminate].
      destruct (filebuf_bytes (_filebuf s) (a + 1) n) as [cs|] eqn:Hcs; [|discriminate].
      injection Hx as <-. simpl. f_equal. now apply (IH (a + 1)). }
  apply app_inj_1 in Hxy as [-> ->]; [|exact Hlx].
  unfold freader_window_holds. cbn [set_p _filebuf _p _l _f].
  repeat split; try assumption; lia.
Qed.

(** The way through [detect_file] when the body reads [n] bytes in all: the
    reader comes back as it was. *)
Lemma temp_seek_cur_restores {A} (s : freader) (n : Z) (a : A)
    (f : freader -> option (A * freader)) :
  freader_bool s = true -> 0 <= _f s -> _f s <= _p s -> _p s + n <= _l s -> _l s < 2 ^ 64 ->
  0 <= n ->
  f s = Some (a, set_p s (_p s + n)) ->
  temp_seek s 0 ios_cur f = Some (a, s).
Proof.
  intros Hok Hp Hf Hl Hmax Hn Hbody. unfold temp_seek, freader_seekg_dir. rewrite Hok.
  rewrite Z.add_0_r, (size_t_small (_p s)) by lia. rewrite set_p_same, Hbody.
  unfold freader_seekg.
  replace (freader_bool (set_p s (_p s + n))) with true.
  - change (_f (set_p s (_p s + n))) with (_f s).
    unfold freader_tellg. rewrite (size_t_small (_p s - _f s)) by lia.
    replace (_f s + (_p s - _f s)) with (_p s) by lia.
    rewrite size_t_small by lia. now rewrite set_p_set_p, set_p_same.
  - symmetry. unfold freader_bool in *. cbn [set_p _filebuf _p _l].
    apply andb_true_iff in Hok as [-> _]. simpl. apply Z.leb_le. lia.
Qed.

Lemma freader_window_bool s bs : freader_window_holds s bs -> freader_bool s = true.
Proof.
  intros (Hfb & Hp & Hf & Hl & Hmax & Hbytes). unfold freader_bool. rewrite Hfb. simpl.
  apply Z.leb_le. lia.
Qed.

(** What [detect_file] returns for a magic number that is not one of
    Mach-O. *)
Lemma detect_file_other (s : freader) (m : list byte) :
  freader_window_holds s m -> List.length m = 4%nat ->
  Z_in (uint32_of_bytes m) [MH_MAGIC; MH_CIGAM; MH_MAGIC_64; MH_CIGAM_64] = false ->
  detect_file s
  = Some (({| _offset := freader_tellg s;
              _format :=
                if Z_in (uint32_of_bytes m) [lit_ra_lt_bang; lit_bang_lt_ar] then format_ar
                else if Z_in (uint32_of_bytes m)
                          [FAT_MAGIC; FAT_CIGAM; FAT_MAGIC_64; FAT_CIGAM_64]
                     then format_fat else format_unknown;
              _arch := arch_unknown;
              _is_64_bit :=
                Z_in (uint32_of_bytes m) [MH_MAGIC_64; MH_CIGAM_64; FAT_MAGIC_64; FAT_CIGAM_64];
              _needs_byteswap :=
                Z_in (uint32_of_bytes m)
                  [MH_CIGAM; MH_CIGAM_64; FAT_CIGAM; FAT_CIGAM_64; lit_ra_lt_bang] |}, []), s).
Proof.
  intros Hh Hlen Hnm.
  destruct (freader_window_read s m Hh) as [Hread _].
  pose proof (freader_window_bool s m Hh) as Hok.
  destruct Hh as (Hfb & Hp & Hf & Hl & Hmax & Hbytes).
  rewrite Hlen in *.
  unfold detect_file. apply (temp_seek_cur_restores s 4); try assumption; try lia.
  unfold detect_file_body. rewrite Hread, Hnm. cbv iota.
  destruct (Z_in (uint32_of_bytes m) [lit_ra_lt_bang; lit_bang_lt_ar]); [reflexivity|].
  destruct (Z_in (uint32_of_bytes m) [FAT_MAGIC; FAT_CIGAM; FAT_MAGIC_64; FAT_CIGAM_64]);
    reflexivity.
Qed.

(** Files that are not Mach-O: [detect_file] reads the four bytes of the
    magic number and nothing else, leaves the reader where it was, records
    the position, and reports no architecture. An archive as it lies on disk
    (the bytes [!<ar]) and a fat header as it lies on disk (big-endian) are
    both recognized with [_needs_byteswap] set; a magic number that is none of
    the ten is format [unknown], neither 64-bit nor byte-swapped. *)
Theorem detect_file_not_macho (s : freader) (m : list byte) :
  freader_window_holds s m -> List.length m = 4%nat ->
  Z_in (uint32_of_bytes m) [MH_MAGIC; MH_CIGAM; MH_MAGIC_64; MH_CIGAM_64] = false ->
  exists d, detect_file s = Some ((d, []), s) /\
    _offset d = freader_tellg s /\
    _arch d = arch_unknown /\
    (m = [x21; x3c; x61; x72] ->
       _format d = format_ar /\ _is_64_bit d = false /\ _needs_byteswap d = true) /\
    (m = [xca; xfe; xba; xbe] ->
       _format d = format_fat /\ _is_64_bit d = false /\ _needs_byteswap d = true) /\
    (m = [xca; xfe; xba; xbf] ->
       _format d = format_fat /\ _is_64_bit d = true /\ _needs_byteswap d = true) /\
    (Z_in (uint32_of_bytes m)
       [lit_ra_lt_bang; lit_bang_lt_ar; FAT_MAGIC; FAT_CIGAM; FAT_MAGIC_64; FAT_CIGAM_64]
     = false ->
       _format d = format_unknown /\ _is_64_bit d = false /\ _needs_byteswap d = false).
Proof.
  intros Hh Hlen Hnm. eexists. split; [exact (detect_file_other s m Hh Hlen Hnm)|].
  cbn [_offset _arch _format _is_64_bit _needs_byteswap].
  split; [reflexivity|]. split; [reflexivity|].
  split; [|split; [|split]].
  - intros ->. repeat split; reflexivity.
  - intros ->. repeat split; reflexivity.
  - intros ->. repeat split; reflexivity.
  - intros Hnone. unfold Z_in in *. simpl in *.
    repeat match goal with
           | H : _ || _ = false |- _ => apply orb_false_iff in H; destruct H
           end.
    repeat match goal with H : (uint32_of_bytes m =? _) = false |- _ => rewrite H; clear H end.
    repeat split; reflexivity.
Qed.

Lemma Z_in_cases x l : Z_in x l = true -> In x l.
Proof.
  unfold Z_in. rewrite existsb_exists. intros (y & Hy & E). apply Z.eqb_eq in E. now subst.
Qed.

(** Mach-O files, in either byte order: [detect_file] reads the magic number
    and the cputype (its bytes reversed first when the magic number is a
    byte-swapped one), and checks that the cputype has the 64-bit ABI flag
    exactly when the magic number is a 64-bit one. If so it returns, leaves
    the reader where it was, and reports the architecture of the cputype:
    [x86], [x86_64], [arm] and [arm64] for their own cputypes, [arm64] for
    the cputype of arm64_32, and [unknown] with a warning for any other. If
    not, the assertion fails. *)
Theorem detect_file_macho (s : freader) (m c : list byte) :
  freader_window_holds s (m ++ c) -> List.length m = 4%nat -> List.length c = 4%nat ->
  Z_in (uint32_of_bytes m) [MH_MAGIC; MH_CIGAM; MH_MAGIC_64; MH_CIGAM_64] = true ->
  let swapped := Z_in (uint32_of_bytes m) [MH_CIGAM; MH_CIGAM_64] in
  let is_64 := Z_in (uint32_of_bytes m) [MH_MAGIC_64; MH_CIGAM_64] in
  let cputype := uint32_of_bytes (if swapped then rev c else c) in
  (negb (Z.land cputype CPU_ARCH_ABI64 =? 0) = is_64 ->
     exists d w, detect_file s = Some ((d, w), s) /\
       _offset d = freader_tellg s /\ _format d = format_macho /\
       _is_64_bit d = is_64 /\ _needs_byteswap d = swapped /\
       (cputype = CPU_TYPE_X86 -> _arch d = arch_x86 /\ w = []) /\
       (cputype = CPU_TYPE_X86_64 -> _arch d = arch_x86_64 /\ w = []) /\
       (cputype = CPU_TYPE_ARM -> _arch d = arch_arm /\ w = []) /\
       (cputype = CPU_TYPE_ARM64 -> _arch d = arch_arm64 /\ w = []) /\
       (cputype = CPU_TYPE_ARM64_32 -> _arch d = arch_arm64 /\ w = []) /\
       (Z_in cputype [CPU_TYPE_X86; CPU_TYPE_X86_64; CPU_TYPE_ARM; CPU_TYPE_ARM64;
                      CPU_TYPE_ARM64_32] = false ->
          _arch d = arch_unknown /\ w = ["WARN: Unknown Mach-O cputype"%string])) /\
  (negb (Z.land cputype CPU_ARCH_ABI64 =? 0) <> is_64 -> detect_file s = None).
Proof.
  intros Hh Hm Hc Hmagic swapped is_64 cputype.
  pose proof (freader_window_bool _ _ Hh) as Hok.
  destruct (freader_window_split s m c Hh) as [Hh1 Hh2].
  destruct (freader_window_read s m Hh1) as [Hr1 _].
  destruct (freader_window_read _ c Hh2) as [Hr2 _].
  rewrite Hm in Hr1, Hr2. rewrite Hc in Hr2.
  cbn [set_p _p] in Hr2. rewrite set_p_set_p in Hr2.
  replace (_p s + Z.of_nat 4 + Z.of_nat 4) with (_p s + 8) in Hr2 by lia.
  destruct Hh as (Hfb & Hf & Hfp & Hl & Hmax & _).
  rewrite length_app, Hm, Hc in Hl.
  assert (Hswap : Z_in (uint32_of_bytes m)
                    [MH_CIGAM; MH_CIGAM_64; FAT_CIGAM; FAT_CIGAM_64; lit_ra_lt_bang] = swapped).
  { unfold swapped. apply Z_in_cases in Hmagic. simpl in Hmagic.
    destruct Hmagic as [E|[E|[E|[E|[]]]]]; rewrite <- E; reflexivity. }
  assert (H64 : Z_in (uint32_of_bytes m)
                  [MH_MAGIC_64; MH_CIGAM_64; FAT_MAGIC_64; FAT_CIGAM_64] = is_64).
  { unfold is_64. apply Z_in_cases in Hmagic. simpl in Hmagic.
    destruct Hmagic as [E|[E|[E|[E|[]]]]]; rewrite <- E; reflexivity. }
  assert (Hcpu : (if swapped then endian_swap32 (uint32_of_bytes c) else uint32_of_bytes c)
                 = cputype).
  { unfold cputype. destruct swapped; [|reflexivity]. now rewrite uint32_of_bytes_rev. }
  assert (Hbody : detect_file_body s
    = if Bool.eqb (negb (Z.land cputype CPU_ARCH_ABI64 =? 0)) is_64 then
        let details a :=
          {| _offset := freader_tellg s; _format := format_macho; _arch := a;
             _is_64_bit := is_64; _needs_byteswap := swapped |} in
        if cputype =? CPU_TYPE_X86 then Some ((details arch_x86, []), set_p s (_p s + 8))
        else if cputype =? CPU_TYPE_X86_64 then Some ((details arch_x86_64, []), set_p s (_p s + 8))
        else if cputype =? CPU_TYPE_ARM then Some ((details arch_arm, []), set_p s (_p s + 8))
        else if cputype =? CPU_TYPE_ARM64 then Some ((details arch_arm64, []), set_p s (_p s + 8))
        else if cputype =? CPU_TYPE_ARM64_32 then Some ((details arch_arm64, []), set_p s (_p s + 8))
        else Some ((details arch_unknown, ["WARN: Unknown Mach-O cputype"%string]),
                   set_p s (_p s + 8))
      else None).
  { unfold detect_file_body. rewrite Hr1, Hmagic. cbv iota. rewrite Hr2.
    rewrite Hswap, H64, Hcpu. reflexivity. }
  assert (Hrestore : forall a, detect_file_body s = Some (a, set_p s (_p s + 8)) ->
                               detect_file s = Some (a, s)).
  { intros a Ha. unfold detect_file.
    apply (temp_seek_cur_restores s 8); try assumption; lia. }
  split.
  - intros Hassert. rewrite Hassert, eqb_reflx in Hbody. cbv zeta in Hbody.
    unfold Z_in, existsb.
    destruct (Z.eqb_spec cputype CPU_TYPE_X86) as [E1|N1];
      [|destruct (Z.eqb_spec cputype CPU_TYPE_X86_64) as [E2|N2];
        [|destruct (Z.eqb_spec cputype CPU_TYPE_ARM) as [E3|N3];
          [|destruct (Z.eqb_spec cputype CPU_TYPE_ARM64) as [E4|N4];
            [|destruct (Z.eqb_spec cputype CPU_TYPE_ARM64_32) as [E5|N5]]]]];
      eexists _, _; (split; [apply Hrestore; exact Hbody|]);
      cbn [_offset _format _arch _is_64_bit _needs_byteswap];
      repeat split; try reflexivity; try contradiction;
      match goal with
      | E : cputype = _, H : cputype = _ |- _ =>
          rewrite E in H; vm_compute in H; discriminate
      | H : _ || _ = false |- _ => simpl in H; discriminate
      end.
  - intros Hassert. unfold detect_file, temp_seek, freader_seekg_dir. rewrite Hok.
    rewrite Z.add_0_r, (size_t_small (_p s)) by lia. rewrite set_p_same, Hbody.
    destruct (negb (Z.land cputype CPU_ARCH_ABI64 =? 0)), is_64; try reflexivity;
      now destruct Hassert.
Qed.

(* ===================================================================== *)
(** * More properties of LEB128 decoding *)
(* ===================================================================== *)

(** ** Values and encodings beyond 32 bits *)

(** [uleb128] reports no overflow: whatever value the encoding has, the
    result is that value modulo [2 ^ 32], and every byte of the encoding is
    consumed. *)
Lemma uleb128_truncates (s : freader) (bs : list byte) :
  leb_wf bs = true -> freader_holds s bs -> 7 * Z.of_nat (List.length bs) < 2 ^ 64 ->
  uleb128 s = Some (leb_groups_value bs mod 2 ^ 32,
                    set_p s (_p s + Z.of_nat (List.length bs))).
Proof.
  intros Hwf Hh Hlen. unfold uleb128.
  pose proof (freader_holds_fuel _ _ Hh) as Hfuel.
  change (uleb128_loop (freader_fuel s) s 0 0)
    with (uleb128_loop (freader_fuel s) s (uint32_t 0) (7 * 0)).
  rewrite (uleb128_loop_value bs _ s 0 0 Hwf Hh) by (simpl; lia).
  do 2 f_equal. unfold uint32_t, wrap. f_equal. change (2 ^ (7 * 0)) with 1. lia.
Qed.

(** From the [k]-th group on, an encoding that reaches a sixth group makes
    the loop of [sleb128] shift by 35. *)
Lemma sleb128_loop_long bs : forall fuel s A k,
  leb_wf bs = true -> freader_holds s bs -> 0 <= k -> 6 <= k + Z.of_nat (List.length bs) ->
  sleb128_loop fuel s A (7 * k) = None.
Proof.
  induction bs as [|b t IH]; intros fuel s A k Hwf Hh Hk Hlen; [discriminate|].
  destruct fuel as [|fuel]; [reflexivity|]. simpl sleb128_loop.
  destruct (freader_holds_get _ _ _ Hh) as [Hget Hnext]. rewrite Hget.
  unfold int_shl. destruct (7 * k <? 32) eqn:Hs; [|reflexivity].
  apply Z.ltb_lt in Hs.
  destruct t as [|b' t']; [simpl in Hlen; lia|].
  assert (Hwf' : negb (Z.land (byte_to_Z b) 128 =? 0) && leb_wf (b' :: t') = true)
    by exact Hwf.
  apply andb_true_iff in Hwf' as [Hb Ht]. apply negb_true_iff in Hb.
  rewrite char_land_80, Hb.
  rewrite size_t_small by lia.
  replace (7 * k + 7) with (7 * (k + 1)) by lia.
  apply IH; [exact Ht|apply Hnext; discriminate|lia|].
  simpl List.length in *. lia.
Qed.

(** Every SLEB128 encoding of six bytes or more, whatever its value, takes
    [sleb128] to the shift of an [int] by 35: the unsigned decoder guards
    that shift, the signed one does not. *)
Theorem sleb128_six_bytes_undefined (s : freader) (bs : list byte) :
  leb_wf bs = true -> freader_holds s bs -> (6 <= List.length bs)%nat ->
  7 * Z.of_nat (List.length bs) < 2 ^ 64 ->
  sleb128 s = None /\
  uleb128 s = Some (leb_groups_value bs mod 2 ^ 32,
                    set_p s (_p s + Z.of_nat (List.length bs))).
Proof.
  intros Hwf Hh Hlen Hmax. split.
  - unfold sleb128. change 0 with (7 * 0) at 2.
    rewrite (sleb128_loop_long bs); [reflexivity|assumption|assumption|lia|lia].
  - unfold uleb128.
    pose proof (freader_holds_fuel _ _ Hh) as Hfuel.
    change (uleb128_loop (freader_fuel s) s 0 0)
      with (uleb128_loop (freader_fuel s) s (uint32_t 0) (7 * 0)).
    rewrite (uleb128_loop_value bs _ s 0 0 Hwf Hh) by (simpl; lia).
    do 2 f_equal. unfold uint32_t, wrap. f_equal. change (2 ^ (7 * 0)) with 1. lia.
Qed.

(* ===================================================================== *)
(** * Properties of report filtering *)
(* ===================================================================== *)

(** ** The order of [std::string] *)

Lemma ascii_compare_refl a : Ascii.compare a a = Eq.
Proof. unfold Ascii.compare. apply N.compare_refl. Qed.

Lemma ascii_compare_lt_trans a b c :
  Ascii.compare a b = Lt -> Ascii.compare b c = Lt -> Ascii.compare a c = Lt.
Proof.
  unfold Ascii.compare. rewrite !N.compare_lt_iff. apply N.lt_trans.
Qed.

Lemma string_compare_refl s : String.compare s s = Eq.
Proof. induction s as [|a s IH]; simpl; [reflexivity|]. now rewrite ascii_compare_refl. Qed.

Lemma string_compare_lt_trans s1 : forall s2 s3,
  String.compare s1 s2 = Lt -> String.compare s2 s3 = Lt -> String.compare s1 s3 = Lt.
Proof.
  induction s1 as [|a s1 IH]; intros [|b s2] [|c s3]; simpl; try congruence.
  destruct (Ascii.compare a b) eqn:Hab; try discriminate;
    destruct (Ascii.compare b c) eqn:Hbc; try discriminate; intros H1 H2.
  - apply Ascii.compare_eq_iff in Hab, Hbc. subst. rewrite ascii_compare_refl. eauto.
  - apply Ascii.compare_eq_iff in Hab. subst. now rewrite Hbc.
  - apply Ascii.compare_eq_iff in Hbc. subst. now rewrite Hab.
  - now rewrite (ascii_compare_lt_trans _ _ _ Hab Hbc).
Qed.

Lemma string_ltb_irrefl s : String.ltb s s = false.
Proof. unfold String.ltb. now rewrite string_compare_refl. Qed.

(** [a <= b] (that is [!(b < a)]) and [b < x] give [a < x]. *)
Lemma string_le_lt_trans a b x :
  String.ltb b a = false -> String.ltb b x = true -> String.ltb a x = true.
Proof.
  unfold String.ltb. intros Hle Hlt.
  destruct (String.compare b x) eqn:Hbx; try discriminate.
  rewrite String.compare_antisym in Hle.
  destruct (String.compare a b) eqn:Hab; simpl in Hle; try discriminate.
  - apply String.compare_eq_iff in Hab. subst. now rewrite Hbx.
  - now rewrite (string_compare_lt_trans _ _ _ Hab Hbx).
Qed.

(** [x <= a] and [a <= b] give [x <= b]. *)
Lemma string_le_trans x a b :
  String.ltb a x = false -> String.ltb b a = false -> String.ltb b x = false.
Proof.
  intros Hxa Hab. destruct (String.ltb b x) eqn:Hbx; [|reflexivity].
  rewrite (string_le_lt_trans _ _ _ Hab Hbx) in Hxa. discriminate.
Qed.

Lemma string_le_antisym a b :
  String.ltb a b = false -> String.ltb b a = false -> a = b.
Proof.
  unfold String.ltb. intros Hab Hba. rewrite String.compare_antisym in Hba.
  destruct (String.compare a b) eqn:E; simpl in *; try discriminate.
  now apply String.compare_eq_iff.
Qed.

Lemma strings_sorted_lookup c : strings_sorted c ->
  forall (i j : nat) a b, (i <= j)%nat -> c !! i = Some a -> c !! j = Some b ->
  String.ltb b a = false.
Proof.
  induction 1 as [|x l Hs IH Hall]; intros i j a b Hij Hi Hj; [discriminate|].
  destruct i as [|i]; destruct j as [|j]; simpl in *; try lia.
  - injection Hi as <-. injection Hj as <-. apply string_ltb_irrefl.
  - injection Hi as <-. rewrite Forall_forall in Hall.
    apply Hall. eapply list_elem_of_lookup_2. exact Hj.
  - apply (IH i j); [lia|assumption|assumption].
Qed.

(** ** The halving search *)

Lemma lower_bound_step c x first count fuel :
  (0 < count)%nat ->
  lower_bound c x first count (S fuel)
  = match c !! (first + Nat.div2 count)%nat with
    | Some v =>
        if String.ltb v x
        then lower_bound c x (S (first + Nat.div2 count))
               (count - (Nat.div2 count + 1))%nat fuel
        else lower_bound c x first (Nat.div2 count) fuel
    | None => first
    end.
Proof. intros H. destruct count; [lia|reflexivity]. Qed.

(** On a sorted vector [lower_bound] returns the partition point of [x]. *)
Lemma lower_bound_partition c x : strings_sorted c ->
  forall fuel first count,
  (count <= fuel)%nat -> (first + count <= List.length c)%nat ->
  (forall (j : nat) v, (j < first)%nat -> c !! j = Some v -> String.ltb v x = true) ->
  (forall (j : nat) v, (first + count <= j)%nat -> c !! j = Some v -> String.ltb v x = false) ->
  let r := lower_bound c x first count fuel in
  (r <= List.length c)%nat /\
  (forall (j : nat) v, (j < r)%nat -> c !! j = Some v -> String.ltb v x = true) /\
  (forall (j : nat) v, (r <= j)%nat -> c !! j = Some v -> String.ltb v x = false).
Proof.
  intros Hs. induction fuel as [|fuel IH]; intros first count Hfuel Hlen Hlo Hhi.
  - assert (count = 0%nat) by lia. subst. simpl.
    repeat split; [lia|exact Hlo|]. intros j v Hj. apply Hhi. lia.
  - destruct count as [|count'].
    + simpl. repeat split; [lia|exact Hlo|]. intros j v Hj. apply Hhi. lia.
    + remember (S count') as count eqn:Hcount.
      pose proof (Nat.lt_div2 count ltac:(lia)) as Hstep.
      intros r. subst r. rewrite lower_bound_step by lia.
      set (step := Nat.div2 count) in *. clearbody step.
      destruct (c !! (first + step)%nat) as [v0|] eqn:Hit.
      * destruct (String.ltb v0 x) eqn:Hv0.
        -- apply IH.
           ++ lia.
           ++ lia.
           ++ intros j v Hj Hjv.
              eapply string_le_lt_trans; [|exact Hv0].
              eapply (strings_sorted_lookup c Hs j (first + step)); eauto. lia.
           ++ intros j v Hj. apply Hhi. lia.
        -- apply IH.
           ++ lia.
           ++ lia.
           ++ exact Hlo.
           ++ intros j v Hj Hjv.
              eapply string_le_trans; [exact Hv0|].
              eapply (strings_sorted_lookup c Hs (first + step) j); eauto.
      * apply lookup_ge_None in Hit. lia.
Qed.

(** On a sorted vector [sorted_has] is membership. *)
Lemma sorted_has_In c x : strings_sorted c -> sorted_has c x = true <-> In x c.
Proof.
  intros Hs. unfold sorted_has.
  destruct (lower_bound_partition c x Hs (List.length c) 0 (List.length c))
    as (Hr & Hlo & Hhi); try lia.
  { intros j v Hj Hjv. apply lookup_lt_Some in Hjv. lia. }
  set (r := lower_bound c x 0 (List.length c) (List.length c)) in *.
  split.
  - destruct (c !! r) as [v|] eqn:Hv; [|discriminate].
    intros H. apply String.eqb_eq in H. subst v.
    apply list_elem_of_In. eapply list_elem_of_lookup_2. exact Hv.
  - intros Hin. apply list_elem_of_In, list_elem_of_lookup_1 in Hin as [j Hj].
    assert (Hrj : (r <= j)%nat).
    { destruct (le_lt_dec r j) as [|Hlt]; [assumption|].
      pose proof (Hlo j x Hlt Hj) as H. rewrite string_ltb_irrefl in H. discriminate. }
    destruct (c !! r) as [v|] eqn:Hv.
    + apply String.eqb_eq. apply string_le_antisym.
      * apply (Hhi r v); [lia|exact Hv].
      * apply (strings_sorted_lookup c Hs r j v x Hrj Hv Hj).
    + apply lookup_ge_None in Hv. apply lookup_lt_Some in Hj. lia.
Qed.

(** The search relies on the order: in a vector that is not sorted it can
    miss a string that is there. *)
Lemma sorted_has_unsorted :
  sorted_has ["b"; "a"]%string "a"%string = false /\
  sorted_has ["a"; "b"]%string "a"%string = true.
Proof. split; reflexivity. Qed.

Section FilterReport.

Variable tag_to_string : Z -> string.
Variable at_to_string : Z -> string.

(** C6. With sorted settings lists: if [violation_ignore] is not empty the
    report is kept iff its category is not in it, whatever [violation_report]
    holds; if [violation_ignore] is empty and [violation_report] is not, the
    report is kept iff its category is in [violation_report]; if both are
    empty it is kept. *)
Theorem filter_report_lists (st : settings) (h : die_heap) (report : odrv_report) (c : string) :
  strings_sorted (_violation_ignore st) ->
  strings_sorted (_violation_report st) ->
  category tag_to_string at_to_string h report = Some c ->
  exists keep, filter_report tag_to_string at_to_string st h report = Some keep /\
    (_violation_ignore st <> [] ->
       (keep = true <-> ~ In c (_violation_ignore st)) /\
       forall other,
         filter_report tag_to_string at_to_string
           {| _violation_ignore := _violation_ignore st; _violation_report := other |}
           h report = Some keep) /\
    (_violation_ignore st = [] -> _violation_report st <> [] ->
       (keep = true <-> In c (_violation_report st))) /\
    (_violation_ignore st = [] -> _violation_report st = [] -> keep = true).
Proof.
  intros Hsi Hsr Hc. unfold filter_report. rewrite Hc. simpl.
  eexists. split; [reflexivity|].
  pose proof (sorted_has_In _ c Hsi) as Hi.
  pose proof (sorted_has_In _ c Hsr) as Hr.
  destruct (_violation_ignore st) as [|i0 il] eqn:Ei.
  - rewrite bool_decide_eq_true_2 by reflexivity. simpl.
    split; [congruence|]. split.
    + intros _ Hne. rewrite bool_decide_eq_false_2 by exact Hne. simpl. exact Hr.
    + intros _ ->. reflexivity.
  - rewrite bool_decide_eq_false_2 by discriminate. simpl.
    split; [|split; intros; discriminate].
    intros _. split; [|reflexivity].
    rewrite negb_true_iff, <- Hi. split.
    + intros H1 H2. congruence.
    + now destruct (sorted_has (i0 :: il) c); [intros []|].
Qed.

End FilterReport.

(* ===================================================================== *)
(** * Properties of attribute values, sequences and ancestries *)
(* ===================================================================== *)

(** ** Attribute values *)

Lemma has_type_lor_same t f : f <> 0 -> has_type (Z.lor t f) f = true.
Proof.
  intros Hf. unfold has_type. apply negb_true_iff, Z.eqb_neq.
  rewrite Z.land_comm, Z.land_lor_distr_r, Z.land_diag.
  intros H. apply Z.lor_eq_0_iff in H. tauto.
Qed.

Lemma has_type_lor_other t f g : Z.land f g = 0 -> has_type (Z.lor t f) g = has_type t g.
Proof.
  intros Hfg. unfold has_type. now rewrite Z.land_lor_distr_l, Hfg, Z.lor_0_r.
Qed.

(** Setters and getters of an attribute value: a getter returns what its
    setter stored, converted to the width of the parameter; the flags add up,
    so a value set as a string and as an unsigned integer answers to both;
    [uint] and [reference] share [_uint], so each overwrites what the other
    stored; [passover()] drops every other flag, and the getters then fail
    their assertions; [has_none()] is false for every value, a
    default-constructed one included. *)
Theorem attribute_value_setters (v : attribute_value) (x o : Z) (s : pool_string) :
  av_get_uint (av_set_uint v x) = Some (size_t x) /\
  av_get_sint (av_set_sint v x) = Some (int32_t x) /\
  av_get_string (av_set_string v s) = Some s /\
  av_get_reference (av_set_reference v o) = Some (uint32_t o) /\
  av_get_uint (av_set_string (av_set_uint v x) s) = Some (size_t x) /\
  av_get_string (av_set_uint (av_set_string v s) x) = Some s /\
  av_get_uint (av_set_reference (av_set_uint v x) o) = Some (uint32_t o) /\
  av_get_reference (av_set_uint (av_set_reference v o) x) = Some (size_t x) /\
  av_get_uint (av_passover (av_set_uint v x)) = None /\
  av_get_string (av_passover (av_set_string v s)) = None /\
  av_has_none v = false /\
  av_has_none av_default = false.
Proof.
  unfold av_get_uint, av_get_sint, av_get_string, av_get_reference, av_has_none, av_has.
  cbn [av_set_uint av_set_sint av_set_string av_set_reference av_passover
       av_type av_uint av_int av_string].
  rewrite !has_type_lor_same by discriminate.
  rewrite !(has_type_lor_other _ type_string type_uint) by reflexivity.
  rewrite !(has_type_lor_other _ type_uint type_string) by reflexivity.
  rewrite !(has_type_lor_other _ type_reference type_uint) by reflexivity.
  rewrite !(has_type_lor_other _ type_uint type_reference) by reflexivity.
  rewrite !has_type_lor_same by discriminate.
  unfold has_type. rewrite Z.land_0_r. repeat split; reflexivity.
Qed.

(** [operator==] on values with the same flags is symmetric and transitive
    (and it is reflexive), but between values with different flags it is not
    symmetric: the flags of the left operand alone choose what is compared. *)
Theorem attribute_value_eqb_same_flags :
  (forall x y, av_type x = av_type y ->
     attribute_value_eqb x y = attribute_value_eqb y x) /\
  (forall x y z, av_type x = av_type y ->
     attribute_value_eqb x y = true -> attribute_value_eqb y z = true ->
     attribute_value_eqb x z = true) /\
  (exists x y, attribute_value_eqb x y = true /\ attribute_value_eqb y x = false).
Proof.
  split; [|split].
  - intros x y Ht. unfold attribute_value_eqb, av_has. rewrite Ht.
    destruct (has_type (av_type y) type_string).
    { unfold pool_string_eqb. apply bool_decide_ext. split; congruence. }
    destruct (has_type (av_type y) type_uint); [apply Z.eqb_sym|].
    destruct (has_type (av_type y) type_sint); apply Z.eqb_sym.
  - intros x y z Ht. unfold attribute_value_eqb, av_has. rewrite Ht.
    destruct (has_type (av_type y) type_string).
    { unfold pool_string_eqb. rewrite !bool_decide_eq_true. congruence. }
    destruct (has_type (av_type y) type_uint); [rewrite !Z.eqb_eq; congruence|].
    destruct (has_type (av_type y) type_sint); rewrite !Z.eqb_eq; congruence.
  - exists (av_set_string (av_set_uint av_default 1) None), (av_set_uint av_default 2).
    split; reflexivity.
Qed.

(** ** Attribute sequences *)

(** The search of an attribute sequence is by name and from the front, so
    [push_back] of an attribute whose name is already there changes no
    [get], [has] or [uint] of that name: the first one keeps answering. A
    name that was absent is found after its [push_back]. *)
Theorem attribute_sequence_first_wins (x : attribute_sequence) (a : attribute) (name : Z) :
  attribute_sequence_get (attribute_sequence_push_back x a) name
  = match attribute_sequence_get x name with
    | Some b => Some b
    | None => if _name a =? name then Some a else None
    end /\
  attribute_sequence_has (attribute_sequence_push_back x a) (_name a) = true /\
  (attribute_sequence_has x name = true ->
     attribute_sequence_uint (attribute_sequence_push_back x a) name
     = attribute_sequence_uint x name) /\
  (attribute_sequence_has x name = false -> name <> _name a ->
     attribute_sequence_has (attribute_sequence_push_back x a) name = false).
Proof.
  assert (Hfind : forall n, attribute_sequence_find (attribute_sequence_push_back x a) n
                 = match attribute_sequence_find x n with
                   | Some b => Some b
                   | None => if _name a =? n then Some a else None
                   end).
  { intros n. unfold attribute_sequence_find, attribute_sequence_push_back.
    induction x as [|b x IH]; simpl; [reflexivity|].
    destruct (_name b =? n); [reflexivity|exact IH]. }
  unfold attribute_sequence_has, attribute_sequence_uint, attribute_sequence_get.
  rewrite !Hfind, Z.eqb_refl.
  split; [reflexivity|]. split; [now destruct (attribute_sequence_find x (_name a))|].
  split.
  - now destruct (attribute_sequence_find x name).
  - destruct (attribute_sequence_find x name); [discriminate|]. intros _ Hne.
    destruct (Z.eqb_spec (_name a) name); [congruence|reflexivity].
Qed.

(** ** The order of ancestries *)

Section AncestryOrderMore.

Variable mem : arena_t.

(** Neither list is below the other iff, slot by slot, both can be read and
    have the same view. *)
Lemma ancestry_lt_loop_false_iff xs ys n : forall i,
  (ancestry_lt_loop mem xs ys i n = Some false /\
   ancestry_lt_loop mem ys xs i n = Some false) <->
  (forall j : nat, (i <= j < i + n)%nat ->
     exists px py v, xs !! j = Some px /\ ys !! j = Some py /\
       view mem px = Some v /\ view mem py = Some v).
Proof.
  induction n as [|n IH]; intros i; simpl.
  - split; [intros _ j Hj; lia|auto].
  - destruct (xs !! i) as [px|] eqn:Hx.
    2:{ split; [intros [H _]; discriminate|].
        intros H. destruct (H i ltac:(lia)) as (? & ? & ? & E & _). congruence. }
    destruct (ys !! i) as [py|] eqn:Hy.
    2:{ split; [intros [H _]; discriminate|].
        intros H. destruct (H i ltac:(lia)) as (? & ? & ? & _ & E & _). congruence. }
    destruct (view mem px) as [a|] eqn:Ha.
    2:{ split; [intros [H _]; discriminate|].
        intros H. destruct (H i ltac:(lia)) as (? & ? & ? & E1 & _ & E & _). congruence. }
    destruct (view mem py) as [b|] eqn:Hb.
    2:{ split; [intros [H _]; discriminate|].
        intros H. destruct (H i ltac:(lia)) as (? & ? & ? & _ & E2 & _ & E). congruence. }
    assert (Hsame : (forall j : nat, (i <= j < i + S n)%nat ->
                       exists px py v, xs !! j = Some px /\ ys !! j = Some py /\
                         view mem px = Some v /\ view mem py = Some v) -> a = b).
    { intros H. destruct (H i ltac:(lia)) as (? & ? & ? & E1 & E2 & V1 & V2). congruence. }
    destruct (String.ltb a b) eqn:Hab.
    { split; [intros [H _]; discriminate|].
      intros H. rewrite (Hsame H), string_ltb_irrefl in Hab. discriminate. }
    destruct (String.ltb b a) eqn:Hba.
    { split; [intros [_ H]; discriminate|].
      intros H. rewrite (Hsame H), string_ltb_irrefl in Hba. discriminate. }
    rewrite (IH (S i)). split.
    + intros H j Hj. destruct (decide (j = i)) as [->|Hne].
      * exists px, py, a. rewrite (string_le_antisym a b Hab Hba) at 2. auto.
      * apply H. lia.
    + intros H j Hj. apply H. lia.
Qed.

(** The loop returns when every slot it may read can be read. *)
Lemma ancestry_lt_loop_total xs ys n : forall i,
  (forall j : nat, (i <= j < i + n)%nat ->
     exists px v, xs !! j = Some px /\ view mem px = Some v) ->
  (forall j : nat, (i <= j < i + n)%nat ->
     exists py v, ys !! j = Some py /\ view mem py = Some v) ->
  is_Some (ancestry_lt_loop mem xs ys i n).
Proof.
  induction n as [|n IH]; intros i Hx Hy; simpl; [eauto|].
  destruct (Hx i ltac:(lia)) as (px & a & -> & ->).
  destruct (Hy i ltac:(lia)) as (py & b & -> & ->).
  destruct (String.ltb a b); [eauto|]. destruct (String.ltb b a); [eauto|].
  apply IH; intros j Hj; [apply Hx|apply Hy]; lia.
Qed.

(** The first list is below the second iff at some slot its name is the
    smaller one, every slot before it having been read with equal names. *)
Lemma ancestry_lt_loop_true_iff xs ys n : forall i,
  ancestry_lt_loop mem xs ys i n = Some true <->
  exists (k : nat) px py a b, (i <= k < i + n)%nat /\
    xs !! k = Some px /\ ys !! k = Some py /\
    view mem px = Some a /\ view mem py = Some b /\ String.ltb a b = true /\
    forall j : nat, (i <= j < k)%nat ->
      exists qx qy v, xs !! j = Some qx /\ ys !! j = Some qy /\
        view mem qx = Some v /\ view mem qy = Some v.
Proof.
  induction n as [|n IH]; intros i; simpl.
  - split; [discriminate|]. intros (k & ? & ? & ? & ? & Hk & _). lia.
  - assert (Hfirst : forall P : Prop,
      (exists (k : nat) px py a b, (i <= k < i + S n)%nat /\
         xs !! k = Some px /\ ys !! k = Some py /\
         view mem px = Some a /\ view mem py = Some b /\ String.ltb a b = true /\
         forall j : nat, (i <= j < k)%nat ->
           exists qx qy v, xs !! j = Some qx /\ ys !! j = Some qy /\
             view mem qx = Some v /\ view mem qy = Some v) ->
      (forall px py a b, xs !! i = Some px -> ys !! i = Some py ->
         view mem px = Some a -> view mem py = Some b -> P) -> P).
    { intros P (k & px & py & a & b & Hk & Hx & Hy & Va & Vb & _ & Hbefore) HP.
      destruct (decide (k = i)) as [->|Hne]; [eauto|].
      destruct (Hbefore i ltac:(lia)) as (qx & qy & v & Hqx & Hqy & Vx & Vy). eauto. }
    destruct (xs !! i) as [px|] eqn:Hx.
    2:{ split; [discriminate|]. intros H. apply (Hfirst _ H). intros; discriminate. }
    destruct (ys !! i) as [py|] eqn:Hy.
    2:{ split; [discriminate|]. intros H. apply (Hfirst _ H). intros; discriminate. }
    destruct (view mem px) as [a|] eqn:Ha.
    2:{ split; [discriminate|]. intros H. apply (Hfirst _ H). intros; congruence. }
    destruct (view mem py) as [b|] eqn:Hb.
    2:{ split; [discriminate|]. intros H. apply (Hfirst _ H). intros; congruence. }
    clear Hfirst.
    destruct (String.ltb a b) eqn:Hab.
    { split; [intros _|reflexivity].
      exists i, px, py, a, b. repeat split; try assumption; try lia. }
    destruct (String.ltb b a) eqn:Hba.
    { split; [discriminate|].
      intros (k & px' & py' & a' & b' & Hk & Hx' & Hy' & Va & Vb & Hlt & Hbefore).
      destruct (decide (k = i)) as [->|Hne].
      - assert (a' = a) by congruence. assert (b' = b) by congruence. subst. congruence.
      - destruct (Hbefore i ltac:(lia)) as (qx & qy & v & Hqx & Hqy & Vx & Vy).
        assert (a = b) by congruence. subst. rewrite string_ltb_irrefl in Hba. discriminate. }
    rewrite (IH (S i)). split.
    + intros (k & px' & py' & a' & b' & Hk & Hx' & Hy' & Va & Vb & Hlt & Hbefore).
      exists k, px', py', a', b'. repeat split; try assumption; try lia.
      intros j Hj. destruct (decide (j = i)) as [->|Hne].
      * exists px, py, a. rewrite (string_le_antisym a b Hab Hba) at 2. auto.
      * apply Hbefore. lia.
    + intros (k & px' & py' & a' & b' & Hk & Hx' & Hy' & Va & Vb & Hlt & Hbefore).
      destruct (decide (k = i)) as [->|Hne].
      { assert (a' = a) by congruence. assert (b' = b) by congruence. subst. congruence. }
      exists k, px', py', a', b'. repeat split; try assumption; try lia.
      intros j Hj. apply Hbefore. lia.
Qed.

Lemma ancestry_lt_false_iff (x y : object_ancestry) :
  (ancestry_lt mem x y = Some false /\ ancestry_lt mem y x = Some false) <->
  (_count x = _count y /\
   forall j : nat, (j < Z.to_nat (_count x))%nat ->
     exists px py v, _ancestors x !! j = Some px /\ _ancestors y !! j = Some py /\
       view mem px = Some v /\ view mem py = Some v).
Proof.
  unfold ancestry_lt. rewrite !Z.gtb_ltb.
  destruct (Z.ltb_spec (_count x) (_count y)) as [Hxy|Hxy].
  { split; [intros [H _]; discriminate|intros [H _]; lia]. }
  destruct (Z.ltb_spec (_count y) (_count x)) as [Hyx|Hyx].
  { split; [intros [_ H]; discriminate|intros [H _]; lia]. }
  assert (E : _count y = _count x) by lia. rewrite E.
  rewrite (ancestry_lt_loop_false_iff _ _ _ 0%nat). split.
  - intros H. split; [lia|]. intros j Hj. apply H. lia.
  - intros [_ H] j Hj. apply H. lia.
Qed.

Lemma ancestry_lt_total (x y : object_ancestry) :
  ancestry_readable mem x -> ancestry_readable mem y -> is_Some (ancestry_lt mem x y).
Proof.
  intros Hx Hy. unfold ancestry_lt. rewrite Z.gtb_ltb.
  destruct (Z.ltb_spec (_count x) (_count y)) as [Hxy|Hxy]; [eauto|].
  destruct (Z.ltb_spec (_count y) (_count x)) as [Hyx|Hyx]; [eauto|].
  assert (E : _count y = _count x) by lia.
  apply ancestry_lt_loop_total; intros j Hj; [apply Hx|apply Hy]; lia.
Qed.

(** [operator<] on ancestries: the shorter ancestry comes first whatever the
    names, and no name is read for it; two ancestries are equivalent (neither
    is less) exactly when they have the same count and, slot by slot, names
    with the same view in their first [_count] slots, so that the slots from
    [_count] on, the one [back()] returns included, play no part; and the
    comparison returns whenever the names of both can be read. Between
    ancestries of the same count the order is the lexicographic one: [x] is
    less than [y] exactly when, at the first slot where the names differ,
    the name of [x] is the smaller string. *)
Theorem ancestry_lt_order (x y : object_ancestry) :
  (_count x < _count y ->
     ancestry_lt mem x y = Some true /\ ancestry_lt mem y x = Some false) /\
  ((ancestry_lt mem x y = Some false /\ ancestry_lt mem y x = Some false) <->
   (_count x = _count y /\
    forall j : nat, (j < Z.to_nat (_count x))%nat ->
      exists px py v, _ancestors x !! j = Some px /\ _ancestors y !! j = Some py /\
        view mem px = Some v /\ view mem py = Some v)) /\
  (ancestry_readable mem x -> ancestry_readable mem y -> is_Some (ancestry_lt mem x y)) /\
  (_count x = _count y ->
     (ancestry_lt mem x y = Some true <->
      exists (k : nat) px py a b, (k < Z.to_nat (_count x))%nat /\
        _ancestors x !! k = Some px /\ _ancestors y !! k = Some py /\
        view mem px = Some a /\ view mem py = Some b /\ String.ltb a b = true /\
        forall j : nat, (j < k)%nat ->
          exists qx qy v, _ancestors x !! j = Some qx /\ _ancestors y !! j = Some qy /\
            view mem qx = Some v /\ view mem qy = Some v)).
Proof.
  split; [|split; [|split]].
  - intros H. unfold ancestry_lt. rewrite !Z.gtb_ltb.
    replace (_count x <? _count y) with true by (symmetry; apply Z.ltb_lt; lia).
    replace (_count y <? _count x) with false by (symmetry; apply Z.ltb_ge; lia).
    split; reflexivity.
  - apply ancestry_lt_false_iff.
  - apply ancestry_lt_total.
  - intros E. unfold ancestry_lt. rewrite Z.gtb_ltb, E, Z.ltb_irrefl.
    rewrite (ancestry_lt_loop_true_iff _ _ _ 0%nat). rewrite <- E.
    split; intros (k & px & py & a & b & Hk & Hx & Hy & Va & Vb & Hlt & Hbefore);
      exists k, px, py, a, b; repeat split; try assumption; try lia;
      intros j Hj; apply Hbefore; lia.
Qed.

End AncestryOrderMore.

(** ** The halving search, once more *)

(** On a sorted vector [std::lower_bound] returns the number of strings less
    than [x]: the index of the first occurrence of [x] if there is one, and
    the place where [x] would go if there is none. *)
Theorem lower_bound_counts_less (c : list string) (x : string) :
  strings_sorted c ->
  let r := lower_bound c x 0 (List.length c) (List.length c) in
  take r c = List.filter (fun v => String.ltb v x) c /\
  (forall j : nat, (j < r)%nat -> c !! j <> Some x) /\
  (In x c -> c !! r = Some x) /\
  (~ In x c -> sorted_has c x = false).
Proof.
  intros Hs r.
  destruct (lower_bound_partition c x Hs (List.length c) 0 (List.length c))
    as (Hr & Hlo & Hhi); try lia.
  { intros j v Hj Hjv. apply lookup_lt_Some in Hjv. lia. }
  fold r in Hr, Hlo, Hhi.
  assert (Hfilter : forall (l : list string) (P : string -> bool),
            (forall v, In v l -> P v = true) -> List.filter P l = l).
  { intros l P. induction l as [|v l IH]; intros H; simpl; [reflexivity|].
    rewrite (H v (or_introl eq_refl)). f_equal. apply IH. intros w Hw. apply H. now right. }
  assert (Hnone : forall (l : list string) (P : string -> bool),
            (forall v, In v l -> P v = false) -> List.filter P l = []).
  { intros l P. induction l as [|v l IH]; intros H; simpl; [reflexivity|].
    rewrite (H v (or_introl eq_refl)). apply IH. intros w Hw. apply H. now right. }
  split; [|split; [|split]].
  - rewrite <- (take_drop r c) at 2. rewrite List.filter_app.
    rewrite Hfilter, Hnone; [now rewrite app_nil_r| |].
    + intros v Hv. apply list_elem_of_In, list_elem_of_lookup_1 in Hv as [j Hj].
      rewrite lookup_drop in Hj. apply (Hhi (r + j)%nat v); [lia|exact Hj].
    + intros v Hv. apply list_elem_of_In, list_elem_of_lookup_1 in Hv as [j Hj].
      apply lookup_take_Some in Hj as [Hj Hlt]. apply (Hlo j v Hlt Hj).
  - intros j Hj Hx. pose proof (Hlo j x Hj Hx) as H.
    rewrite string_ltb_irrefl in H. discriminate.
  - intros Hin. pose proof (proj2 (sorted_has_In c x Hs) Hin) as Hhas.
    unfold sorted_has in Hhas. fold r in Hhas.
    destruct (c !! r) as [v|]; [|discriminate].
    apply String.eqb_eq in Hhas. now subst.
  - intros Hnin. destruct (sorted_has c x) eqn:E; [|reflexivity].
    apply (sorted_has_In c x Hs) in E. contradiction.
Qed.

(* ===================================================================== *)
(** * Properties of attribute conflicts *)
(* ===================================================================== *)

Lemma pool_string_eqb_refl x : pool_string_eqb x x = true.
Proof. unfold pool_string_eqb. now apply bool_decide_eq_true_2. Qed.

Lemma attribute_value_eqb_refl x : attribute_value_eqb x x = true.
Proof.
  unfold attribute_value_eqb.
  destruct (av_has x type_string); [apply pool_string_eqb_refl|].
  destruct (av_has x type_uint); [apply Z.eqb_refl|].
  destruct (av_has x type_sint); apply Z.eqb_refl.
Qed.

Lemma attribute_eqb_refl x : attribute_eqb x x = true.
Proof.
  unfold attribute_eqb. now rewrite !Z.eqb_refl, attribute_value_eqb_refl.
Qed.

Section AttributeConflict.

Variable nonfatal_attribute : Z -> bool.
Variable mem : arena_t.

(** When no fatal name occurs twice, the search by name finds the attribute
    itself. *)
Lemma find_by_name_self (x : attribute_sequence) (a : attribute) :
  List.NoDup (fatal_names nonfatal_attribute x) -> In a x -> nonfatal_attribute (_name a) = false ->
  List.find (fun b => _name a =? _name b) x = Some a.
Proof.
  unfold fatal_names. induction x as [|b x IH]; intros Hnd Hin Hf; [destruct Hin|].
  simpl. destruct (_name a =? _name b) eqn:Hab.
  - apply Z.eqb_eq in Hab. destruct Hin as [->|Hin]; [reflexivity|].
    exfalso. simpl in Hnd. rewrite <- Hab, Hf in Hnd. simpl in Hnd.
    apply List.NoDup_cons_iff in Hnd as [Hnotin _]. apply Hnotin.
    rewrite <- Hab. apply in_map. apply filter_In. split; [exact Hin|now rewrite Hf].
  - destruct Hin as [->|Hin]; [rewrite Z.eqb_refl in Hab; discriminate|].
    apply IH; [|exact Hin|exact Hf].
    simpl in Hnd. destruct (negb (nonfatal_attribute (_name b))); [|exact Hnd].
    simpl in Hnd. now apply List.NoDup_cons_iff in Hnd as [_ Hnd].
Qed.

Lemma conflict_in_x_self (x xs : attribute_sequence) :
  List.NoDup (fatal_names nonfatal_attribute x) -> (forall a, In a xs -> In a x) ->
  conflict_in_x nonfatal_attribute mem xs x = None.
Proof.
  intros Hnd. induction xs as [|a xs IH]; intros Hsub; [reflexivity|].
  simpl. destruct (nonfatal_attribute (_name a)) eqn:Hf.
  - apply IH. intros b Hb. apply Hsub. now right.
  - rewrite (find_by_name_self x a Hnd (Hsub a (or_introl eq_refl)) Hf).
    rewrite attribute_eqb_refl.
    destruct ((_name a =? at_type) && type_equivalent mem a a);
      apply IH; intros b Hb; apply Hsub; now right.
Qed.

Lemma conflict_in_y_self (x ys : attribute_sequence) :
  (forall a, In a ys -> In a x) ->
  conflict_in_y nonfatal_attribute ys x = None.
Proof.
  induction ys as [|a ys IH]; intros Hsub; [reflexivity|].
  simpl. destruct (nonfatal_attribute (_name a)).
  - apply IH. intros b Hb. apply Hsub. now right.
  - destruct (List.find (fun b => _name a =? _name b) x) eqn:Hfind.
    + apply IH. intros b Hb. apply Hsub. now right.
    + exfalso. pose proof (List.find_none _ _ Hfind a (Hsub a (or_introl eq_refl))) as H.
      simpl in H. rewrite Z.eqb_refl in H. discriminate.
Qed.

(** C2 (as amended). [find_attribute_conflict(X, X)] is the sentinel [none]
    for every attribute sequence [X] in which no fatal attribute name occurs
    twice. *)
Theorem find_attribute_conflict_refl (x : attribute_sequence) :
  List.NoDup (fatal_names nonfatal_attribute x) ->
  find_attribute_conflict nonfatal_attribute mem x x = at_none.
Proof.
  intros Hnd. unfold find_attribute_conflict.
  rewrite (conflict_in_x_self x x Hnd) by auto.
  now rewrite (conflict_in_y_self x x) by auto.
Qed.

End AttributeConflict.

(* ===================================================================== *)
(** * Properties of the string pool *)
(* ===================================================================== *)

Lemma substring_full s : substring 0 (String.length s) s = s.
Proof. induction s as [|a s IH]; simpl; [reflexivity|now rewrite IH]. Qed.

Section StringPoolProperties.

Variable murmur3_64 : string -> Z.

Lemma fits_uint32_size s :
  fits_uint32 s -> uint32_t (Z.of_nat (String.length s)) = Z.of_nat (String.length s).
Proof.
  unfold fits_uint32, prefix_k, uint32_t, wrap. intros H. apply Z.mod_small. lia.
Qed.

Lemma fits_uint32_tsz s :
  fits_uint32 s ->
  uint32_t (Z.of_nat (String.length s) + prefix_k + 1) = Z.of_nat (String.length s) + 13.
Proof.
  unfold fits_uint32, prefix_k, uint32_t, wrap. intros H. rewrite Z.mod_small; lia.
Qed.

Lemma fits_uint32_hash s :
  fits_uint32 s -> string_view_hash murmur3_64 s = size_t (murmur3_64 s).
Proof.
  intros H. unfold string_view_hash. rewrite fits_uint32_size by exact H.
  now rewrite Nat2Z.id, substring_full.
Qed.

(** [pool::empool] returns a pointer no block was at, and keeps the
    allocator consistent. *)
Lemma pool_empool_fresh idx pl mem s :
  fits_uint32 s -> pool_alloc_ok idx pl mem ->
  exists pond off pl',
    pool_empool murmur3_64 idx pl mem s
    = Some ((idx, pond, off), pl', <[(idx, pond, off) := block_of murmur3_64 s]> mem) /\
    mem !! (idx, pond, off) = None /\
    pool_alloc_ok idx pl' (<[(idx, pond, off) := block_of murmur3_64 s]> mem).
Proof.
  intros Hfit Hok. unfold pool_empool.
  rewrite (fits_uint32_size s Hfit), (fits_uint32_tsz s Hfit), Nat2Z.id, substring_full.
  fold (block_of murmur3_64 s).
  set (tsz := Z.of_nat (String.length s) + 13).
  assert (Htsz : 13 <= tsz) by (unfold tsz; lia).
  unfold pool_alloc_ok in Hok.
  destruct (pool_n pl <? tsz) eqn:Hn.
  - (* a new pond *)
    simpl. exists (List.length (pool_ponds pl)), (0 + prefix_k). eexists.
    split; [reflexivity|].
    assert (Hfresh : forall off, mem !! (idx, List.length (pool_ponds pl), off) = None).
    { intros off. destruct (pool_p pl) as [[cp coff]|].
      - destruct Hok as [Hcp Hblocks].
        destruct (mem !! (idx, List.length (pool_ponds pl), off)) eqn:E; [|reflexivity].
        destruct (Hblocks _ _ (mk_is_Some _ _ E)) as [Hlt|[Heq _]]; lia.
      - apply Hok. }
    split; [apply Hfresh|].
    unfold pool_alloc_ok; simpl. split.
    + rewrite length_app. simpl. lia.
    + intros pond off [b Hb].
      destruct (decide ((idx, pond, off) = (idx, List.length (pool_ponds pl), 0 + prefix_k)))
        as [Heq|Hne].
      * injection Heq as -> ->. right. split; [reflexivity|lia].
      * rewrite lookup_insert_ne in Hb by congruence.
        left. destruct (pool_p pl) as [[cp coff]|].
        -- destruct Hok as [Hcp Hblocks].
           destruct (Hblocks _ _ (mk_is_Some _ _ Hb)) as [Hlt|[Heq _]]; lia.
        -- destruct Hok as [_ Hnone]. rewrite Hnone in Hb. discriminate.
  - (* the current pond *)
    apply Z.ltb_ge in Hn.
    destruct (pool_p pl) as [[cp coff]|] eqn:Hp.
    + destruct Hok as [Hcp Hblocks].
      exists cp, (coff + prefix_k). eexists. split; [reflexivity|].
      split.
      * destruct (mem !! (idx, cp, coff + prefix_k)) eqn:E; [|reflexivity].
        destruct (Hblocks _ _ (mk_is_Some _ _ E)) as [Hlt|[_ Hlt]]; lia.
      * unfold pool_alloc_ok; simpl. split; [exact Hcp|].
        intros pond off [b Hb].
        destruct (decide ((idx, pond, off) = (idx, cp, coff + prefix_k))) as [Heq|Hne].
        -- injection Heq as -> ->. right. split; [reflexivity|lia].
        -- rewrite lookup_insert_ne in Hb by congruence.
           destruct (Hblocks _ _ (mk_is_Some _ _ Hb)) as [Hlt|[-> Hlt]];
             [now left|right; split; [reflexivity|lia]].
    + destruct Hok as [Hzero _]. lia.
Qed.

Lemma pool_alloc_ok_other (i idx pond : nat) (off : Z) (b : block) (pl : pool)
    (mem : gmap arena_ptr block) :
  i <> idx -> pool_alloc_ok i pl mem -> pool_alloc_ok i pl (<[(idx, pond, off) := b]> mem).
Proof.
  intros Hne. unfold pool_alloc_ok. destruct (pool_p pl) as [[cp coff]|].
  - intros [Hcp Hblocks]. split; [exact Hcp|].
    intros pond' off' Hs. apply Hblocks.
    rewrite lookup_insert_ne in Hs by congruence. exact Hs.
  - intros [Hn Hnone]. split; [exact Hn|].
    intros pond' off'. rewrite lookup_insert_ne by congruence. apply Hnone.
Qed.

Lemma pool_inv_init : pool_inv murmur3_64 pool_init.
Proof.
  split.
  - reflexivity.
  - intros k p H. simpl in H. rewrite lookup_empty in H. discriminate.
  - intros p b H. simpl in H. rewrite lookup_empty in H. discriminate.
  - intros i pl H. unfold pool_init, pools in H. apply lookup_replicate in H as [-> _].
    unfold pool_alloc_ok; simpl. split; [reflexivity|]. intros. apply lookup_empty.
Qed.

Lemma nonempty_length s : s <> EmptyString -> (0 < String.length s)%nat.
Proof. destruct s; [congruence|simpl; lia]. Qed.

(** The view of a handle whose block holds [s]. *)
Lemma view_of_block (mem : gmap arena_ptr block) (p : arena_ptr) (b : block) :
  mem !! p = Some b -> b_size b = Z.of_nat (String.length (b_bytes b)) ->
  0 < b_size b -> b_size b < 100000 ->
  pool_string_view mem (Some p) = Some (b_bytes b).
Proof.
  intros Hb Hsz Hpos Hmax. unfold pool_string_view, get_size. rewrite Hb.
  replace (0 <? b_size b) with true by (symmetry; apply Z.ltb_lt; lia).
  replace (b_size b <? 100000) with true by (symmetry; apply Z.ltb_lt; lia).
  simpl. now rewrite Hsz, Nat2Z.id, substring_full.
Qed.

(** The ways through [empool] for a string that is not empty. *)
Lemma empool_found st s c :
  s <> EmptyString -> keys st !! string_view_hash murmur3_64 s = Some c ->
  pool_string_view (arena st) (Some c) = Some s ->
  empool murmur3_64 st s = Some (Some c, st).
Proof.
  intros Hne Hk Hv. unfold empool.
  destruct (String.eqb s EmptyString) eqn:E; [apply String.eqb_eq in E; congruence|].
  rewrite Hk. unfold found_key. rewrite Hv. now rewrite String.eqb_refl.
Qed.

Lemma empool_new st s :
  pool_inv murmur3_64 st -> fits_uint32 s -> s <> EmptyString ->
  keys st !! string_view_hash murmur3_64 s = None ->
  exists p st',
    empool murmur3_64 st s = Some (Some p, st') /\
    arena st !! p = None /\
    keys st' = (<[string_view_hash murmur3_64 s := p]> (keys st)) /\
    arena st' = (<[p := block_of murmur3_64 s]> (arena st)) /\
    pool_inv murmur3_64 st'.
Proof.
  intros Hinv Hfit Hne Hk. unfold empool.
  destruct (String.eqb s EmptyString) eqn:E; [apply String.eqb_eq in E; congruence|].
  rewrite Hk.
  set (h := string_view_hash murmur3_64 s) in *.
  set (index := Z.to_nat (h mod pool_count_k)).
  assert (Hidx : (index < List.length (pools st))%nat).
  { rewrite (inv_pools _ _ Hinv). unfold index, pool_count_k.
    pose proof (Z.mod_pos_bound h 23 ltac:(lia)). lia. }
  destruct (lookup_lt_is_Some_2 _ _ Hidx) as [pl Hpl]. rewrite Hpl.
  destruct (pool_empool_fresh index pl (arena st) s Hfit (inv_alloc _ _ Hinv _ _ Hpl))
    as (pond & off & pl' & Hemp & Hfresh & Hok').
  rewrite Hemp. eexists _, _. split; [reflexivity|]. simpl.
  split; [exact Hfresh|]. split; [reflexivity|]. split; [reflexivity|].
  split; simpl.
  - rewrite length_insert. apply (inv_pools _ _ Hinv).
  - intros k p Hkp. destruct (decide (h = k)) as [<-|Hhk].
    + rewrite lookup_insert_eq in Hkp. injection Hkp as <-.
      exists (block_of murmur3_64 s). split; [apply lookup_insert_eq|reflexivity].
    + rewrite lookup_insert_ne in Hkp by exact Hhk.
      destruct (inv_keys _ _ Hinv _ _ Hkp) as (b & Hb & Hbh).
      exists b. split; [|exact Hbh].
      rewrite lookup_insert_ne; [exact Hb|]. intros Heq. subst p.
      rewrite Hfresh in Hb. discriminate.
  - intros p b Hb. destruct (decide ((index, pond, off) = p)) as [<-|Hp].
    + rewrite lookup_insert_eq in Hb. injection Hb as <-. simpl.
      split; [apply lookup_insert_eq|].
      split; [apply fits_uint32_hash; exact Hfit|].
      split; [reflexivity|]. pose proof (nonempty_length s Hne). lia.
    + rewrite lookup_insert_ne in Hb by exact Hp.
      destruct (inv_arena _ _ Hinv _ _ Hb) as (Hkb & Hrest).
      split; [|exact Hrest].
      rewrite lookup_insert_ne; [exact Hkb|]. intros Heq. fold h in Heq. congruence.
  - intros i pl0 Hi. destruct (decide (index = i)) as [<-|Hne'].
    + rewrite list_lookup_insert_eq in Hi by exact Hidx. injection Hi as <-. exact Hok'.
    + rewrite list_lookup_insert_ne in Hi by exact Hne'.
      apply pool_alloc_ok_other; [congruence|]. apply (inv_alloc _ _ Hinv _ _ Hi).
Qed.

(** A call of [empool] that returns keeps the invariant. *)
Lemma empool_inv st s ps st' :
  pool_inv murmur3_64 st -> fits_uint32 s ->
  empool murmur3_64 st s = Some (ps, st') -> pool_inv murmur3_64 st'.
Proof.
  intros Hinv Hfit He.
  destruct (String.eqb s EmptyString) eqn:E.
  - unfold empool in He. rewrite E in He. now injection He as <- <-.
  - assert (Hne : s <> EmptyString) by (intros ->; discriminate).
    destruct (keys st !! string_view_hash murmur3_64 s) as [c|] eqn:Hk.
    + unfold empool in He. rewrite E, Hk in He.
      destruct (found_key st s c); [|discriminate]. now injection He as <- <-.
    + destruct (empool_new st s Hinv Hfit Hne Hk) as (p & st1 & He1 & _ & _ & _ & Hinv1).
      rewrite He1 in He. now injection He as <- <-.
Qed.

Lemma pool_reachable_inv st : pool_reachable murmur3_64 st -> pool_inv murmur3_64 st.
Proof.
  induction 1 as [|st src ps st' _ IH Hfit He]; [apply pool_inv_init|].
  exact (empool_inv _ _ _ _ IH Hfit He).
Qed.

(** Under the invariant no two slots hold the same content, and no slot holds
    the empty string. *)
Lemma pool_inv_one_slot st p q b b' :
  pool_inv murmur3_64 st ->
  arena st !! p = Some b -> arena st !! q = Some b' -> b_bytes b = b_bytes b' -> p = q.
Proof.
  intros Hinv Hp Hq Hbytes.
  destruct (inv_arena _ _ Hinv _ _ Hp) as (Hkp & Hhp & _).
  destruct (inv_arena _ _ Hinv _ _ Hq) as (Hkq & Hhq & _).
  rewrite Hhp, Hbytes, <- Hhq, Hkq in Hkp. congruence.
Qed.

Lemma pool_inv_no_empty_slot st q b :
  pool_inv murmur3_64 st -> arena st !! q = Some b -> b_bytes b <> EmptyString.
Proof.
  intros Hinv Hq Hb. destruct (inv_arena _ _ Hinv _ _ Hq) as (_ & _ & Hsz & Hpos).
  rewrite Hb in Hsz. simpl in Hsz. lia.
Qed.


(** Two handles compare equal iff they hold the same pointer. *)
Lemma pool_string_eqb_eq (x y : pool_string) : pool_string_eqb x y = true <-> x = y.
Proof. unfold pool_string_eqb. apply bool_decide_eq_true. Qed.

(** C3 (as amended). From a state the pool can reach, for a string below
    the sanity bound of [get_size] whose hash no other interned content has:
    [empool(s)] returns; a second call returns the same handle (so the two
    compare equal and have the same hash) and changes nothing, no slot is
    added; the handle views as [s]; handles compare equal iff they point to
    the same slot; no two slots hold the same content; the empty string is
    the null handle and has no slot; any other [s] has exactly one slot. *)
Theorem empool_idempotent_one_slot (st : pool_state) (s : string) :
  pool_reachable murmur3_64 st ->
  Z.of_nat (String.length s) < 100000 ->
  no_collision murmur3_64 st s ->
  exists ps st1,
    empool murmur3_64 st s = Some (ps, st1) /\
    empool murmur3_64 st1 s = Some (ps, st1) /\
    pool_string_eqb ps ps = true /\
    pool_string_view (arena st1) ps = Some s /\
    (exists hv, pool_string_hash (arena st1) ps = Some hv /\
       (s <> EmptyString -> hv = string_view_hash murmur3_64 s)) /\
    (forall x y : pool_string, pool_string_eqb x y = true <-> x = y) /\
    (forall p q b b', arena st1 !! p = Some b -> arena st1 !! q = Some b' ->
       b_bytes b = b_bytes b' -> p = q) /\
    (forall q b', arena st1 !! q = Some b' -> b_bytes b' <> EmptyString) /\
    (s = EmptyString -> ps = None /\ st1 = st) /\
    (s <> EmptyString ->
       exists p b, ps = Some p /\ arena st1 !! p = Some b /\ b_bytes b = s /\
         forall q b', arena st1 !! q = Some b' -> b_bytes b' = s -> q = p).
Proof.
  intros Hreach Hlen Hnc.
  pose proof (pool_reachable_inv st Hreach) as Hinv.
  assert (Hfit : fits_uint32 s) by (unfold fits_uint32, prefix_k; lia).
  assert (Hcommon : forall ps st1,
    pool_inv murmur3_64 st1 ->
    empool murmur3_64 st s = Some (ps, st1) ->
    empool murmur3_64 st1 s = Some (ps, st1) ->
    pool_string_view (arena st1) ps = Some s ->
    (exists hv, pool_string_hash (arena st1) ps = Some hv /\
       (s <> EmptyString -> hv = string_view_hash murmur3_64 s)) ->
    (s = EmptyString -> ps = None /\ st1 = st) ->
    (s <> EmptyString -> exists p b, ps = Some p /\ arena st1 !! p = Some b /\ b_bytes b = s) ->
    exists ps st1,
    empool murmur3_64 st s = Some (ps, st1) /\
    empool murmur3_64 st1 s = Some (ps, st1) /\
    pool_string_eqb ps ps = true /\
    pool_string_view (arena st1) ps = Some s /\
    (exists hv, pool_string_hash (arena st1) ps = Some hv /\
       (s <> EmptyString -> hv = string_view_hash murmur3_64 s)) /\
    (forall x y : pool_string, pool_string_eqb x y = true <-> x = y) /\
    (forall p q b b', arena st1 !! p = Some b -> arena st1 !! q = Some b' ->
       b_bytes b = b_bytes b' -> p = q) /\
    (forall q b', arena st1 !! q = Some b' -> b_bytes b' <> EmptyString) /\
    (s = EmptyString -> ps = None /\ st1 = st) /\
    (s <> EmptyString ->
       exists p b, ps = Some p /\ arena st1 !! p = Some b /\ b_bytes b = s /\
         forall q b', arena st1 !! q = Some b' -> b_bytes b' = s -> q = p)).
  { intros ps st1 Hinv1 H1 H2 Hview Hhash Hempty Hslot. exists ps, st1.
    split; [exact H1|]. split; [exact H2|].
    split; [apply pool_string_eqb_refl|]. split; [exact Hview|]. split; [exact Hhash|].
    split; [exact pool_string_eqb_eq|].
    split; [intros p q b b'; apply (pool_inv_one_slot st1 p q b b' Hinv1)|].
    split; [intros q b'; apply (pool_inv_no_empty_slot st1 q b' Hinv1)|].
    split; [exact Hempty|].
    intros Hne. destruct (Hslot Hne) as (p & b & -> & Hb & Hbytes).
    exists p, b. repeat split; try assumption.
    intros q b' Hq Hq'. apply (pool_inv_one_slot st1 q p b' b Hinv1 Hq Hb). congruence. }
  destruct (String.eqb s EmptyString) eqn:E.
  - (* the empty string *)
    apply String.eqb_eq in E. subst s.
    apply (Hcommon None st Hinv); try reflexivity; [|now split|congruence].
    exists 0. split; [reflexivity|congruence].
  - assert (Hne : s <> EmptyString) by (intros ->; discriminate).
    pose proof (nonempty_length s Hne) as Hpos.
    destruct (keys st !! string_view_hash murmur3_64 s) as [c|] eqn:Hk.
    + (* the key is there already *)
      destruct (inv_keys _ _ Hinv _ _ Hk) as (b & Hb & Hbh).
      pose proof (Hnc _ _ Hb Hbh) as Hbytes.
      destruct (inv_arena _ _ Hinv _ _ Hb) as (_ & _ & Hsz & Hszpos).
      assert (Hview : pool_string_view (arena st) (Some c) = Some s).
      { rewrite <- Hbytes. apply view_of_block; try assumption. rewrite Hsz, Hbytes. lia. }
      pose proof (empool_found st s c Hne Hk Hview) as He.
      apply (Hcommon (Some c) st Hinv He He Hview).
      * exists (b_hash b). simpl. unfold get_hash. rewrite Hb. split; [reflexivity|].
        intros _. exact Hbh.
      * congruence.
      * intros _. now exists c, b.
    + (* a new slot *)
      destruct (empool_new st s Hinv Hfit Hne Hk) as (p & st1 & He & Hfresh & Hk1 & Ha1 & Hinv1).
      assert (Hb1 : arena st1 !! p = Some (block_of murmur3_64 s))
        by (rewrite Ha1; apply lookup_insert_eq).
      assert (Hview : pool_string_view (arena st1) (Some p) = Some s).
      { apply (view_of_block (arena st1) p (block_of murmur3_64 s) Hb1); simpl; [reflexivity|lia|lia]. }
      assert (Hk1' : keys st1 !! string_view_hash murmur3_64 s = Some p)
        by (rewrite Hk1; apply lookup_insert_eq).
      apply (Hcommon (Some p) st1 Hinv1 He (empool_found st1 s p Hne Hk1' Hview) Hview).
      * exists (string_view_hash murmur3_64 s). simpl. unfold get_hash. rewrite Hb1.
        split; reflexivity.
      * congruence.
      * intros _. now exists p, (block_of murmur3_64 s).
Qed.

End StringPoolProperties.

(** C3 (as stated) fails at the empty string: [empool] returns the null
    handle for it whatever the hash function, and creates no slot, so the
    interned content [""] has no slot rather than exactly one. *)
Lemma empool_empty_string_has_no_slot :
  (forall murmur3_64, empool murmur3_64 pool_init EmptyString = Some (None, pool_init)) /\
  arena pool_init = ∅.
Proof. split; reflexivity. Qed.

(** The keys of the pool are hashes: under a hash function that gives two
    strings the same hash (here their length), the second string finds the
    slot of the first, and [assert(ps.view() == src)] fails. *)
Lemma empool_collision_fails_assertion :
  exists ps st1, empool length_hash pool_init "ab" = Some (ps, st1) /\
    empool length_hash st1 "cd" = None.
Proof. eexists _, _. split; reflexivity. Qed.

(** ** Symbols and attribute conflicts, once more *)

Lemma string_length_append (p s : string) :
  String.length (p ++ s) = (String.length p + String.length s)%nat.
Proof. induction p as [|a p IH]; simpl; [reflexivity|now rewrite IH]. Qed.

Lemma substring_after_prefix (p s : string) :
  substring (String.length p) (String.length s) (p ++ s) = s.
Proof. induction p as [|a p IH]; simpl; [apply substring_full|exact IH]. Qed.

(** [path_to_symbol] drops seven characters, whatever they are, and gives the
    rest; a path of fewer than seven characters, or of exactly seven, has the
    empty symbol. The prefix is not looked at. *)
Theorem path_to_symbol_drops_seven (prefix sym path : string) :
  (String.length prefix = 7%nat -> path_to_symbol (prefix ++ sym) = sym) /\
  ((String.length path <= 7)%nat -> path_to_symbol path = EmptyString).
Proof.
  unfold path_to_symbol. split.
  - intros Hp. rewrite string_length_append, Hp.
    replace (7 + String.length sym <? 7)%nat with false
      by (symmetry; apply Nat.ltb_ge; lia).
    replace (7 + String.length sym - 7)%nat with (String.length sym) by lia.
    rewrite <- Hp. apply substring_after_prefix.
  - intros Hp. destruct (String.length path <? 7)%nat eqn:E; [reflexivity|].
    apply Nat.ltb_ge in E. assert (H7 : String.length path = 7%nat) by lia.
    rewrite H7. simpl.
    destruct path as [|c0 [|c1 [|c2 [|c3 [|c4 [|c5 [|c6 [|c7 t]]]]]]]]; try discriminate.
    reflexivity.
Qed.

Section AttributeConflictMore.

Variable nonfatal_attribute : Z -> bool.
Variable mem : arena_t.

(** [type_equivalent] is symmetric, and an attribute is equivalent to itself
    exactly when it holds a reference or a string. *)
Lemma type_equivalent_symmetric (x y : attribute) :
  type_equivalent mem x y = type_equivalent mem y x /\
  type_equivalent mem x x = attribute_has x type_reference || attribute_has x type_string.
Proof.
  unfold type_equivalent. split.
  - rewrite (Z.eqb_sym (attribute_reference x)).
    rewrite (Z.eqb_sym (string_hash mem (av_string (_value x)))).
    destruct (attribute_has x type_reference), (attribute_has y type_reference),
      (attribute_has x type_string), (attribute_has y type_string); simpl;
      try reflexivity;
      destruct (attribute_reference y =? attribute_reference x); reflexivity.
  - rewrite !Z.eqb_refl.
    destruct (attribute_has x type_reference), (attribute_has x type_string); reflexivity.
Qed.

(** The name [conflict_in_x] or [conflict_in_y] returns is the name of a
    fatal attribute of the sequence it runs over. *)
Lemma conflict_in_x_name xs y n :
  conflict_in_x nonfatal_attribute mem xs y = Some n ->
  nonfatal_attribute n = false /\ In n (map _name xs).
Proof.
  induction xs as [|a xs IH]; simpl; [discriminate|].
  destruct (nonfatal_attribute (_name a)) eqn:Hf.
  - intros H. destruct (IH H). auto.
  - destruct (List.find (fun b => _name a =? _name b) y) as [b|].
    + destruct ((_name a =? at_type) && type_equivalent mem a b).
      * intros H. destruct (IH H). auto.
      * destruct (attribute_eqb a b).
        -- intros H. destruct (IH H). auto.
        -- intros [= <-]. auto.
    + intros [= <-]. auto.
Qed.

Lemma conflict_in_y_name ys x n :
  conflict_in_y nonfatal_attribute ys x = Some n ->
  nonfatal_attribute n = false /\ In n (map _name ys) /\ ~ In n (map _name x).
Proof.
  induction ys as [|a ys IH]; simpl; [discriminate|].
  destruct (nonfatal_attribute (_name a)) eqn:Hf.
  - intros H. destruct (IH H) as (? & ? & ?). auto.
  - destruct (List.find (fun b => _name a =? _name b) x) as [b|] eqn:Hfind.
    + intros H. destruct (IH H) as (? & ? & ?). auto.
    + intros [= <-]. split; [exact Hf|]. split; [now left|].
      intros Hin. apply in_map_iff in Hin as (b & Hb & Hin).
      pose proof (List.find_none _ _ Hfind b Hin) as H. simpl in H.
      rewrite Hb, Z.eqb_refl in H. discriminate.
Qed.

(** Searching by a fatal name skips the nonfatal attributes. *)
Lemma find_fatal_filter (l : attribute_sequence) (n : Z) :
  nonfatal_attribute n = false ->
  List.find (fun b => n =? _name b)
    (List.filter (fun a => negb (nonfatal_attribute (_name a))) l)
  = List.find (fun b => n =? _name b) l.
Proof.
  intros Hn. induction l as [|b l IH]; simpl; [reflexivity|].
  destruct (nonfatal_attribute (_name b)) eqn:Hb; simpl.
  - destruct (Z.eqb_spec n (_name b)) as [->|]; [congruence|exact IH].
  - now rewrite IH.
Qed.

(** [find_attribute_conflict] never blames a nonfatal attribute, and the
    nonfatal attributes play no part in its answer: the name it returns is
    the sentinel or the name of a fatal attribute of one of the sequences,
    and removing every nonfatal attribute from both sequences changes
    nothing. *)
Theorem find_attribute_conflict_fatal_only (x y : attribute_sequence) :
  let fatal := List.filter (fun a => negb (nonfatal_attribute (_name a))) in
  find_attribute_conflict nonfatal_attribute mem (fatal x) (fatal y)
  = find_attribute_conflict nonfatal_attribute mem x y /\
  (find_attribute_conflict nonfatal_attribute mem x y <> at_none ->
     nonfatal_attribute (find_attribute_conflict nonfatal_attribute mem x y) = false /\
     (In (find_attribute_conflict nonfatal_attribute mem x y) (map _name x) \/
      In (find_attribute_conflict nonfatal_attribute mem x y) (map _name y))).
Proof.
  intros fatal. split.
  - assert (Hx : forall xs y0,
      conflict_in_x nonfatal_attribute mem (fatal xs) (fatal y0)
      = conflict_in_x nonfatal_attribute mem xs y0).
    { intros xs y0. unfold fatal. induction xs as [|a xs IH]; simpl; [reflexivity|].
      destruct (nonfatal_attribute (_name a)) eqn:Hf; simpl; [exact IH|].
      rewrite Hf, find_fatal_filter by exact Hf.
      destruct (List.find (fun b => _name a =? _name b) y0) as [b|]; [|reflexivity].
      destruct ((_name a =? at_type) && type_equivalent mem a b); [exact IH|].
      destruct (attribute_eqb a b); [exact IH|reflexivity]. }
    assert (Hy : forall ys x0,
      conflict_in_y nonfatal_attribute (fatal ys) (fatal x0)
      = conflict_in_y nonfatal_attribute ys x0).
    { intros ys x0. unfold fatal. induction ys as [|a ys IH]; simpl; [reflexivity|].
      destruct (nonfatal_attribute (_name a)) eqn:Hf; simpl; [exact IH|].
      rewrite Hf, find_fatal_filter by exact Hf.
      destruct (List.find (fun b => _name a =? _name b) x0) as [b|]; [exact IH|reflexivity]. }
    unfold find_attribute_conflict. now rewrite Hx, Hy.
  - unfold find_attribute_conflict.
    destruct (conflict_in_x nonfatal_attribute mem x y) as [n|] eqn:Ex.
    { intros _. destruct (conflict_in_x_name _ _ _ Ex). auto. }
    destruct (conflict_in_y nonfatal_attribute y x) as [n|] eqn:Ey; [|congruence].
    intros _. destruct (conflict_in_y_name _ _ _ Ey) as (? & ? & _). auto.
Qed.

(** In sequences that agree attribute by attribute, the search by a fatal
    name of the first finds the attribute at the same place of the second. *)
Lemma find_by_name_pointwise (x y : attribute_sequence) :
  Forall2 (fun a b => _name a = _name b /\ attribute_eqb a b = true) x y ->
  List.NoDup (fatal_names nonfatal_attribute x) ->
  forall a, In a x -> nonfatal_attribute (_name a) = false ->
  exists b, List.find (fun b => _name a =? _name b) y = Some b /\ attribute_eqb a b = true.
Proof.
  unfold fatal_names.
  induction 1 as [|a0 b0 x y [Hn He] _ IH]; intros Hnd a Hin Hf; [destruct Hin|].
  simpl. destruct (Z.eqb_spec (_name a) (_name b0)) as [Eab|Nab].
  - exists b0. split; [reflexivity|].
    destruct Hin as [->|Hin]; [exact He|].
    exfalso. simpl in Hnd. rewrite Hn, <- Eab, Hf in Hnd. simpl in Hnd.
    apply List.NoDup_cons_iff in Hnd as [Hnotin _]. apply Hnotin.
    rewrite Hn, <- Eab.
    apply in_map. apply filter_In. split; [exact Hin|now rewrite Hf].
  - destruct Hin as [->|Hin]; [congruence|].
    apply IH; [|exact Hin|exact Hf].
    simpl in Hnd. destruct (negb (nonfatal_attribute (_name a0))); [|exact Hnd].
    simpl in Hnd. now apply List.NoDup_cons_iff in Hnd as [_ Hnd].
Qed.

(** References are not compared: attributes with the same name, form and
    flags that hold no string and no integer are equal whatever they refer
    to; and two sequences that are equal attribute by attribute, in which no
    fatal name occurs twice, have no conflict. So attributes, [DW_AT_type]
    included, that differ only in the offset or the DIE they refer to never
    make a conflict. *)
Theorem references_never_conflict (x y : attribute_sequence) :
  (forall a b, _name a = _name b -> _form a = _form b ->
     av_type (_value a) = av_type (_value b) ->
     attribute_has a type_string = false -> attribute_has a type_uint = false ->
     attribute_has a type_sint = false -> attribute_eqb a b = true) /\
  (Forall2 (fun a b => _name a = _name b /\ attribute_eqb a b = true) x y ->
   List.NoDup (fatal_names nonfatal_attribute x) ->
   find_attribute_conflict nonfatal_attribute mem x y = at_none).
Proof.
  split.
  - intros a b Hn Hfm Ht Hs Hu Hi. unfold attribute_eqb, attribute_value_eqb.
    unfold attribute_has in *. rewrite Hs, Hu, Hi, Hn, Hfm, Ht, !Z.eqb_refl. reflexivity.
  - intros Hall Hnd. unfold find_attribute_conflict.
    assert (Hx : forall xs, (forall a, In a xs -> In a x) ->
              conflict_in_x nonfatal_attribute mem xs y = None).
    { induction xs as [|a xs IH]; intros Hsub; [reflexivity|]. simpl.
      destruct (nonfatal_attribute (_name a)) eqn:Hf.
      - apply IH. intros b Hb. apply Hsub. now right.
      - destruct (find_by_name_pointwise x y Hall Hnd a (Hsub a (or_introl eq_refl)) Hf)
          as (b & -> & ->).
        destruct ((_name a =? at_type) && type_equivalent mem a b);
          apply IH; intros c Hc; apply Hsub; now right. }
    rewrite Hx by auto.
    assert (Hy : forall ys, (forall b, In b ys -> In (_name b) (map _name x)) ->
              conflict_in_y nonfatal_attribute ys x = None).
    { induction ys as [|b ys IH]; intros Hsub; [reflexivity|]. simpl.
      destruct (nonfatal_attribute (_name b)).
      - apply IH. intros c Hc. apply Hsub. now right.
      - destruct (List.find (fun a => _name b =? _name a) x) eqn:Hfind.
        + apply IH. intros c Hc. apply Hsub. now right.
        + exfalso. destruct (proj1 (in_map_iff _ _ _) (Hsub b (or_introl eq_refl)))
            as (a & Ha & Hin).
          pose proof (List.find_none _ _ Hfind a Hin) as H. simpl in H.
          rewrite Ha, Z.eqb_refl in H. discriminate. }
    rewrite Hy; [reflexivity|].
    intros b Hb. clear -Hall Hb. induction Hall as [|a0 b0 x y [Hn _] _ IH]; [destruct Hb|].
    destruct Hb as [->|Hb]; [left; exact Hn|right; now apply IH].
Qed.

End AttributeConflictMore.

(** ** More on the string pool *)

Section StringPoolMore.

Variable murmur3_64 : string -> Z.

(** The three ways a call of [empool] returns. *)
Lemma empool_cases st s ps st' :
  pool_inv murmur3_64 st -> fits_uint32 s -> empool murmur3_64 st s = Some (ps, st') ->
  (s = EmptyString /\ ps = None /\ st' = st) \/
  (s <> EmptyString /\ st' = st /\
     exists p b, ps = Some p /\ keys st !! string_view_hash murmur3_64 s = Some p /\
       arena st !! p = Some b /\ b_bytes b = s) \/
  (s <> EmptyString /\ keys st !! string_view_hash murmur3_64 s = None /\
     exists p, ps = Some p /\ arena st !! p = None /\
       keys st' = (<[string_view_hash murmur3_64 s := p]> (keys st)) /\
       arena st' = (<[p := block_of murmur3_64 s]> (arena st))).
Proof.
  intros Hinv Hfit He.
  destruct (String.eqb s EmptyString) eqn:E.
  - left. unfold empool in He. rewrite E in He. apply String.eqb_eq in E.
    now injection He as <- <-.
  - right. assert (Hne : s <> EmptyString) by (intros ->; discriminate).
    destruct (keys st !! string_view_hash murmur3_64 s) as [c|] eqn:Hk.
    + left. unfold empool in He. rewrite E, Hk in He. unfold found_key in He.
      destruct (pool_string_view (arena st) (Some c)) as [v|] eqn:Hv; [|discriminate].
      destruct (String.eqb v s) eqn:Evs; [|discriminate].
      apply String.eqb_eq in Evs. subst v. injection He as <- <-.
      split; [exact Hne|]. split; [reflexivity|].
      destruct (inv_keys _ _ Hinv _ _ Hk) as (b & Hb & _).
      exists c, b. repeat split; try assumption.
      destruct (inv_arena _ _ Hinv _ _ Hb) as (_ & _ & Hsz & _).
      unfold pool_string_view, get_size in Hv. rewrite Hb in Hv.
      destruct ((0 <? b_size b) && (b_size b <? 100000)); [|discriminate].
      injection Hv as Hv. now rewrite Hsz, Nat2Z.id, substring_full in Hv.
    + right. split; [exact Hne|]. split; [reflexivity|].
      destruct (empool_new murmur3_64 st s Hinv Hfit Hne Hk)
        as (p & st1 & He1 & Hfresh & Hk1 & Ha1 & _).
      rewrite He1 in He. injection He as <- <-. exists p. now repeat split.
Qed.

(** A call of [empool] moves no block and no key. *)
Lemma empool_monotone st s ps st' :
  pool_inv murmur3_64 st -> fits_uint32 s -> empool murmur3_64 st s = Some (ps, st') ->
  (forall p b, arena st !! p = Some b -> arena st' !! p = Some b) /\
  (forall k p, keys st !! k = Some p -> keys st' !! k = Some p).
Proof.
  intros Hinv Hfit He.
  destruct (empool_cases st s ps st' Hinv Hfit He)
    as [(_ & _ & ->)|[(_ & -> & _)|(_ & Hk & p & _ & Hfresh & -> & ->)]]; try (split; auto; fail).
  split.
  - intros q b Hq. rewrite lookup_insert_ne; [exact Hq|]. intros <-. congruence.
  - intros k q Hq. rewrite lookup_insert_ne; [exact Hq|]. intros <-. congruence.
Qed.

Lemma pool_extends_inv st st' :
  pool_inv murmur3_64 st -> pool_extends murmur3_64 st st' ->
  pool_inv murmur3_64 st' /\
  (forall p b, arena st !! p = Some b -> arena st' !! p = Some b) /\
  (forall k p, keys st !! k = Some p -> keys st' !! k = Some p).
Proof.
  intros Hinv. induction 1 as [|st st1 src ps st2 _ IH Hfit He]; [auto|].
  destruct (IH Hinv) as (Hinv1 & Ha & Hk).
  destruct (empool_monotone st1 src ps st2 Hinv1 Hfit He) as [Ha' Hk'].
  split; [exact (empool_inv murmur3_64 _ _ _ _ Hinv1 Hfit He)|]. split; auto.
Qed.

(** Handles stay good: whatever is interned later, a handle views and hashes
    as it did. *)
Theorem empool_keeps_handles (st st' : pool_state) (h : pool_string) (v : string) :
  pool_reachable murmur3_64 st -> pool_extends murmur3_64 st st' ->
  pool_string_view (arena st) h = Some v ->
  pool_string_view (arena st') h = Some v /\
  pool_string_hash (arena st') h = pool_string_hash (arena st) h.
Proof.
  intros Hreach Hext Hv.
  destruct (pool_extends_inv st st' (pool_reachable_inv murmur3_64 st Hreach) Hext)
    as (_ & Ha & _).
  destruct h as [d|]; [|split; [exact Hv|reflexivity]].
  unfold pool_string_view, pool_string_hash, get_size, get_hash in *.
  destruct (arena st !! d) as [b|] eqn:Hb; [|discriminate].
  rewrite (Ha _ _ Hb). split; [exact Hv|reflexivity].
Qed.

(** Interning is injective and stable: two handles that [empool] returned,
    at any two moments, are equal iff the strings are. *)
Theorem empool_equal_iff_same_string (st0 st1 st2 st3 : pool_state) (s1 s2 : string)
    (h1 h2 : pool_string) :
  pool_reachable murmur3_64 st0 -> fits_uint32 s1 -> fits_uint32 s2 ->
  empool murmur3_64 st0 s1 = Some (h1, st1) ->
  pool_extends murmur3_64 st1 st2 ->
  empool murmur3_64 st2 s2 = Some (h2, st3) ->
  (h1 = h2 <-> s1 = s2) /\ pool_string_eqb h1 h2 = String.eqb s1 s2.
Proof.
  intros Hreach Hf1 Hf2 He1 Hext He2.
  pose proof (pool_reachable_inv murmur3_64 st0 Hreach) as Hinv0.
  pose proof (empool_inv murmur3_64 _ _ _ _ Hinv0 Hf1 He1) as Hinv1.
  destruct (pool_extends_inv st1 st2 Hinv1 Hext) as (Hinv2 & Ha12 & Hk12).
  assert (Hiff : h1 = h2 <-> s1 = s2).
  { (* what the first call left in [st1] *)
    assert (H1 : (s1 = EmptyString /\ h1 = None) \/
                 (s1 <> EmptyString /\ exists p b, h1 = Some p /\ arena st1 !! p = Some b /\
                    b_bytes b = s1)).
    { destruct (empool_cases st0 s1 h1 st1 Hinv0 Hf1 He1)
        as [(-> & -> & _)|[(Hne & -> & p & b & -> & _ & Hb & Hbytes)
                          |(Hne & _ & p & -> & _ & _ & Ha)]].
      - now left.
      - right. split; [exact Hne|]. now exists p, b.
      - right. split; [exact Hne|]. exists p, (block_of murmur3_64 s1).
        rewrite Ha, lookup_insert_eq. now repeat split. }
    destruct (empool_cases st2 s2 h2 st3 Hinv2 Hf2 He2)
      as [(-> & -> & _)|[(Hne2 & _ & q & b2 & -> & Hk2 & Hb2 & Hbytes2)
                        |(Hne2 & Hk2 & q & -> & Hfresh2 & _ & _)]].
    - destruct H1 as [(-> & ->)|(Hne1 & p & b & -> & _)]; [tauto|].
      split; [discriminate|]. intros ->. congruence.
    - destruct H1 as [(-> & ->)|(Hne1 & p & b & -> & Hb & Hbytes)].
      + split; [discriminate|]. intros <-. congruence.
      + split.
        * intros [= ->]. rewrite (Ha12 _ _ Hb) in Hb2. congruence.
        * intros <-. f_equal.
          destruct (inv_arena _ _ Hinv1 _ _ Hb) as (Hkb & Hhb & _).
          rewrite Hbytes, <- (fits_uint32_hash murmur3_64 s1 Hf1) in Hhb.
          rewrite Hhb in Hkb. apply Hk12 in Hkb. congruence.
    - destruct H1 as [(-> & ->)|(Hne1 & p & b & -> & Hb & Hbytes)].
      + split; [discriminate|]. intros <-. congruence.
      + split.
        * intros [= ->]. rewrite (Ha12 _ _ Hb) in Hfresh2. discriminate.
        * intros <-. exfalso.
          destruct (inv_arena _ _ Hinv1 _ _ Hb) as (Hkb & Hhb & _).
          rewrite Hbytes, <- (fits_uint32_hash murmur3_64 s1 Hf1) in Hhb.
          rewrite Hhb in Hkb. apply Hk12 in Hkb. congruence. }
  split; [exact Hiff|].
  unfold pool_string_eqb. destruct (String.eqb_spec s1 s2) as [E|N].
  - apply bool_decide_eq_true. now apply Hiff.
  - apply bool_decide_eq_false. intros E. now apply N, Hiff.
Qed.

(** The sanity bound of [get_size] is checked on the way out, not on the way
    in: a string of 100000 bytes or more is interned by a first call, its
    handle has no view, and a second call for it fails the assertion. *)
Theorem empool_long_string_once (st : pool_state) (s : string) :
  pool_reachable murmur3_64 st -> fits_uint32 s ->
  100000 <= Z.of_nat (String.length s) ->
  keys st !! string_view_hash murmur3_64 s = None ->
  exists p st1,
    empool murmur3_64 st s = Some (Some p, st1) /\
    arena st1 !! p = Some (block_of murmur3_64 s) /\
    pool_string_view (arena st1) (Some p) = None /\
    empool murmur3_64 st1 s = None.
Proof.
  intros Hreach Hfit Hlen Hk.
  pose proof (pool_reachable_inv murmur3_64 st Hreach) as Hinv.
  assert (Hne : s <> EmptyString) by (intros ->; simpl in Hlen; lia).
  destruct (empool_new murmur3_64 st s Hinv Hfit Hne Hk)
    as (p & st1 & He & _ & Hk1 & Ha1 & _).
  assert (Hb : arena st1 !! p = Some (block_of murmur3_64 s))
    by (rewrite Ha1; apply lookup_insert_eq).
  assert (Hv : pool_string_view (arena st1) (Some p) = None).
  { unfold pool_string_view, get_size. rewrite Hb. simpl.
    replace (Z.of_nat (String.length s) <? 100000) with false
      by (symmetry; apply Z.ltb_ge; lia).
    now rewrite andb_false_r. }
  exists p, st1. repeat split; try assumption.
  unfold empool. destruct (String.eqb_spec s EmptyString) as [E|_]; [contradiction|].
  rewrite Hk1, lookup_insert_eq. unfold found_key. now rewrite Hv.
Qed.

End StringPoolMore.

(** ** The layout of the arena *)

Section StringPoolLayout.

Variable murmur3_64 : string -> Z.

(** [pool::empool] keeps the layout of its pool. *)
Lemma pool_empool_layout idx pl mem s p pl' mem' :
  fits_uint32 s -> pool_layout_ok idx pl mem ->
  pool_empool murmur3_64 idx pl mem s = Some (p, pl', mem') ->
  pool_layout_ok idx pl' mem' /\ p.1.1 = idx /\ mem' = (<[p := block_of murmur3_64 s]> mem).
Proof.
  intros Hfit (Hcur & Hcap & Hin & Hdis). unfold pool_empool.
  rewrite (fits_uint32_size s Hfit), (fits_uint32_tsz s Hfit), Nat2Z.id, substring_full.
  fold (block_of murmur3_64 s).
  set (len := Z.of_nat (String.length s)).
  assert (Hlen : 0 <= len) by (unfold len; lia).
  assert (Hbs : b_size (block_of murmur3_64 s) = len) by reflexivity.
  destruct (pool_n pl <? len + 13) eqn:Hn.
  - (* a new pond *)
    simpl. intros [= <- <- <-]. split; [|split; reflexivity].
    set (cp := List.length (pool_ponds pl)).
    set (cap := Z.max default_min_k (len + 13)).
    assert (Hnone : forall off, mem !! (idx, cp, off) = None).
    { intros off. destruct (mem !! (idx, cp, off)) as [b|] eqn:E; [|reflexivity].
      destruct (Hin _ _ _ E) as (c & Hc & _). apply lookup_lt_Some in Hc. unfold cp in *. lia. }
    unfold pool_layout_ok; simpl. repeat split.
    + rewrite length_app. simpl. lia.
    + lia.
    + unfold default_min_k. lia.
    + rewrite lookup_app_r by (unfold cp; lia).
      replace (cp - List.length (pool_ponds pl))%nat with 0%nat by (unfold cp; lia).
      simpl. f_equal. fold cap. lia.
    + intros c Hc. apply elem_of_app in Hc as [Hc|Hc]; [now apply Hcap|].
      apply list_elem_of_singleton in Hc. subst c. unfold cap. lia.
    + intros pond off b Hb.
      destruct (decide ((idx, pond, off) = (idx, cp, 0 + prefix_k))) as [Heq|Hne].
      * injection Heq as -> ->. rewrite lookup_insert_eq in Hb. injection Hb as <-.
        exists cap. split; [|split; [|split]].
        -- rewrite lookup_app_r by (unfold cp; lia).
           now replace (cp - List.length (pool_ponds pl))%nat with 0%nat by (unfold cp; lia).
        -- unfold block_first, prefix_k. lia.
        -- unfold block_end, prefix_k. rewrite Hbs. unfold cap. lia.
        -- intros coff [= <-]. unfold block_end, prefix_k. rewrite Hbs. lia.
      * rewrite lookup_insert_ne in Hb by congruence.
        destruct (Hin _ _ _ Hb) as (c & Hc & Hlo & Hhi & _).
        exists c. split; [|split; [exact Hlo|split; [exact Hhi|]]].
        -- rewrite lookup_app_l; [exact Hc|]. now apply lookup_lt_Some in Hc.
        -- intros coff [= -> _]. now rewrite Hnone in Hb.
    + intros pond off1 off2 b1 b2 H1 H2 Hoff.
      destruct (decide ((idx, pond, off1) = (idx, cp, 0 + prefix_k))) as [E1|N1];
        destruct (decide ((idx, pond, off2) = (idx, cp, 0 + prefix_k))) as [E2|N2].
      * congruence.
      * injection E1 as -> ->. rewrite lookup_insert_ne in H2 by congruence.
        now rewrite Hnone in H2.
      * injection E2 as -> ->. rewrite lookup_insert_ne in H1 by congruence.
        now rewrite Hnone in H1.
      * rewrite lookup_insert_ne in H1, H2 by congruence. eapply Hdis; eassumption.
  - (* the current pond *)
    apply Z.ltb_ge in Hn.
    destruct (pool_p pl) as [[cp coff]|] eqn:Hp; [|destruct Hcur; lia].
    destruct Hcur as (Hcp & Hcoff & Hnn & Hcapcur).
    intros [= <- <- <-]. split; [|split; reflexivity].
    assert (Hbefore : forall off b, mem !! (idx, cp, off) = Some b -> block_end off b <= coff).
    { intros off b Hb. destruct (Hin _ _ _ Hb) as (c & _ & _ & _ & Hc). now apply Hc. }
    unfold pool_layout_ok; simpl. repeat split.
    + exact Hcp.
    + lia.
    + lia.
    + rewrite Hcapcur. f_equal. lia.
    + exact Hcap.
    + intros pond off b Hb.
      destruct (decide ((idx, pond, off) = (idx, cp, coff + prefix_k))) as [Heq|Hne].
      * injection Heq as -> ->. rewrite lookup_insert_eq in Hb. injection Hb as <-.
        exists (coff + pool_n pl). split; [exact Hcapcur|].
        unfold block_first, block_end, prefix_k. rewrite Hbs.
        split; [lia|]. split; [lia|]. intros c [= <-]. lia.
      * rewrite lookup_insert_ne in Hb by congruence.
        destruct (Hin _ _ _ Hb) as (c & Hc & Hlo & Hhi & Hcur').
        exists c. split; [exact Hc|]. split; [exact Hlo|]. split; [exact Hhi|].
        intros c' [= -> <-]. specialize (Hcur' coff eq_refl). lia.
    + intros pond off1 off2 b1 b2 H1 H2 Hoff.
      destruct (decide ((idx, pond, off1) = (idx, cp, coff + prefix_k))) as [E1|N1];
        destruct (decide ((idx, pond, off2) = (idx, cp, coff + prefix_k))) as [E2|N2].
      * congruence.
      * injection E1 as -> ->. rewrite lookup_insert_ne in H2 by congruence.
        right. apply Hbefore in H2. unfold block_first, prefix_k. lia.
      * injection E2 as -> ->. rewrite lookup_insert_ne in H1 by congruence.
        left. apply Hbefore in H1. unfold block_first, prefix_k. lia.
      * rewrite lookup_insert_ne in H1, H2 by congruence. eapply Hdis; eassumption.
Qed.

Lemma pool_layout_ok_other (i idx pond : nat) (off : Z) (b : block) (pl : pool)
    (mem : gmap arena_ptr block) :
  i <> idx -> pool_layout_ok i pl mem -> pool_layout_ok i pl (<[(idx, pond, off) := b]> mem).
Proof.
  intros Hne (Hcur & Hcap & Hin & Hdis). repeat split; try assumption.
  - intros pond' off' b' Hb. rewrite lookup_insert_ne in Hb by congruence. eauto.
  - intros pond' off1 off2 b1 b2 H1 H2.
    rewrite lookup_insert_ne in H1, H2 by congruence. eauto.
Qed.

Lemma arena_layout_init : arena_layout_ok pool_init.
Proof.
  split.
  - intros i pond off b H. simpl in H. rewrite lookup_empty in H. discriminate.
  - intros i pl H. unfold pool_init, pools in H. apply lookup_replicate in H as [-> _].
    unfold pool_layout_ok; simpl. repeat split.
    + intros cap Hc. apply not_elem_of_nil in Hc. destruct Hc.
    + intros pond off b H. rewrite lookup_empty in H. discriminate.
    + intros pond off1 off2 b1 b2 H. rewrite lookup_empty in H. discriminate.
Qed.

Lemma empool_layout st s ps st' :
  fits_uint32 s -> arena_layout_ok st -> empool murmur3_64 st s = Some (ps, st') ->
  arena_layout_ok st'.
Proof.
  intros Hfit [Hblocks Hpools] He. unfold empool in He.
  destruct (String.eqb s EmptyString); [now injection He as <- <-|].
  destruct (keys st !! string_view_hash murmur3_64 s) as [c|].
  { destruct (found_key st s c); [|discriminate]. now injection He as <- <-. }
  set (index := Z.to_nat (string_view_hash murmur3_64 s mod pool_count_k)) in *.
  destruct (pools st !! index) as [pl|] eqn:Hpl; [|discriminate].
  destruct (pool_empool murmur3_64 index pl (arena st) s) as [[[p pl'] mem']|] eqn:Hemp;
    [|discriminate].
  injection He as <- <-.
  destruct (pool_empool_layout index pl (arena st) s p pl' mem' Hfit (Hpools _ _ Hpl) Hemp)
    as (Hok' & Hidx & ->).
  destruct p as [[pi pp] po]. simpl in Hidx. subst pi.
  pose proof (lookup_lt_Some _ _ _ Hpl) as Hlt.
  split; simpl.
  - intros i pond off b Hb.
    destruct (decide ((index, pp, po) = (i, pond, off))) as [Heq|Hne].
    + injection Heq as <- <- <-. rewrite lookup_insert_eq in Hb. injection Hb as <-.
      split; [|reflexivity]. apply lookup_lt_is_Some_2. now rewrite length_insert.
    + rewrite lookup_insert_ne in Hb by exact Hne.
      destruct (Hblocks _ _ _ _ Hb) as [Hs Hsz]. split; [|exact Hsz].
      apply lookup_lt_is_Some_2. rewrite length_insert. now apply lookup_lt_is_Some_1.
  - intros i pl0 Hi. destruct (decide (index = i)) as [<-|Hne].
    + rewrite list_lookup_insert_eq in Hi by exact Hlt. now injection Hi as <-.
    + rewrite list_lookup_insert_ne in Hi by exact Hne.
      apply pool_layout_ok_other; [congruence|]. now apply Hpools.
Qed.

Lemma pool_reachable_layout st : pool_reachable murmur3_64 st -> arena_layout_ok st.
Proof.
  induction 1 as [|st src ps st' _ IH Hfit He]; [apply arena_layout_init|].
  exact (empool_layout _ _ _ _ Hfit IH He).
Qed.

(** The bump allocator never hands out the same bytes twice: in every state
    the pool reaches, each block (prefix, characters and NUL) lies inside a
    pond of its pool, every pond has at least 16 MiB, and two different
    blocks of one pond do not overlap. *)
Theorem pool_blocks_never_overlap (st : pool_state) :
  pool_reachable murmur3_64 st ->
  (forall i pond off b, arena st !! (i, pond, off) = Some b ->
     exists pl cap, pools st !! i = Some pl /\ pool_ponds pl !! pond = Some cap /\
       default_min_k <= cap /\
       b_size b = Z.of_nat (String.length (b_bytes b)) /\
       0 <= block_first off /\ block_end off b <= cap) /\
  (forall i pond off1 off2 b1 b2,
     arena st !! (i, pond, off1) = Some b1 -> arena st !! (i, pond, off2) = Some b2 ->
     off1 <> off2 ->
     block_end off1 b1 <= block_first off2 \/ block_end off2 b2 <= block_first off1).
Proof.
  intros Hreach. destruct (pool_reachable_layout st Hreach) as [Hblocks Hpools]. split.
  - intros i pond off b Hb. destruct (Hblocks _ _ _ _ Hb) as [[pl Hpl] Hsz].
    destruct (Hpools _ _ Hpl) as (_ & Hcap & Hin & _).
    destruct (Hin _ _ _ Hb) as (cap & Hc & Hlo & Hhi & _).
    exists pl, cap. repeat split; try assumption.
    apply Hcap. eapply list_elem_of_lookup_2. exact Hc.
  - intros i pond off1 off2 b1 b2 H1 H2 Hoff.
    destruct (Hblocks _ _ _ _ H1) as [[pl Hpl] _].
    destruct (Hpools _ _ Hpl) as (_ & _ & _ & Hdis). eapply Hdis; eassumption.
Qed.

End StringPoolLayout.

(* ===================================================================== *)
(** * Properties of [parse_file] *)
(* ===================================================================== *)

(** ** [parse_file] *)

Section ParseFileProperties.

Variable murmur3_64 : string -> Z.
Variable callbacks : Type.
Variable read_macho : object_ancestry -> parse_state -> Z -> file_details -> callbacks -> outcome unit.
Variable read_ar : object_ancestry -> parse_state -> Z -> file_details -> callbacks -> outcome unit.
Variable read_fat : object_ancestry -> parse_state -> Z -> file_details -> callbacks -> outcome unit.

(** A file whose first four bytes are none of the ten magic numbers:
    [parse_file] throws [unknown format], but only after it has interned the
    name of the object and appended it to the copy of the ancestry; the
    reader is where it was, the pool has the name. With four names in the
    ancestry already, the assertion of [emplace_back] fails instead, and
    nothing is thrown. *)
Theorem parse_file_unknown_format (object_name : string) (ancestry : object_ancestry)
    (st : parse_state) (end_pos : Z) (cb : callbacks) (m : list byte)
    (name : pool_string) (pool1 : pool_state) :
  freader_window_holds (ps_reader st) m -> List.length m = 4%nat ->
  Z_in (uint32_of_bytes m)
    [MH_MAGIC; MH_CIGAM; MH_MAGIC_64; MH_CIGAM_64; lit_ra_lt_bang; lit_bang_lt_ar;
     FAT_MAGIC; FAT_CIGAM; FAT_MAGIC_64; FAT_CIGAM_64] = false ->
  empool murmur3_64 (ps_pool st) object_name = Some (name, pool1) ->
  (_count ancestry + 1 < ancestors_size ->
     parse_file murmur3_64 callbacks read_macho read_ar read_fat
       object_name ancestry st end_pos cb
     = thrown "unknown format"
         {| ps_reader := ps_reader st; ps_pool := pool1; ps_cerr := ps_cerr st |}) /\
  (ancestors_size <= _count ancestry + 1 ->
     parse_file murmur3_64 callbacks read_macho read_ar read_fat
       object_name ancestry st end_pos cb
     = aborted).
Proof.
  intros Hh Hlen Hnone Hpool.
  assert (Hsplit : Z_in (uint32_of_bytes m) [MH_MAGIC; MH_CIGAM; MH_MAGIC_64; MH_CIGAM_64] = false
                   /\ Z_in (uint32_of_bytes m) [lit_ra_lt_bang; lit_bang_lt_ar] = false
                   /\ Z_in (uint32_of_bytes m)
                        [FAT_MAGIC; FAT_CIGAM; FAT_MAGIC_64; FAT_CIGAM_64] = false).
  { unfold Z_in in *. simpl in *.
    repeat match goal with
           | H : _ || _ = false |- _ => apply orb_false_iff in H; destruct H
           end.
    repeat match goal with H : (uint32_of_bytes m =? _) = false |- _ => rewrite H; clear H end.
    repeat split; reflexivity. }
  destruct Hsplit as (Hnm & Hna & Hnf).
  unfold parse_file. rewrite (detect_file_other _ m Hh Hlen Hnm), Hpool.
  unfold object_ancestry_emplace_back, emplace_back_assertion.
  split; intros Hcount.
  - replace (_count ancestry + 1 <? ancestors_size) with true
      by (symmetry; apply Z.ltb_lt; exact Hcount).
    cbn [_format]. rewrite Hna, Hnf. now rewrite app_nil_r.
  - replace (_count ancestry + 1 <? ancestors_size) with false
      by (symmetry; apply Z.ltb_ge; exact Hcount).
    reflexivity.
Qed.

(** The depth of nesting: an object with four ancestors or more is never
    parsed, whatever the file holds; [parse_file] neither returns nor
    throws. With fewer it hands the reader of a recognized format the
    ancestry with the name of the object appended to it. *)
Lemma parse_file_nesting (object_name : string) (ancestry : object_ancestry)
    (st : parse_state) (end_pos : Z) (cb : callbacks) :
  (ancestors_size <= _count ancestry + 1 ->
     parse_file murmur3_64 callbacks read_macho read_ar read_fat
       object_name ancestry st end_pos cb = aborted) /\
  (forall detection warnings s1 name pool1,
     0 <= _count ancestry -> _count ancestry + 1 < ancestors_size ->
     detect_file (ps_reader st) = Some ((detection, warnings), s1) ->
     empool murmur3_64 (ps_pool st) object_name = Some (name, pool1) ->
     exists new_ancestry,
       object_ancestry_emplace_back ancestry name = Some new_ancestry /\
       _count new_ancestry = _count ancestry + 1 /\
       ((Z.to_nat (_count ancestry) < List.length (_ancestors ancestry))%nat ->
         _ancestors new_ancestry !! Z.to_nat (_count ancestry) = Some name) /\
       (forall i : nat, i <> Z.to_nat (_count ancestry) ->
          _ancestors new_ancestry !! i = _ancestors ancestry !! i) /\
       let st1 := {| ps_reader := s1; ps_pool := pool1;
                     ps_cerr := ps_cerr st ++ warnings |} in
       parse_file murmur3_64 callbacks read_macho read_ar read_fat
         object_name ancestry st end_pos cb
       = match _format detection with
         | format_unknown => thrown "unknown format" st1
         | format_macho => read_macho new_ancestry st1 end_pos detection cb
         | format_ar => read_ar new_ancestry st1 end_pos detection cb
         | format_fat => read_fat new_ancestry st1 end_pos detection cb
         end).
Proof.
  split.
  - intros Hcount. unfold parse_file.
    destruct (detect_file (ps_reader st)) as [[[detection warnings] s1]|]; [|reflexivity].
    destruct (empool murmur3_64 (ps_pool st) object_name) as [[name pool1]|]; [|reflexivity].
    unfold object_ancestry_emplace_back, emplace_back_assertion.
    replace (_count ancestry + 1 <? ancestors_size) with false
      by (symmetry; apply Z.ltb_ge; exact Hcount).
    reflexivity.
  - intros detection warnings s1 name pool1 H0 Hcount Hdet Hpool.
    unfold parse_file. rewrite Hdet, Hpool.
    unfold object_ancestry_emplace_back, emplace_back_assertion.
    replace (_count ancestry + 1 <? ancestors_size) with true
      by (symmetry; apply Z.ltb_lt; exact Hcount).
    eexists. split; [reflexivity|]. cbn [emplace_back_store _count _ancestors].
    split; [apply size_t_small; unfold ancestors_size in *; lia|].
    split; [intros Hlt; now apply list_lookup_insert_eq|].
    split; [intros i Hi; now apply list_lookup_insert_ne|].
    reflexivity.
Qed.

End ParseFileProperties.

(* ===================================================================== *)
(** * Properties of the conflict analysis *)
(* ===================================================================== *)

Lemma chain_functional h ptr l1 : chain h ptr l1 -> forall l2, chain h ptr l2 -> l1 = l2.
Proof.
  induction 1 as [|p d l Hd _ IH]; intros l2 H2; inversion H2; subst; [reflexivity|].
  f_equal. apply IH. congruence.
Qed.

Lemma chain_suffix h ptr l1 x l2 :
  chain h ptr (l1 ++ x :: l2) -> chain h (Some x) (x :: l2).
Proof.
  revert ptr. induction l1 as [|a l1 IH]; intros ptr H; simpl in H.
  - inversion H; subst. econstructor; eassumption.
  - inversion H; subst. eapply IH. eassumption.
Qed.

(** A chain visits no DIE twice: it ends. *)
Lemma chain_NoDup h ptr l : chain h ptr l -> NoDup l.
Proof.
  induction 1 as [|p d l Hd Hc IH]; constructor; [|exact IH].
  intros Hin. apply list_elem_of_split in Hin as (l1 & l2 & ->).
  pose proof (chain_suffix _ _ _ _ _ Hc) as Hs.
  pose proof (chain_functional _ _ _ Hs _ (chain_cons h p d _ Hd Hc)) as Heq.
  apply (f_equal List.length) in Heq. simpl in Heq. rewrite length_app in Heq.
  simpl in Heq. lia.
Qed.

Lemma chain_lookup h ptr l p : chain h ptr l -> p ∈ l -> is_Some (h !! p).
Proof.
  induction 1 as [|q d l Hd _ IH]; intros Hin.
  - apply not_elem_of_nil in Hin. destruct Hin.
  - apply elem_of_cons in Hin as [->|Hin]; [now exists d|auto].
Qed.

(** The first loop collects the chain, given fuel for its length. *)
Lemma collect_dies_chain h ptr l :
  chain h ptr l -> forall fuel, (List.length l <= fuel)%nat ->
  collect_dies fuel h ptr = Some l.
Proof.
  induction 1 as [|p d l Hd _ IH]; intros fuel Hfuel.
  - destruct fuel; reflexivity.
  - destruct fuel as [|fuel]; simpl in Hfuel; [lia|].
    simpl. rewrite Hd. rewrite IH by lia. reflexivity.
Qed.

(** A field read through a lookup after [alter]: at the altered pointer and
    at any other. *)
Ltac alter_cases p q :=
  destruct (decide (p = q)) as [->|?];
  [ rewrite lookup_alter_eq;
    match goal with |- context [?h !! q] => destruct (h !! q); reflexivity end
  | now rewrite lookup_alter_ne ].

Lemma same_cores_refl h : same_cores h h.
Proof. intros q. reflexivity. Qed.

Lemma same_cores_alter_next h h' p n :
  same_cores h h' -> same_cores h (alter (fun d => die_set_next d n) p h').
Proof.
  intros H q. rewrite <- (H q). alter_cases p q.
Qed.

Lemma same_cores_alter_conflict h h' p c :
  same_cores h h' -> same_cores h (alter (fun d => die_set_conflict d c) p h').
Proof.
  intros H q. rewrite <- (H q). alter_cases p q.
Qed.

Lemma same_cores_is_Some h h' q : same_cores h h' -> is_Some (h !! q) -> is_Some (h' !! q).
Proof.
  intros H [d Hd]. specialize (H q). rewrite Hd in H.
  destruct (h' !! q); [eauto|discriminate].
Qed.

Lemma same_cores_fatal_hash h h' q : same_cores h h' -> die_fatal_hash h' q = die_fatal_hash h q.
Proof.
  intros H. specialize (H q). unfold die_fatal_hash.
  destruct (h' !! q) as [d'|], (h !! q) as [d|]; simpl in *; try discriminate; [|reflexivity].
  assert (Hc : die_core d' = die_core d) by congruence.
  apply (f_equal _fatal_attribute_hash) in Hc. exact Hc.
Qed.

(** ** The order of the sort *)

Lemma string_ltb_trans a b c :
  String.ltb a b = true -> String.ltb b c = true -> String.ltb a c = true.
Proof.
  unfold String.ltb. intros Hab Hbc.
  destruct (String.compare a b) eqn:E1; try discriminate.
  destruct (String.compare b c) eqn:E2; try discriminate.
  now rewrite (string_compare_lt_trans _ _ _ E1 E2).
Qed.

Section AncestryOrder.

Variable mem : arena_t.

Lemma ancestry_lt_loop_trans xs ys zs n : forall i,
  ancestry_lt_loop mem xs ys i n = Some true -> ancestry_lt_loop mem ys zs i n = Some true ->
  ancestry_lt_loop mem xs zs i n = Some true.
Proof.
  induction n as [|n IH]; intros i; simpl; [discriminate|].
  destruct (xs !! i) as [px|]; [|discriminate].
  destruct (ys !! i) as [py|]; [|discriminate].
  destruct (view mem px) as [a|]; [|discriminate].
  destruct (view mem py) as [b|]; [|discriminate].
  destruct (zs !! i) as [pz|]; [|discriminate].
  destruct (view mem pz) as [c|]; [|discriminate].
  intros H1 H2.
  destruct (String.ltb a b) eqn:Hab.
  - destruct (String.ltb b c) eqn:Hbc.
    + now rewrite (string_ltb_trans a b c Hab Hbc).
    + destruct (String.ltb c b) eqn:Hcb; [discriminate|].
      rewrite <- (string_le_antisym b c Hbc Hcb). now rewrite Hab.
  - destruct (String.ltb b a) eqn:Hba; [discriminate|].
    rewrite (string_le_antisym a b Hab Hba).
    destruct (String.ltb b c); [reflexivity|].
    destruct (String.ltb c b); [discriminate|]. now apply IH.
Qed.

(** [object_ancestry::operator<] is irreflexive where it returns, transitive,
    and its incomparability is transitive. *)
Lemma ancestry_lt_irrefl x : ancestry_readable mem x -> ancestry_lt mem x x = Some false.
Proof.
  intros Hx. apply (ancestry_lt_false_iff mem x x). split; [reflexivity|].
  intros j Hj. destruct (Hx j Hj) as (px & v & Hp & Hv). exists px, px, v. auto.
Qed.

Lemma ancestry_lt_trans a b c :
  ancestry_lt mem a b = Some true -> ancestry_lt mem b c = Some true ->
  ancestry_lt mem a c = Some true.
Proof.
  unfold ancestry_lt. rewrite !Z.gtb_ltb.
  destruct (Z.ltb_spec (_count a) (_count b)), (Z.ltb_spec (_count b) (_count a)),
    (Z.ltb_spec (_count b) (_count c)), (Z.ltb_spec (_count c) (_count b)),
    (Z.ltb_spec (_count a) (_count c)), (Z.ltb_spec (_count c) (_count a));
    try lia; try discriminate; try reflexivity.
  replace (_count b) with (_count a) by lia. apply ancestry_lt_loop_trans.
Qed.

Lemma ancestry_lt_equiv a b c :
  ancestry_lt mem a b = Some false -> ancestry_lt mem b a = Some false ->
  ancestry_lt mem b c = Some false -> ancestry_lt mem c b = Some false ->
  ancestry_lt mem a c = Some false /\ ancestry_lt mem c a = Some false.
Proof.
  intros Hab Hba Hbc Hcb.
  destruct (proj1 (ancestry_lt_false_iff mem a b) (conj Hab Hba)) as [Eab Nab].
  destruct (proj1 (ancestry_lt_false_iff mem b c) (conj Hbc Hcb)) as [Ebc Nbc].
  apply (ancestry_lt_false_iff mem a c). split; [congruence|].
  intros j Hj.
  destruct (Nab j Hj) as (pa & pb & v & Ha & Hb & Va & Vb).
  destruct (Nbc j ltac:(rewrite <- Eab; exact Hj)) as (pb' & pc & v' & Hb' & Hc & Vb' & Vc).
  exists pa, pc, v. repeat split; try assumption. congruence.
Qed.

Variable object_file_ancestry : Z -> object_ancestry.

(** So the comparator of [enforce_odrv_for_die_list] keeps the contract of
    [std::sort] on DIEs of the heap whose ancestries can be read. *)
Lemma die_ancestry_lt_contract h l :
  (forall p, p ∈ l ->
     exists d, h !! p = Some d /\
       ancestry_readable mem (object_file_ancestry (_ofd_index d))) ->
  comparator_contract (die_ancestry_lt mem object_file_ancestry h) l.
Proof.
  intros Hl. unfold die_ancestry_lt. split; [|split; [|split]].
  - intros a b Ha Hb.
    destruct (Hl a Ha) as (da & -> & Ra). destruct (Hl b Hb) as (db & -> & Rb).
    now apply ancestry_lt_total.
  - intros a Ha. destruct (Hl a Ha) as (da & -> & Ra). now apply ancestry_lt_irrefl.
  - intros a b c Ha Hb Hc.
    destruct (Hl a Ha) as (da & -> & _). destruct (Hl b Hb) as (db & -> & _).
    destruct (Hl c Hc) as (dc & -> & _). apply ancestry_lt_trans.
  - intros a b c Ha Hb Hc.
    destruct (Hl a Ha) as (da & -> & _). destruct (Hl b Hb) as (db & -> & _).
    destruct (Hl c Hc) as (dc & -> & _). apply ancestry_lt_equiv.
Qed.

End AncestryOrder.

(** A sorted list stays sorted under a relation that follows from the first
    on its elements. *)
Lemma StronglySorted_weaken {A} (R R' : A -> A -> Prop) (l : list A) :
  (forall a b, a ∈ l -> b ∈ l -> R a b -> R' a b) ->
  StronglySorted R l -> StronglySorted R' l.
Proof.
  intros Himp Hs. induction Hs as [|a l Hs IH Hall]; constructor.
  - apply IH. intros x y Hx Hy. apply Himp; now right.
  - rewrite Forall_forall in Hall |- *. intros x Hx.
    apply Himp; [left|now right|now apply Hall].
Qed.

(** Insertion meets the contract of [std::sort]. *)
Lemma insert_sorted_spec lt dom x : forall l,
  comparator_contract lt dom -> x ∈ dom -> (forall y, y ∈ l -> y ∈ dom) ->
  StronglySorted (fun a b => lt b a = Some false) l ->
  exists l', insert_sorted lt x l = Some l' /\ l' ≡ₚ x :: l /\
    StronglySorted (fun a b => lt b a = Some false) l'.
Proof.
  intros l Hc Hx. destruct Hc as (Htot & Hirr & Htr & _).
  induction l as [|y t IH]; intros Hdom Hs; simpl.
  - exists [x]. repeat constructor.
  - assert (Hy : y ∈ dom) by (apply Hdom; left).
    apply StronglySorted_inv in Hs as [Hst Hall].
    destruct (Htot x y Hx Hy) as [[|] Hxy]; rewrite Hxy.
    + exists (x :: y :: t). split; [reflexivity|]. split; [reflexivity|].
      constructor; [constructor; assumption|].
      constructor.
      * destruct (Htot y x Hy Hx) as [[|] Hyx]; [|exact Hyx].
        pose proof (Htr _ _ _ Hx Hy Hx Hxy Hyx) as H. rewrite (Hirr x Hx) in H. discriminate.
      * rewrite Forall_forall in Hall |- *. intros z Hz.
        assert (Hzd : z ∈ dom) by (apply Hdom; now right).
        destruct (Htot z x Hzd Hx) as [[|] Hzx]; [|exact Hzx].
        pose proof (Htr _ _ _ Hzd Hx Hy Hzx Hxy) as H. rewrite (Hall z Hz) in H. discriminate.
    + destruct (IH ltac:(intros z Hz; apply Hdom; now right) Hst) as (t' & Ht' & Hp & Hs').
      rewrite Ht'. exists (y :: t'). split; [reflexivity|]. split.
      * rewrite Hp. apply perm_swap.
      * constructor; [exact Hs'|]. rewrite Hp. constructor; assumption.
Qed.

Lemma insertion_sort_contract : sort_contract insertion_sort.
Proof.
  intros lt l Hc.
  assert (H : forall t, (forall y, y ∈ t -> y ∈ l) ->
            exists s, insertion_sort lt t = Some s /\ s ≡ₚ t /\
              StronglySorted (fun a b => lt b a = Some false) s).
  { induction t as [|x t IH]; intros Hdom; simpl.
    - exists []. split; [reflexivity|]. split; [reflexivity|constructor].
    - destruct (IH ltac:(intros y Hy; apply Hdom; now right)) as (s & -> & Hp & Hs).
      destruct (insert_sorted_spec lt l x s Hc) as (s' & Hs' & Hp' & Hss').
      + apply Hdom. left.
      + intros y Hy. apply Hdom. right. now rewrite <- Hp.
      + exact Hs.
      + exists s'. split; [exact Hs'|]. split; [|exact Hss'].
        rewrite Hp'. now constructor. }
  apply H. auto.
Qed.
(** ** Fatal hashes along a list *)

(** Some neighbours differ iff some two members differ. *)
Lemma adjacent_differ_iff h prev rest :
  adjacent_differ h prev rest = true <-> hashes_differ h (prev :: rest).
Proof.
  split.
  - revert prev. induction rest as [|cur rest IH]; intros prev H; simpl in H; [discriminate|].
    apply orb_true_iff in H as [H|H].
    + apply negb_true_iff, Z.eqb_neq in H.
      exists prev, cur. repeat split; [left|right; left|exact H].
    + destruct (IH _ H) as (a & b & Ha & Hb & Hab).
      exists a, b. repeat split; [now right|now right|exact Hab].
  - intros (a & b & Ha & Hb & Hab).
    destruct (adjacent_differ h prev rest) eqn:E; [reflexivity|exfalso].
    assert (Hall : forall x, x ∈ prev :: rest -> die_fatal_hash h x = die_fatal_hash h prev).
    { clear a b Ha Hb Hab. revert prev E.
      induction rest as [|cur rest IH]; intros prev E x Hx.
      - apply list_elem_of_singleton in Hx. now subst.
      - simpl in E. apply orb_false_iff in E as [E1 E2].
        apply negb_false_iff, Z.eqb_eq in E1.
        apply elem_of_cons in Hx as [->|Hx]; [reflexivity|].
        rewrite E1. now apply IH. }
    apply Hab. rewrite (Hall a Ha), (Hall b Hb). reflexivity.
Qed.

Lemma hashes_differ_perm h l l' : l ≡ₚ l' -> hashes_differ h l -> hashes_differ h l'.
Proof.
  intros Hp (a & b & Ha & Hb & Hab). exists a, b.
  repeat split; [now rewrite <- Hp|now rewrite <- Hp|exact Hab].
Qed.

Lemma hashes_differ_cores h h' l : same_cores h h' -> hashes_differ h l <-> hashes_differ h' l.
Proof.
  intros Hc. split; intros (a & b & Ha & Hb & Hab); exists a, b; repeat split; try assumption.
  - now rewrite !(same_cores_fatal_hash h h') by exact Hc.
  - now rewrite <- !(same_cores_fatal_hash h h') by exact Hc.
Qed.

(** ** The re-linking loop *)

Lemma last_default_irrelevant {A} (b : A) (r : list A) (d d' : A) :
  List.last (b :: r) d = List.last (b :: r) d'.
Proof. revert b. induction r as [|c r IH]; intros b; [reflexivity|]. apply (IH c). Qed.

Lemma last_cons_default {A} (a : A) (rest : list A) (d : A) :
  List.last (a :: rest) d = List.last rest a.
Proof.
  destruct rest as [|b r]; [reflexivity|].
  change (List.last (a :: b :: r) d) with (List.last (b :: r) d).
  apply last_default_irrelevant.
Qed.

Lemma last_elem_of {A} (a : A) (rest : list A) : List.last rest a ∈ a :: rest.
Proof.
  revert a. induction rest as [|b r IH]; intros a; [left|].
  right. rewrite last_cons_default. apply IH.
Qed.

(** The loop links each member to the next, touches no other field and no
    other DIE, leaves the last member as it was, and raises the flag iff two
    neighbours differ. *)
Lemma relink_dies_spec h0 rest : forall h prev conflict,
  same_cores h0 h -> NoDup (prev :: rest) ->
  (forall q, q ∈ prev :: rest -> is_Some (h !! q)) ->
  exists h1,
    relink_dies h prev rest conflict = Some (h1, conflict || adjacent_differ h0 prev rest) /\
    same_cores h0 h1 /\
    linked h1 prev rest /\
    (forall q, q ∉ prev :: rest -> h1 !! q = h !! q) /\
    h1 !! List.last rest prev = h !! List.last rest prev.
Proof.
  induction rest as [|cur rest IH]; intros h prev conflict Hc Hnd Hdom.
  - exists h. simpl. rewrite orb_false_r. repeat split; auto.
  - set (h1 := alter (fun d => die_set_next d (Some cur)) prev h).
    assert (Hc1 : same_cores h0 h1) by (apply same_cores_alter_next; exact Hc).
    apply NoDup_cons in Hnd as [Hprev Hnd].
    assert (Hpc : prev <> cur) by (intros ->; apply Hprev; left).
    destruct (Hdom prev ltac:(left)) as [dp Hdp].
    destruct (Hdom cur ltac:(right; left)) as [dc Hdc].
    assert (Hdom1 : forall q, q ∈ cur :: rest -> is_Some (h1 !! q)).
    { intros q Hq. apply (same_cores_is_Some h0 h1 q Hc1).
      destruct (Hdom q ltac:(now right)) as [d Hd]. specialize (Hc q). rewrite Hd in Hc.
      destruct (h0 !! q); [eauto|discriminate]. }
    assert (H1p : h1 !! prev = Some (die_set_next dp (Some cur))).
    { unfold h1. rewrite lookup_alter_eq, Hdp. reflexivity. }
    assert (H1c : h1 !! cur = Some dc).
    { unfold h1. rewrite lookup_alter_ne by exact Hpc. exact Hdc. }
    set (conflict' := if negb conflict
                      then negb (_fatal_attribute_hash (die_set_next dp (Some cur))
                                 =? _fatal_attribute_hash dc)
                      else conflict).
    destruct (IH h1 cur conflict' Hc1 Hnd Hdom1) as (h2 & Hrel & Hc2 & Hl2 & Hf2 & Hlast2).
    exists h2. simpl relink_dies. fold h1. rewrite H1p, H1c. fold conflict'.
    rewrite Hrel. split.
    { do 2 f_equal. simpl adjacent_differ.
      assert (Hp0 : die_fatal_hash h0 prev = _fatal_attribute_hash dp).
      { rewrite <- (same_cores_fatal_hash h0 h prev Hc). unfold die_fatal_hash. now rewrite Hdp. }
      assert (Hc0 : die_fatal_hash h0 cur = _fatal_attribute_hash dc).
      { rewrite <- (same_cores_fatal_hash h0 h cur Hc). unfold die_fatal_hash. now rewrite Hdc. }
      rewrite Hp0, Hc0. unfold conflict'. simpl _fatal_attribute_hash.
      destruct conflict; simpl; [reflexivity|].
      reflexivity. }
    split; [exact Hc2|]. split.
    { simpl. split; [|exact Hl2].
      exists (die_set_next dp (Some cur)). split; [|reflexivity].
      rewrite Hf2; [exact H1p|]. intros Hin. apply Hprev. exact Hin. }
    split.
    { intros q Hq. rewrite Hf2.
      - unfold h1. apply lookup_alter_ne. intros ->. apply Hq. left.
      - intros Hin. apply Hq. now right. }
    { rewrite last_cons_default.
      assert (Hlp : prev <> List.last rest cur).
      { intros Heq. apply Hprev. rewrite Heq. apply last_elem_of. }
      rewrite Hlast2. unfold h1. now apply lookup_alter_ne. }
Qed.

Lemma linked_alter_last h prev rest f :
  NoDup (prev :: rest) -> linked h prev rest ->
  linked (alter f (List.last rest prev) h) prev rest.
Proof.
  revert prev. induction rest as [|cur rest IH]; intros prev Hnd; simpl; [trivial|].
  intros [(d & Hd & Hn) Hl].
  apply NoDup_cons in Hnd as [Hprev Hnd].
  replace (match rest with [] => cur | _ :: _ => List.last rest prev end)
    with (List.last rest cur) by (destruct rest; [reflexivity|apply last_default_irrelevant]).
  split.
  - exists d. split; [|exact Hn]. rewrite lookup_alter_ne; [exact Hd|].
    intros Heq. apply Hprev. rewrite <- Heq. apply last_elem_of.
  - apply IH; assumption.
Qed.

(** Links up to the last member and a null pointer there make a chain. *)
Lemma linked_chain h prev rest :
  linked h prev rest ->
  (exists d, h !! List.last rest prev = Some d /\ _next_die d = None) ->
  chain h (Some prev) (prev :: rest).
Proof.
  revert prev. induction rest as [|cur rest IH]; intros prev Hl (d & Hd & Hn).
  - simpl in Hd. econstructor; [exact Hd|]. rewrite Hn. constructor.
  - destruct Hl as [(dp & Hdp & Hnp) Hl].
    econstructor; [exact Hdp|]. rewrite Hnp. apply IH; [exact Hl|].
    exists d. rewrite <- (last_cons_default cur rest prev). now split.
Qed.

Lemma chain_alter_conflict h ptr l p c :
  chain h ptr l -> chain (alter (fun d => die_set_conflict d c) p h) ptr l.
Proof.
  induction 1 as [|q d l Hd _ IH]; [constructor|].
  destruct (decide (p = q)) as [->|Hne].
  - apply (chain_cons _ q (die_set_conflict d c)); [|exact IH].
    rewrite lookup_alter_eq, Hd. reflexivity.
  - apply (chain_cons _ q d); [|exact IH]. now rewrite lookup_alter_ne.
Qed.

(** ** The report *)

Lemma map_count_insert {A} (k k' : Z) (v : A) (m : list (Z * A)) :
  map_count k (map_insert k' v m) = (k' =? k) || map_count k m.
Proof.
  induction m as [|e m IH]; simpl; [reflexivity|].
  destruct (k' <? fst e); simpl; [reflexivity|].
  fold (map_count k (map_insert k' v m)). fold (map_count k m).
  rewrite IH. destruct (fst e =? k), (k' =? k); reflexivity.
Qed.

Lemma map_two_keys {A} (m : list (Z * A)) (a b : Z) :
  a <> b -> map_count a m = true -> map_count b m = true -> (1 <? List.length m)%nat = true.
Proof.
  intros Hab Ha Hb. destruct m as [|e [|e' m]]; simpl in *; try discriminate; [|reflexivity].
  rewrite orb_false_r in Ha, Hb. apply Z.eqb_eq in Ha, Hb. congruence.
Qed.

(** The loop writes no [_conflict] flag. *)
Lemma relink_dies_conflict_flags rest : forall h prev conflict h1 c1,
  relink_dies h prev rest conflict = Some (h1, c1) ->
  forall q, _conflict <$> h1 !! q = _conflict <$> h !! q.
Proof.
  induction rest as [|cur rest IH]; intros h prev conflict h1 c1 H q; simpl in H.
  - now injection H as <- _.
  - set (ha := alter (fun d => die_set_next d (Some cur)) prev h) in *.
    destruct (ha !! prev); [|discriminate]. destruct (ha !! cur); [|discriminate].
    rewrite (IH _ _ _ _ _ H q). unfold ha. alter_cases prev q.
Qed.

Section Enforce.

Variable nonfatal_attribute : Z -> bool.
Variable mem : arena_t.
Variable object_file_ancestry : Z -> object_ancestry.
Variable fetch_one_die : Z -> Z -> die * attribute_sequence.
Variable std_sort :
  (die_ptr -> die_ptr -> option bool) -> list die_ptr -> option (list die_ptr).

Lemma fetch_attributes_core d :
  fetch_attributes_for_die fetch_one_die (die_core d)
  = fetch_attributes_for_die fetch_one_die d.
Proof. reflexivity. Qed.

Lemma fetch_agrees_cores h h' l : same_cores h h' -> fetch_agrees fetch_one_die h l -> fetch_agrees fetch_one_die h' l.
Proof.
  intros Hc Hf p d' Hp Hd'. specialize (Hc p). rewrite Hd' in Hc.
  destruct (h !! p) as [d|] eqn:Hd; [|discriminate].
  assert (Hcore : die_core d' = die_core d) by (simpl in Hc; congruence).
  rewrite <- fetch_attributes_core, Hcore, fetch_attributes_core. exact (Hf p d Hp Hd).
Qed.

(** The loop of the report's constructor runs over the whole chain and
    leaves every fatal hash of the chain as a key of the map. *)
Lemma conflict_map_of_chain h ptr l :
  chain h ptr l -> fetch_agrees fetch_one_die h l ->
  forall fuel m, (List.length l <= fuel)%nat ->
  exists m', conflict_map_of fetch_one_die fuel h ptr m = Some m' /\
    (forall k, map_count k m = true -> map_count k m' = true) /\
    (forall p, p ∈ l -> map_count (die_fatal_hash h p) m' = true).
Proof.
  induction 1 as [|p d l Hd Hc IH]; intros Hf fuel m Hfuel.
  - exists m. destruct fuel; simpl; repeat split; auto; intros p Hp; inversion Hp.
  - destruct fuel as [|fuel]; simpl in Hfuel; [lia|].
    assert (Hf' : fetch_agrees fetch_one_die h l) by (intros q dq Hq; apply Hf; now right).
    assert (Hp : die_fatal_hash h p = _fatal_attribute_hash d)
      by (unfold die_fatal_hash; now rewrite Hd).
    simpl. rewrite Hd.
    destruct (map_count (_fatal_attribute_hash d) m) eqn:Hcount.
    + destruct (IH Hf' fuel m ltac:(lia)) as (m' & Hm' & Hmono & Hall).
      exists m'. split; [exact Hm'|]. split; [exact Hmono|].
      intros q Hq. apply elem_of_cons in Hq as [->|Hq]; [|now apply Hall].
      rewrite Hp. now apply Hmono.
    + destruct (Hf p d ltac:(left) Hd) as [attrs Hattrs]. rewrite Hattrs.
      destruct (IH Hf' fuel
                  (map_insert (_fatal_attribute_hash d)
                     {| cd_die := p; cd_attributes := attrs |} m) ltac:(lia))
        as (m' & Hm' & Hmono & Hall).
      exists m'. split; [exact Hm'|]. split.
      * intros k Hk. apply Hmono. rewrite map_count_insert, Hk. apply orb_true_r.
      * intros q Hq. apply elem_of_cons in Hq as [->|Hq]; [|now apply Hall].
        rewrite Hp. apply Hmono. rewrite map_count_insert, Z.eqb_refl. reflexivity.
Qed.

(** The constructor of the report returns, on a chain whose head has the
    conflict flag and where two members differ. *)
Lemma odrv_report_make_chain h front l symbol fuel :
  chain h (Some front) l -> fetch_agrees fetch_one_die h l -> (List.length l <= fuel)%nat ->
  die_conflict h (Some front) = true -> hashes_differ h l ->
  exists report,
    odrv_report_make nonfatal_attribute mem fetch_one_die fuel h symbol front = Some report /\
    _symbol report = symbol /\ _list_head report = front.
Proof.
  intros Hc Hf Hfuel Hconf (a & b & Ha & Hb & Hab).
  unfold odrv_report_make. simpl in Hconf.
  destruct (h !! front) as [d|] eqn:Hd; [|discriminate]. simpl in Hconf. rewrite Hconf.
  destruct (conflict_map_of_chain h _ l Hc Hf fuel [] Hfuel) as (m & Hm & _ & Hall).
  rewrite Hm. rewrite (map_two_keys m _ _ Hab (Hall a Ha) (Hall b Hb)).
  pose proof (map_two_keys m _ _ Hab (Hall a Ha) (Hall b Hb)) as Hlen.
  destruct m as [|e m]; [discriminate|].
  simpl head. destruct (last (e :: m)) as [bk|] eqn:Hlast.
  - eexists. split; [reflexivity|]. split; reflexivity.
  - apply last_None in Hlast. discriminate.
Qed.


(** C1. For a registry chain [l] from [base], a [std::sort] that keeps its
    contract, object files that still hold the registered DIEs, ancestries
    whose names can be read and, where two members differ, a path of [base]
    that can be read: a chain of one DIE is returned as it is. For two or
    more there is a vector [dies], a permutation of the chain, in ascending
    order of [object_file_ancestry(_ofd_index)]: no member's ancestry is less
    than the ancestry of a member before it. The [_next_die] pointers
    afterwards run through [dies] in order and end in null; the front of
    [dies] is returned; nothing changes but [_next_die] and [_conflict]
    fields of the chain. If two members have different fatal hashes, exactly
    one report is appended, for the symbol of the path of [base] and with the
    new head as its list head, and the flag of the new head is set, no other
    flag changing; otherwise nothing is appended and no flag changes. *)
Theorem enforce_odrv_for_die_list_chain (h : die_heap) (base : die_ptr) (l : list die_ptr)
    (results : list odrv_report) (fuel : nat) :
  chain h (Some base) l ->
  (List.length l <= fuel)%nat ->
  sort_contract std_sort ->
  fetch_agrees fetch_one_die h l ->
  (forall p d, p ∈ l -> h !! p = Some d ->
     ancestry_readable mem (object_file_ancestry (_ofd_index d))) ->
  (hashes_differ h l -> forall d, h !! base = Some d -> is_Some (view mem (_path d))) ->
  exists h' new_head results',
    enforce_odrv_for_die_list nonfatal_attribute mem object_file_ancestry fetch_one_die
      std_sort fuel h (Some base) results = Some (h', new_head, results') /\
    (List.length l = 1%nat -> h' = h /\ new_head = Some base /\ results' = results) /\
    ((2 <= List.length l)%nat ->
       exists dies,
         dies ≡ₚ l /\
         StronglySorted
           (fun a b => exists da db, h !! a = Some da /\ h !! b = Some db /\
              ancestry_lt mem (object_file_ancestry (_ofd_index db))
                              (object_file_ancestry (_ofd_index da)) = Some false) dies /\
         new_head = head dies /\
         chain h' new_head dies /\
         same_cores h h' /\
         (forall q, q ∉ l -> h' !! q = h !! q) /\
         (hashes_differ h l ->
            (exists report, results' = results ++ [report] /\
               Some (_list_head report) = new_head /\
               forall d path, h !! base = Some d -> view mem (_path d) = Some path ->
                 _symbol report = path_to_symbol path) /\
            die_conflict h' new_head = true /\
            (forall q, Some q <> new_head -> _conflict <$> h' !! q = _conflict <$> h !! q)) /\
         (~ hashes_differ h l ->
            results' = results /\ forall q, _conflict <$> h' !! q = _conflict <$> h !! q)).
Proof.
  intros Hchain Hfuel Hsort Hfetch Hread Hpath.
  destruct (Hsort (die_ancestry_lt mem object_file_ancestry h) l) as (dies & Hs & Hperm & Hsorted).
  { apply die_ancestry_lt_contract. intros p Hp.
    destruct (chain_lookup _ _ _ _ Hchain Hp) as [d Hd]. exists d. split; [exact Hd|].
    exact (Hread p d Hp Hd). }
  assert (Hasc : StronglySorted
            (fun a b => exists da db, h !! a = Some da /\ h !! b = Some db /\
               ancestry_lt mem (object_file_ancestry (_ofd_index db))
                               (object_file_ancestry (_ofd_index da)) = Some false) dies).
  { refine (StronglySorted_weaken _ _ _ _ Hsorted).
    intros a b Ha Hb Hlt. rewrite Hperm in Ha, Hb.
    destruct (chain_lookup _ _ _ _ Hchain Ha) as [da Hda].
    destruct (chain_lookup _ _ _ _ Hchain Hb) as [db Hdb].
    exists da, db. unfold die_ancestry_lt in Hlt. rewrite Hda, Hdb in Hlt. auto. }
  unfold enforce_odrv_for_die_list.
  rewrite (collect_dies_chain h _ l Hchain fuel Hfuel).
  destruct l as [|b0 [|b1 l']]; [inversion Hchain| |].
  - (* one DIE *)
    inversion Hchain; subst. eexists _, _, _. split; [reflexivity|].
    split; [auto|]. simpl. lia.
  - (* two or more *)
    set (l := b0 :: b1 :: l') in *. rewrite Hs.
    assert (Hb0 : b0 = base) by (inversion Hchain; reflexivity).
    pose proof (chain_NoDup _ _ _ Hchain) as Hnd.
    assert (Hnd' : NoDup dies) by (rewrite Hperm; exact Hnd).
    assert (Hdom : forall q, q ∈ dies -> is_Some (h !! q)).
    { intros q Hq. apply (chain_lookup _ _ _ _ Hchain). now rewrite <- Hperm. }
    pose proof (Permutation_length Hperm) as Hlen.
    destruct dies as [|front rest]; [discriminate|].
    destruct (relink_dies_spec h rest h front false (same_cores_refl h) Hnd' Hdom)
      as (h1 & Hrel & Hc1 & Hl1 & Hf1 & _).
    rewrite Hrel. simpl orb.
    set (back := List.last rest front).
    set (h2 := alter (fun d => die_set_next d None) back h1).
    assert (Hc2 : same_cores h h2) by (apply same_cores_alter_next; exact Hc1).
    assert (Hback : back ∈ front :: rest) by apply last_elem_of.
    assert (Hchain2 : chain h2 (Some front) (front :: rest)).
    { apply linked_chain.
      - apply linked_alter_last; assumption.
      - destruct (same_cores_is_Some h h1 back Hc1 (Hdom back Hback)) as [d Hd].
        exists (die_set_next d None). split; [|reflexivity].
        fold back. unfold h2. rewrite lookup_alter_eq, Hd. reflexivity. }
    assert (Hframe2 : forall q, q ∉ l -> h2 !! q = h !! q).
    { intros q Hq. assert (Hq' : q ∉ front :: rest) by (rewrite Hperm; exact Hq).
      unfold h2. rewrite lookup_alter_ne by (intros ->; apply Hq'; exact Hback).
      now apply Hf1. }
    assert (Hflags2 : forall q, _conflict <$> h2 !! q = _conflict <$> h !! q).
    { intros q. rewrite <- (relink_dies_conflict_flags _ _ _ _ _ _ Hrel q). unfold h2.
      alter_cases back q. }
    assert (Hiff : adjacent_differ h front rest = true <-> hashes_differ h l).
    { rewrite adjacent_differ_iff. split; apply hashes_differ_perm; [exact Hperm|].
      symmetry. exact Hperm. }
    destruct (adjacent_differ h front rest) eqn:Hadj; simpl negb; cbv iota.
    + (* a conflict *)
      assert (Hdiff : hashes_differ h l) by (now apply Hiff).
      set (h3 := alter (fun d => die_set_conflict d true) front h2).
      assert (Hc3 : same_cores h h3) by (apply same_cores_alter_conflict; exact Hc2).
      assert (Hchain3 : chain h3 (Some front) (front :: rest))
        by (apply chain_alter_conflict; exact Hchain2).
      assert (Hconf3 : die_conflict h3 (Some front) = true).
      { destruct (same_cores_is_Some h h2 front Hc2 (Hdom front ltac:(left))) as [d Hd].
        simpl. unfold h3. rewrite lookup_alter_eq, Hd. reflexivity. }
      assert (Hbase : base ∈ l) by (rewrite <- Hb0; left).
      destruct (chain_lookup _ _ _ _ Hchain Hbase) as [d0 Hd0].
      destruct (same_cores_is_Some h h3 base Hc3 (ex_intro _ d0 Hd0)) as [bd Hbd].
      rewrite Hbd.
      assert (Hsame_path : _path bd = _path d0).
      { pose proof (Hc3 base) as E. rewrite Hbd, Hd0 in E. simpl in E.
        assert (Hcore : die_core bd = die_core d0) by congruence.
        apply (f_equal _path) in Hcore. exact Hcore. }
      destruct (Hpath Hdiff d0 Hd0) as [path Hview].
      rewrite Hsame_path, Hview.
      destruct (odrv_report_make_chain h3 front (front :: rest)
                  (path_to_symbol path) fuel Hchain3)
        as (report & Hmake & Hsym & Hhead).
      { apply (fetch_agrees_cores h h3 _ Hc3). intros p d Hp. apply Hfetch.
        now rewrite <- Hperm. }
      { rewrite Hlen. exact Hfuel. }
      { exact Hconf3. }
      { apply (hashes_differ_cores h h3 _ Hc3). apply (hashes_differ_perm h l); [|exact Hdiff].
        symmetry. exact Hperm. }
      rewrite Hmake. eexists _, _, _. split; [reflexivity|].
      split; [simpl; lia|]. intros _. exists (front :: rest).
      split; [exact Hperm|]. split; [exact Hasc|]. split; [reflexivity|].
      split; [exact Hchain3|]. split; [exact Hc3|]. split.
      { intros q Hq. unfold h3. rewrite lookup_alter_ne; [now apply Hframe2|].
        intros ->. apply Hq. rewrite <- Hperm. left. }
      split.
      { intros _. split; [|split].
        - exists report. split; [reflexivity|]. split; [now rewrite Hhead|].
          intros d path' Hd Hv. rewrite Hd0 in Hd. injection Hd as <-.
          rewrite Hview in Hv. injection Hv as <-. exact Hsym.
        - exact Hconf3.
        - intros q Hq. rewrite <- Hflags2. unfold h3.
          rewrite lookup_alter_ne; [reflexivity|]. intros ->. now apply Hq. }
      { intros Hno. contradiction. }
    + (* no conflict *)
      assert (Hno : ~ hashes_differ h l).
      { intros Hd. apply Hiff in Hd. discriminate. }
      eexists _, _, _. split; [reflexivity|].
      split; [simpl; lia|]. intros _. exists (front :: rest).
      split; [exact Hperm|]. split; [exact Hasc|]. split; [reflexivity|].
      split; [exact Hchain2|]. split; [exact Hc2|]. split; [exact Hframe2|].
      split; [intros Hd; contradiction|].
      intros _. split; [reflexivity|exact Hflags2].
Qed.

(** The path of [base] is read only when two members differ, and must then
    have a view: without one the analysis fails the assertion of [get_size]
    after it has re-linked the chain. *)
Lemma enforce_odrv_for_die_list_unreadable_path (h : die_heap) (base : die_ptr)
    (l : list die_ptr) (results : list odrv_report) (fuel : nat) (d : die) :
  chain h (Some base) l ->
  (List.length l <= fuel)%nat ->
  sort_contract std_sort ->
  (forall p d, p ∈ l -> h !! p = Some d ->
     ancestry_readable mem (object_file_ancestry (_ofd_index d))) ->
  hashes_differ h l -> h !! base = Some d -> view mem (_path d) = None ->
  enforce_odrv_for_die_list nonfatal_attribute mem object_file_ancestry fetch_one_die
    std_sort fuel h (Some base) results = None.
Proof.
  intros Hchain Hfuel Hsort Hread Hdiff Hd Hview.
  destruct (Hsort (die_ancestry_lt mem object_file_ancestry h) l) as (dies & Hs & Hperm & _).
  { apply die_ancestry_lt_contract. intros p Hp.
    destruct (chain_lookup _ _ _ _ Hchain Hp) as [dp Hdp]. exists dp. split; [exact Hdp|].
    exact (Hread p dp Hp Hdp). }
  unfold enforce_odrv_for_die_list.
  rewrite (collect_dies_chain h _ l Hchain fuel Hfuel).
  destruct l as [|b0 [|b1 l']]; [inversion Hchain| |].
  - exfalso. destruct Hdiff as (a & b & Ha & Hb & Hab).
    apply list_elem_of_singleton in Ha, Hb. congruence.
  - set (l := b0 :: b1 :: l') in *. rewrite Hs.
    pose proof (chain_NoDup _ _ _ Hchain) as Hnd.
    assert (Hnd' : NoDup dies) by (rewrite Hperm; exact Hnd).
    assert (Hdom : forall q, q ∈ dies -> is_Some (h !! q)).
    { intros q Hq. apply (chain_lookup _ _ _ _ Hchain). now rewrite <- Hperm. }
    pose proof (Permutation_length Hperm) as Hlen.
    destruct dies as [|front rest]; [discriminate|].
    destruct (relink_dies_spec h rest h front false (same_cores_refl h) Hnd' Hdom)
      as (h1 & Hrel & Hc1 & _).
    rewrite Hrel. simpl orb.
    assert (Hadj : adjacent_differ h front rest = true).
    { apply adjacent_differ_iff. apply (hashes_differ_perm h l); [|exact Hdiff].
      symmetry. exact Hperm. }
    rewrite Hadj. simpl negb. cbv iota.
    set (h3 := alter (fun x => die_set_conflict x true) front
                 (alter (fun x => die_set_next x None) (List.last rest front) h1)).
    assert (Hc3 : same_cores h h3).
    { apply same_cores_alter_conflict, same_cores_alter_next. exact Hc1. }
    destruct (same_cores_is_Some h h3 base Hc3 (ex_intro _ d Hd)) as [bd Hbd].
    rewrite Hbd.
    assert (Hsame_path : _path bd = _path d).
    { pose proof (Hc3 base) as E. rewrite Hbd, Hd in E. simpl in E.
      assert (Hcore : die_core bd = die_core d) by congruence.
      apply (f_equal _path) in Hcore. exact Hcore. }
    rewrite Hsame_path, Hview. reflexivity.
Qed.

End Enforce.

(* ===================================================================== *)
(** * Properties of registration and of the report *)
(* ===================================================================== *)

(** ** Registration *)




















(** ** The conflict map of a report *)

(** A [std::map] in key order. *)
Lemma map_insert_sorted {A} (k : Z) (v : A) (m : list (Z * A)) :
  StronglySorted (fun a b => fst a < fst b) m -> map_count k m = false ->
  StronglySorted (fun a b => fst a < fst b) (map_insert k v m) /\
  map_insert k v m ≡ₚ (k, v) :: m.
Proof.
  induction 1 as [|e m Hs IH Hall]; intros Hk; simpl.
  - split; [repeat constructor|reflexivity].
  - simpl in Hk. apply orb_false_iff in Hk as [Hek Hk]. apply Z.eqb_neq in Hek.
    destruct (Z.ltb_spec k (fst e)) as [Hlt|Hge].
    + split; [|reflexivity]. constructor; [now constructor|].
      constructor; [exact Hlt|].
      rewrite Forall_forall in Hall |- *. intros x Hx. specialize (Hall x Hx). simpl. lia.
    + destruct (IH Hk) as [Hs' Hp]. split.
      * constructor; [exact Hs'|]. rewrite Hp. constructor; [simpl; lia|exact Hall].
      * rewrite Hp. apply perm_swap.
Qed.

Lemma sorted_last_max {A} (m : list (Z * A)) (hi : Z * A) :
  StronglySorted (fun a b => fst a < fst b) m -> last m = Some hi ->
  forall e, e ∈ m -> fst e <= fst hi.
Proof.
  induction 1 as [|x m Hs IH Hall]; intros Hlast e He; [inversion He|].
  destruct m as [|y m].
  - apply list_elem_of_singleton in He. subst. simpl in Hlast. injection Hlast as <-. lia.
  - rewrite last_cons_cons in Hlast.
    apply elem_of_cons in He as [->|He]; [|now apply IH].
    rewrite Forall_forall in Hall.
    specialize (Hall hi (last_Some_elem_of _ _ Hlast)). lia.
Qed.

Section ConflictMap.

Variable nonfatal_attribute : Z -> bool.
Variable mem : arena_t.
Variable fetch_one_die : Z -> Z -> die * attribute_sequence.
Variable tag_to_string : Z -> string.
Variable at_to_string : Z -> string.

(** What the loop of the constructor adds to the map: one entry for each
    fatal hash of the chain that the map did not have, for the first DIE of
    the chain with that hash, with the attributes fetched for that DIE. *)
Lemma conflict_map_of_entries h ptr l :
  chain h ptr l -> fetch_agrees fetch_one_die h l ->
  forall fuel m, (List.length l <= fuel)%nat ->
  StronglySorted (fun a b => fst a < fst b) m ->
  exists m', conflict_map_of fetch_one_die fuel h ptr m = Some m' /\
    StronglySorted (fun a b => fst a < fst b) m' /\
    (forall k, map_count k m' = true <->
       map_count k m = true \/ exists p, p ∈ l /\ die_fatal_hash h p = k) /\
    (forall e, e ∈ m' -> e ∈ m \/
       (map_count (fst e) m = false /\
        exists l1 l2 d, l = l1 ++ cd_die (snd e) :: l2 /\
          (forall q, q ∈ l1 -> die_fatal_hash h q <> fst e) /\
          h !! cd_die (snd e) = Some d /\ _fatal_attribute_hash d = fst e /\
          fetch_attributes_for_die fetch_one_die d = Some (cd_attributes (snd e)))).
Proof.
  induction 1 as [|p d l Hd Hc IH]; intros Hf fuel m Hfuel Hsorted.
  - exists m. destruct fuel; simpl; (split; [reflexivity|]); (split; [exact Hsorted|]);
      (split; [|now left]); intros k; split; auto;
      intros [H|(p & Hp & _)]; auto; apply not_elem_of_nil in Hp; destruct Hp.
  - destruct fuel as [|fuel]; simpl in Hfuel; [lia|].
    assert (Hf' : fetch_agrees fetch_one_die h l) by (intros q dq Hq; apply Hf; now right).
    assert (Hp : die_fatal_hash h p = _fatal_attribute_hash d)
      by (unfold die_fatal_hash; now rewrite Hd).
    simpl. rewrite Hd.
    destruct (map_count (_fatal_attribute_hash d) m) eqn:Hcount.
    + destruct (IH Hf' fuel m ltac:(lia) Hsorted) as (m' & Hm' & Hs' & Hkeys & Hent).
      exists m'. split; [exact Hm'|]. split; [exact Hs'|]. split.
      * intros k. rewrite Hkeys. split.
        -- intros [H|(q & Hq & Hk)]; [now left|right]. exists q. split; [now right|exact Hk].
        -- intros [H|(q & Hq & Hk)]; [now left|].
           apply elem_of_cons in Hq as [->|Hq]; [left; congruence|right; eauto].
      * intros e He. destruct (Hent e He) as [H|(Hnew & l1 & l2 & de & -> & Hfirst & Hrest)];
          [now left|right].
        split; [exact Hnew|]. exists (p :: l1), l2, de. split; [reflexivity|].
        split; [|exact Hrest].
        intros q Hq. apply elem_of_cons in Hq as [->|Hq]; [|now apply Hfirst].
        rewrite Hp. congruence.
    + destruct (Hf p d ltac:(left) Hd) as [attrs Hattrs]. rewrite Hattrs.
      set (cd := {| cd_die := p; cd_attributes := attrs |}).
      destruct (map_insert_sorted (_fatal_attribute_hash d) cd m Hsorted Hcount) as [Hs1 Hp1].
      destruct (IH Hf' fuel (map_insert (_fatal_attribute_hash d) cd m) ltac:(lia) Hs1)
        as (m' & Hm' & Hs' & Hkeys & Hent).
      exists m'. split; [exact Hm'|]. split; [exact Hs'|]. split.
      * intros k. rewrite Hkeys, map_count_insert. split.
        -- intros [H|(q & Hq & Hk)].
           ++ apply orb_true_iff in H as [H|H]; [|now left].
              apply Z.eqb_eq in H. right. exists p. split; [left|congruence].
           ++ right. exists q. split; [now right|exact Hk].
        -- intros [H|(q & Hq & Hk)]; [left; rewrite H; apply orb_true_r|].
           apply elem_of_cons in Hq as [->|Hq]; [|right; eauto].
           left. rewrite <- Hk, Hp, Z.eqb_refl. reflexivity.
      * intros e He. destruct (Hent e He) as [H|(Hnew & l1 & l2 & de & -> & Hfirst & Hrest)].
        -- rewrite Hp1 in H. apply elem_of_cons in H as [->|H]; [right|now left].
           split; [exact Hcount|]. exists [], l, d. simpl.
           split; [reflexivity|]. split; [intros q Hq; inversion Hq|]. now repeat split.
        -- right. rewrite map_count_insert in Hnew.
           apply orb_false_iff in Hnew as [Hne Hnew]. apply Z.eqb_neq in Hne.
           split; [exact Hnew|]. exists (p :: l1), l2, de. split; [reflexivity|].
           split; [|exact Hrest].
           intros q Hq. apply elem_of_cons in Hq as [->|Hq]; [|now apply Hfirst].
           rewrite Hp. exact Hne.
Qed.

(** The report of a chain some two members of which differ: its conflict map
    has exactly one entry for each fatal hash that occurs in the chain, in
    increasing order of the hash; the entry of a hash holds the first DIE of
    the chain with that hash and the attributes fetched for it; and the
    attribute the report names is the conflict between the attributes of the
    entry of the smallest hash and those of the entry of the largest, whatever
    the order of the chain and however many definitions lie between; the
    category of the report is the tag of that first entry and this name. *)
Theorem odrv_report_conflict_map (h : die_heap) (front : die_ptr) (l : list die_ptr)
    (symbol : string) (fuel : nat) :
  chain h (Some front) l -> fetch_agrees fetch_one_die h l -> (List.length l <= fuel)%nat ->
  die_conflict h (Some front) = true -> hashes_differ h l ->
  exists report lo hi,
    odrv_report_make nonfatal_attribute mem fetch_one_die fuel h symbol front = Some report /\
    StronglySorted (fun a b => fst a < fst b) (_conflict_map report) /\
    (forall k, map_count k (_conflict_map report) = true <->
       exists p, p ∈ l /\ die_fatal_hash h p = k) /\
    (forall e, e ∈ _conflict_map report ->
       exists l1 l2 d, l = l1 ++ cd_die (snd e) :: l2 /\
         (forall q, q ∈ l1 -> die_fatal_hash h q <> fst e) /\
         h !! cd_die (snd e) = Some d /\ _fatal_attribute_hash d = fst e /\
         fetch_attributes_for_die fetch_one_die d = Some (cd_attributes (snd e))) /\
    head (_conflict_map report) = Some lo /\ last (_conflict_map report) = Some hi /\
    fst lo < fst hi /\
    (forall e, e ∈ _conflict_map report -> fst lo <= fst e <= fst hi) /\
    odrv_name report
    = find_attribute_conflict nonfatal_attribute mem
        (cd_attributes (snd lo)) (cd_attributes (snd hi)) /\
    (exists d, h !! cd_die (snd lo) = Some d /\
       category tag_to_string at_to_string h report
       = Some (tag_to_string (_tag d) ++ ":" ++ at_to_string (odrv_name report))%string).
Proof.
  intros Hc Hf Hfuel Hconf Hdiff.
  destruct (conflict_map_of_entries h _ l Hc Hf fuel [] Hfuel (SSorted_nil _))
    as (m & Hm & Hs & Hkeys & Hent).
  destruct Hdiff as (a & b & Ha & Hb & Hab).
  assert (Hlen : (1 <? List.length m)%nat = true).
  { apply (map_two_keys m _ _ Hab); apply Hkeys; right; eauto. }
  unfold odrv_report_make. simpl in Hconf.
  destruct (h !! front) as [d|] eqn:Hd; [|discriminate]. simpl in Hconf.
  rewrite Hconf, Hm, Hlen.
  destruct m as [|lo m']; [discriminate|]. simpl head.
  destruct (last (lo :: m')) as [hi|] eqn:Hlast; [|apply last_None in Hlast; discriminate].
  exists {| _symbol := symbol; _list_head := front; _conflict_map := lo :: m';
            odrv_name := find_attribute_conflict nonfatal_attribute mem
                           (cd_attributes (snd lo)) (cd_attributes (snd hi)) |}, lo, hi.
  split; [reflexivity|]. cbn [_conflict_map odrv_name].
  split; [exact Hs|]. split.
  { intros k. rewrite Hkeys. split; [intros [H|H]; [discriminate|exact H]|now right]. }
  split.
  { intros e He. destruct (Hent e He) as [H|(_ & H)]; [inversion H|exact H]. }
  split; [reflexivity|]. split; [exact Hlast|].
  assert (Hbounds : forall e, e ∈ lo :: m' -> fst lo <= fst e <= fst hi).
  { intros e He. split; [|exact (sorted_last_max _ hi Hs Hlast e He)].
    apply elem_of_cons in He as [->|He]; [lia|].
    apply StronglySorted_inv in Hs as [_ Hall]. rewrite Forall_forall in Hall.
    specialize (Hall e He). lia. }
  split; [|split; [exact Hbounds|split; [reflexivity|]]];
    [|destruct (Hent lo ltac:(left)) as [H|(_ & l1 & l2 & dlo & _ & _ & Hdlo & _)];
      [inversion H|];
      exists dlo; split; [exact Hdlo|]; unfold category; cbn [_conflict_map head odrv_name];
      now rewrite Hdlo].
  destruct m' as [|x m']; [discriminate|].
  apply StronglySorted_inv in Hs as [Hs Hall]. apply Forall_cons in Hall as [Hx _].
  assert (Hxe : x ∈ lo :: x :: m') by (right; left).
  pose proof (Hbounds x Hxe). lia.
Qed.

End ConflictMap.

(* ===================================================================== *)
(** * The theorems at concrete inputs *)
(* ===================================================================== *)

(** C1 at the chain of [foo] in [b.o] and [a.o]: the DIE of [a.o] becomes the
    head, and one report is appended. *)
Lemma enforce_odrv_for_die_list_chain_witness :
  exists h' new_head results',
    enforce_odrv_for_die_list nonfatal_attribute_spec two_objects_mem two_objects_ancestry
      two_objects_fetch insertion_sort 2 two_objects_heap (Some 1%positive) []
    = Some (h', new_head, results') /\
    (List.length [1%positive; 2%positive] = 1%nat ->
       h' = two_objects_heap /\ new_head = Some 1%positive /\ results' = []) /\
    ((2 <= List.length [1%positive; 2%positive])%nat ->
       exists dies,
         dies ≡ₚ [1%positive; 2%positive] /\
         StronglySorted
           (fun a b => exists da db,
              two_objects_heap !! a = Some da /\ two_objects_heap !! b = Some db /\
              ancestry_lt two_objects_mem (two_objects_ancestry (_ofd_index db))
                          (two_objects_ancestry (_ofd_index da)) = Some false) dies /\
         new_head = head dies /\
         chain h' new_head dies /\
         same_cores two_objects_heap h' /\
         (forall q, q ∉ [1%positive; 2%positive] -> h' !! q = two_objects_heap !! q) /\
         (hashes_differ two_objects_heap [1%positive; 2%positive] ->
            (exists report, results' = [] ++ [report] /\
               Some (_list_head report) = new_head /\
               forall d path, two_objects_heap !! 1%positive = Some d ->
                 view two_objects_mem (_path d) = Some path ->
                 _symbol report = path_to_symbol path) /\
            die_conflict h' new_head = true /\
            (forall q, Some q <> new_head ->
               _conflict <$> h' !! q = _conflict <$> two_objects_heap !! q)) /\
         (~ hashes_differ two_objects_heap [1%positive; 2%positive] ->
            results' = [] /\
            forall q, _conflict <$> h' !! q = _conflict <$> two_objects_heap !! q)).
Proof.
  apply (enforce_odrv_for_die_list_chain nonfatal_attribute_spec two_objects_mem
           two_objects_ancestry two_objects_fetch insertion_sort
           two_objects_heap 1%positive [1%positive; 2%positive] [] 2).
  - apply (chain_cons _ 1%positive (foo_die 1 0x2a 10 (Some 2%positive))); [reflexivity|].
    apply (chain_cons _ 2%positive (foo_die 0 0x2a 20 None)); [reflexivity|].
    apply chain_nil.
  - simpl. lia.
  - exact insertion_sort_contract.
  - intros p d Hp Hd.
    apply elem_of_cons in Hp as [->|Hp];
      [|apply elem_of_cons in Hp as [->|Hp]; [|inversion Hp]];
      vm_compute in Hd; injection Hd as <-; eexists; reflexivity.
  - intros p d Hp Hd j Hj.
    apply elem_of_cons in Hp as [->|Hp];
      [|apply elem_of_cons in Hp as [->|Hp]; [|inversion Hp]];
      vm_compute in Hd; injection Hd as <-;
      (destruct j as [|j]; [|cbn in Hj; lia]);
      eexists _, _; split; reflexivity.
  - intros _ d Hd. vm_compute in Hd. injection Hd as <-. eexists. reflexivity.
Defined.

(** C2 at a sequence that names decl_line, type and byte_size once each. *)
Lemma find_attribute_conflict_refl_witness :
  find_attribute_conflict nonfatal_attribute_spec ∅ once_each once_each = at_none.
Proof.
  apply (find_attribute_conflict_refl nonfatal_attribute_spec ∅ once_each).
  vm_compute. repeat constructor; simpl; intuition discriminate.
Defined.

(** C2 (as stated) fails: in a sequence that holds DW_AT_type twice with
    different values, the second one is compared with the first, and
    [find_attribute_conflict(X, X)] returns [type], not [none]. *)
Lemma find_attribute_conflict_not_refl :
  find_attribute_conflict nonfatal_attribute_spec ∅ twice_typed twice_typed = at_type /\
  at_type <> at_none.
Proof. split; [reflexivity|discriminate]. Qed.

(** C3 at the string [abc] and the pool before any call. *)
Lemma empool_idempotent_one_slot_witness :
  exists ps st1,
    empool length_hash pool_init "abc" = Some (ps, st1) /\
    empool length_hash st1 "abc" = Some (ps, st1) /\
    pool_string_eqb ps ps = true /\
    pool_string_view (arena st1) ps = Some "abc"%string /\
    (exists hv, pool_string_hash (arena st1) ps = Some hv /\
       ("abc"%string <> EmptyString -> hv = string_view_hash length_hash "abc")) /\
    (forall x y : pool_string, pool_string_eqb x y = true <-> x = y) /\
    (forall p q b b', arena st1 !! p = Some b -> arena st1 !! q = Some b' ->
       b_bytes b = b_bytes b' -> p = q) /\
    (forall q b', arena st1 !! q = Some b' -> b_bytes b' <> EmptyString) /\
    ("abc"%string = EmptyString -> ps = None /\ st1 = pool_init) /\
    ("abc"%string <> EmptyString ->
       exists p b, ps = Some p /\ arena st1 !! p = Some b /\ b_bytes b = "abc"%string /\
         forall q b', arena st1 !! q = Some b' -> b_bytes b' = "abc"%string -> q = p).
Proof.
  apply (empool_idempotent_one_slot length_hash pool_init "abc").
  - apply reach_init.
  - simpl. lia.
  - intros p b Hb. simpl in Hb. rewrite lookup_empty in Hb. discriminate.
Defined.

(** C6 at a report of category [subprogram:type] and settings that ignore
    that category. *)
Lemma filter_report_lists_witness :
  exists keep,
    filter_report tag_names at_names ignore_subprogram_type two_objects_heap foo_report
    = Some keep /\
    (_violation_ignore ignore_subprogram_type <> [] ->
       (keep = true <-> ~ In "subprogram:type"%string (_violation_ignore ignore_subprogram_type)) /\
       forall other,
         filter_report tag_names at_names
           {| _violation_ignore := _violation_ignore ignore_subprogram_type;
              _violation_report := other |}
           two_objects_heap foo_report = Some keep) /\
    (_violation_ignore ignore_subprogram_type = [] ->
     _violation_report ignore_subprogram_type <> [] ->
       (keep = true <-> In "subprogram:type"%string (_violation_report ignore_subprogram_type))) /\
    (_violation_ignore ignore_subprogram_type = [] ->
     _violation_report ignore_subprogram_type = [] -> keep = true).
Proof.
  apply (filter_report_lists tag_names at_names ignore_subprogram_type two_objects_heap
           foo_report "subprogram:type").
  - repeat constructor.
  - repeat constructor.
  - reflexivity.
Defined.

(** ULEB128 at the three-byte encoding E5 8E 26 of 624485, and SLEB128 at the
    three-byte encoding C0 BB 78 of -123456. *)
Lemma uleb128_decodes_witness :
  uleb128 (freader_open [xe5; x8e; x26] 4096)
  = Some (624485, set_p (freader_open [xe5; x8e; x26] 4096) (4096 + 3)).
Proof.
  apply (uleb128_decodes (freader_open [xe5; x8e; x26] 4096) [xe5; x8e; x26] 624485).
  - lia.
  - split; reflexivity.
  - unfold freader_holds. simpl. rewrite size_t_small by lia.
    repeat split; try reflexivity; lia.
  - simpl. lia.
Defined.

Lemma sleb128_decodes_up_to_five_bytes_witness :
  sleb128 (freader_open [xc0; xbb; x78] 4096)
  = Some (-123456, set_p (freader_open [xc0; xbb; x78] 4096) (4096 + 3)).
Proof.
  apply (sleb128_decodes_up_to_five_bytes
           (freader_open [xc0; xbb; x78] 4096) [xc0; xbb; x78] (-123456)).
  - lia.
  - split; reflexivity.
  - simpl. lia.
  - unfold freader_holds. simpl. rewrite size_t_small by lia.
    repeat split; try reflexivity; lia.
Defined.

Lemma emplace_back_up_to_four_witness :
  exists o, emplace_back_all object_ancestry_fresh [Some name_a; Some name_b] = Some o /\
    _count o = Z.of_nat (List.length [Some name_a; Some name_b]) /\
    take (List.length [Some name_a; Some name_b]) (_ancestors o) = [Some name_a; Some name_b] /\
    List.length (_ancestors o) = 5%nat.
Proof. apply (emplace_back_up_to_four [Some name_a; Some name_b]). simpl. lia. Defined.

(** The reader: a seek to position 11 of a ten-byte file; the bytes 2 to 4 of
    that file; a read of two bytes and then of three; the C string [AB]; a
    seek to position 2 and a read of three bytes under [temp_seek]; the pages
    around the range from 5000 to 9000; and [subbuf(6)] at position 2. *)
Lemma seekg_past_end_is_final_witness :
  exists r', freader_seekg reader_at_4 11 = Some r' /\
    freader_tellg r' = 11 /\
    freader_bool r' = false /\
    freader_get r' = None /\
    (forall n, freader_read r' n = None) /\
    (forall o, freader_seekg r' o = None) /\
    (forall o d, freader_seekg_dir r' o d = None).
Proof.
  apply (seekg_past_end_is_final reader_at_4 11).
  - reflexivity.
  - vm_compute. split; discriminate.
  - vm_compute. reflexivity.
  - vm_compute. reflexivity.
Defined.


Lemma read_then_read_witness :
  freader_read reader_at_4 (2 + 3)
  = match freader_read reader_at_4 2 with
    | Some (bs1, r1) =>
        match freader_read r1 3 with
        | Some (bs2, r2) => Some (bs1 ++ bs2, r2)
        | None => None
        end
    | None => None
    end.
Proof.
  apply (read_then_read reader_at_4 2 3).
  - vm_compute. discriminate.
  - vm_compute. discriminate.
  - vm_compute. reflexivity.
Defined.

Lemma read_c_string_view_spec_witness :
  freader_read_c_string_view c_string_reader
  = Some ([x41; x42],
          set_p c_string_reader (_p c_string_reader + Z.of_nat (List.length [x41; x42]) + 1)).
Proof.
  apply (read_c_string_view_spec c_string_reader [x41; x42]).
  - reflexivity.
  - vm_compute. discriminate.
  - vm_compute. reflexivity.
  - reflexivity.
  - repeat constructor; discriminate.
Defined.

Lemma temp_seek_restores_position_witness :
  (freader_bool (set_p reader_at_4 4101) = true ->
     temp_seek reader_at_4 2 ios_beg (fun s => freader_read s 3)
     = Some ([x02; x03; x04], set_p (set_p reader_at_4 4101) (size_t (_p reader_at_4))) /\
     freader_tellg (set_p (set_p reader_at_4 4101) (size_t (_p reader_at_4)))
     = freader_tellg reader_at_4) /\
  (freader_bool (set_p reader_at_4 4101) = false ->
     temp_seek reader_at_4 2 ios_beg (fun s => freader_read s 3) = None).
Proof.
  apply (temp_seek_restores_position reader_at_4 (set_p reader_at_4 4098)
           (set_p reader_at_4 4101) 2 ios_beg (fun s => freader_read s 3) [x02; x03; x04]);
    reflexivity.
Defined.

Lemma remmap_covers_range_witness :
  (5000 < 9000 ->
     exists mb,
       filebuf_remmap (_filebuf reader_at_2) 4096 131072 5000 9000
       = Some {| _descriptor := _descriptor (_filebuf reader_at_2); _buffer := Some mb |} /\
       mb_base mb = 131072 /\
       mb_start mb mod 4096 = 0 /\
       mb_start mb <= 5000 < mb_start mb + 4096 /\
       9000 < mb_start mb + mb_len mb <= 9000 + 4096) /\
  (9000 <= 5000 -> filebuf_remmap (_filebuf reader_at_2) 4096 131072 5000 9000 = None).
Proof. apply (remmap_covers_range (_filebuf reader_at_2) 4096 131072 5000 9000); lia. Defined.

Lemma subbuf_pointers_witness :
  exists r', freader_subbuf reader_at_2 4096 131072 6 = Some r' /\
    _f r' = 131072 /\
    _p r' = size_t (_f reader_at_2 - freader_tellg reader_at_2) /\
    _l r' = _f reader_at_2 + 6 - freader_tellg reader_at_2 /\
    freader_size r' = 6 /\
    (_f reader_at_2 < _p reader_at_2 -> freader_size r' <> 6 - freader_tellg reader_at_2).
Proof.
  apply (subbuf_pointers reader_at_2 4096 131072 6).
  - lia.
  - vm_compute. discriminate.
  - vm_compute. discriminate.
  - vm_compute. reflexivity.
  - vm_compute. reflexivity.
Defined.

(** Detection: the archive, and the big-endian Mach-O header. *)
Lemma detect_file_not_macho_witness :
  exists d, detect_file archive_reader = Some ((d, []), archive_reader) /\
    _offset d = freader_tellg archive_reader /\
    _arch d = arch_unknown /\
    ([x21; x3c; x61; x72] = [x21; x3c; x61; x72] ->
       _format d = format_ar /\ _is_64_bit d = false /\ _needs_byteswap d = true) /\
    ([x21; x3c; x61; x72] = [xca; xfe; xba; xbe] ->
       _format d = format_fat /\ _is_64_bit d = false /\ _needs_byteswap d = true) /\
    ([x21; x3c; x61; x72] = [xca; xfe; xba; xbf] ->
       _format d = format_fat /\ _is_64_bit d = true /\ _needs_byteswap d = true) /\
    (Z_in (uint32_of_bytes [x21; x3c; x61; x72])
       [lit_ra_lt_bang; lit_bang_lt_ar; FAT_MAGIC; FAT_CIGAM; FAT_MAGIC_64; FAT_CIGAM_64]
     = false ->
       _format d = format_unknown /\ _is_64_bit d = false /\ _needs_byteswap d = false).
Proof.
  apply (detect_file_not_macho archive_reader [x21; x3c; x61; x72]).
  - unfold freader_window_holds. repeat split; try reflexivity; vm_compute; discriminate.
  - reflexivity.
  - reflexivity.
Defined.

Lemma detect_file_macho_witness :
  let m := [xfe; xed; xfa; xcf] in
  let c := [x01; x00; x00; x0c] in
  let swapped := Z_in (uint32_of_bytes m) [MH_CIGAM; MH_CIGAM_64] in
  let is_64 := Z_in (uint32_of_bytes m) [MH_MAGIC_64; MH_CIGAM_64] in
  let cputype := uint32_of_bytes (if swapped then rev c else c) in
  (negb (Z.land cputype CPU_ARCH_ABI64 =? 0) = is_64 ->
     exists d w, detect_file swapped_macho_reader = Some ((d, w), swapped_macho_reader) /\
       _offset d = freader_tellg swapped_macho_reader /\ _format d = format_macho /\
       _is_64_bit d = is_64 /\ _needs_byteswap d = swapped /\
       (cputype = CPU_TYPE_X86 -> _arch d = arch_x86 /\ w = []) /\
       (cputype = CPU_TYPE_X86_64 -> _arch d = arch_x86_64 /\ w = []) /\
       (cputype = CPU_TYPE_ARM -> _arch d = arch_arm /\ w = []) /\
       (cputype = CPU_TYPE_ARM64 -> _arch d = arch_arm64 /\ w = []) /\
       (cputype = CPU_TYPE_ARM64_32 -> _arch d = arch_arm64 /\ w = []) /\
       (Z_in cputype [CPU_TYPE_X86; CPU_TYPE_X86_64; CPU_TYPE_ARM; CPU_TYPE_ARM64;
                      CPU_TYPE_ARM64_32] = false ->
          _arch d = arch_unknown /\ w = ["WARN: Unknown Mach-O cputype"%string])) /\
  (negb (Z.land cputype CPU_ARCH_ABI64 =? 0) <> is_64 ->
     detect_file swapped_macho_reader = None).
Proof.
  apply (detect_file_macho swapped_macho_reader [xfe; xed; xfa; xcf] [x01; x00; x00; x0c]).
  - unfold freader_window_holds. repeat split; try reflexivity; vm_compute; discriminate.
  - reflexivity.
  - reflexivity.
  - reflexivity.
Defined.

(** LEB128: the six bytes 80 80 80 80 F8 7F. *)
Lemma sleb128_six_bytes_undefined_witness :
  sleb128 padded_sleb_reader = None /\
  uleb128 padded_sleb_reader
  = Some (leb_groups_value [x80; x80; x80; x80; xf8; x7f] mod 2 ^ 32,
          set_p padded_sleb_reader
            (_p padded_sleb_reader + Z.of_nat (List.length [x80; x80; x80; x80; xf8; x7f]))).
Proof.
  apply (sleb128_six_bytes_undefined padded_sleb_reader [x80; x80; x80; x80; xf8; x7f]).
  - reflexivity.
  - unfold freader_holds. repeat split; try reflexivity; vm_compute; discriminate.
  - simpl. lia.
  - simpl. lia.
Defined.
(** [parse_file] on an ELF file named [a.o], from a fresh ancestry and the
    pool before any call. *)
Lemma parse_file_unknown_format_witness :
  exists name pool1,
    empool length_hash pool_init "a.o" = Some (name, pool1) /\
    (_count object_ancestry_fresh + 1 < ancestors_size ->
       parse_file length_hash unit no_reader no_reader no_reader "a.o" object_ancestry_fresh
         {| ps_reader := elf_reader; ps_pool := pool_init; ps_cerr := [] |} 4 tt
       = thrown "unknown format"
           {| ps_reader := elf_reader; ps_pool := pool1; ps_cerr := [] |}) /\
    (ancestors_size <= _count object_ancestry_fresh + 1 ->
       parse_file length_hash unit no_reader no_reader no_reader "a.o" object_ancestry_fresh
         {| ps_reader := elf_reader; ps_pool := pool_init; ps_cerr := [] |} 4 tt
       = aborted).
Proof.
  eexists _, _. split; [reflexivity|].
  eapply (parse_file_unknown_format length_hash unit no_reader no_reader no_reader "a.o"
           object_ancestry_fresh
           {| ps_reader := elf_reader; ps_pool := pool_init; ps_cerr := [] |} 4 tt
           [x7f; x45; x4c; x46]).
  - unfold freader_window_holds. repeat split; try reflexivity; vm_compute; discriminate.
  - reflexivity.
  - reflexivity.
  - reflexivity.
Defined.

(** The pool: [ab] interned, then [cde], then [ab] again. *)
Lemma empool_keeps_handles_witness :
  exists h st st',
    empool length_hash pool_init "ab" = Some (h, st) /\
    pool_extends length_hash st st' /\
    arena st' <> arena st /\
    pool_string_view (arena st') h = Some "ab"%string /\
    pool_string_hash (arena st') h = pool_string_hash (arena st) h.
Proof.
  eexists _, _, _. split; [reflexivity|].
  split; [eapply (extends_empool length_hash _ _ "cde");
          [apply extends_refl|vm_compute; reflexivity|reflexivity]|].
  split; [vm_compute; discriminate|].
  eapply (empool_keeps_handles length_hash).
  - eapply (reach_empool length_hash pool_init "ab");
      [apply reach_init|vm_compute; reflexivity|reflexivity].
  - eapply (extends_empool length_hash _ _ "cde");
      [apply extends_refl|vm_compute; reflexivity|reflexivity].
  - reflexivity.
Defined.

Lemma empool_equal_iff_same_string_witness :
  exists h1 st1 h2 st2 h3 st3,
    empool length_hash pool_init "ab" = Some (h1, st1) /\
    empool length_hash st1 "cde" = Some (h2, st2) /\
    empool length_hash st2 "ab" = Some (h3, st3) /\
    ((h1 = h3 <-> "ab"%string = "ab"%string) /\
     pool_string_eqb h1 h3 = String.eqb "ab" "ab").
Proof.
  eexists _, _, _, _, _, _. split; [reflexivity|]. split; [reflexivity|].
  split; [reflexivity|].
  eapply (empool_equal_iff_same_string length_hash pool_init).
  - apply reach_init.
  - vm_compute; reflexivity.
  - vm_compute; reflexivity.
  - reflexivity.
  - eapply (extends_empool length_hash _ _ "cde");
      [apply extends_refl|vm_compute; reflexivity|reflexivity].
  - reflexivity.
Defined.
(** A string of 100000 characters, interned once. *)
Lemma empool_long_string_once_witness :
  exists p st1,
    empool length_hash pool_init long_string = Some (Some p, st1) /\
    arena st1 !! p = Some (block_of length_hash long_string) /\
    pool_string_view (arena st1) (Some p) = None /\
    empool length_hash st1 long_string = None.
Proof.
  apply (empool_long_string_once length_hash pool_init long_string).
  - apply reach_init.
  - vm_compute. reflexivity.
  - vm_compute. discriminate.
  - apply lookup_empty.
Defined.

(** The arena once [ab] and [cde] are interned. *)
Lemma pool_blocks_never_overlap_witness :
  exists h1 st1 h2 st2,
    empool length_hash pool_init "ab" = Some (h1, st1) /\
    empool length_hash st1 "cde" = Some (h2, st2) /\
    (forall i pond off b, arena st2 !! (i, pond, off) = Some b ->
       exists pl cap, pools st2 !! i = Some pl /\ pool_ponds pl !! pond = Some cap /\
         default_min_k <= cap /\
         b_size b = Z.of_nat (String.length (b_bytes b)) /\
         0 <= block_first off /\ block_end off b <= cap) /\
    (forall i pond off1 off2 b1 b2,
       arena st2 !! (i, pond, off1) = Some b1 -> arena st2 !! (i, pond, off2) = Some b2 ->
       off1 <> off2 ->
       block_end off1 b1 <= block_first off2 \/ block_end off2 b2 <= block_first off1).
Proof.
  eexists _, _, _, _. split; [reflexivity|]. split; [reflexivity|].
  apply (pool_blocks_never_overlap length_hash).
  eapply (reach_empool length_hash _ "cde");
    [eapply (reach_empool length_hash pool_init "ab");
       [apply reach_init|vm_compute; reflexivity|reflexivity]
    |vm_compute; reflexivity|reflexivity].
Defined.

(** The search for [b] in the sorted vector [a; b; b; d]. *)
Lemma lower_bound_counts_less_witness :
  let c := ["a"; "b"; "b"; "d"]%string in
  let r := lower_bound c "b" 0 (List.length c) (List.length c) in
  take r c = List.filter (fun v => String.ltb v "b") c /\
  (forall j : nat, (j < r)%nat -> c !! j <> Some "b"%string) /\
  (In "b"%string c -> c !! r = Some "b"%string) /\
  (~ In "b"%string c -> sorted_has c "b" = false).
Proof.
  apply (lower_bound_counts_less ["a"; "b"; "b"; "d"]%string "b").
  repeat constructor.
Defined.


(** The report of the chain of [foo], its head flagged. *)
Lemma odrv_report_conflict_map_witness :
  exists report lo hi,
    odrv_report_make nonfatal_attribute_spec two_objects_mem two_objects_fetch 2 flagged_heap
      "foo" 1%positive = Some report /\
    StronglySorted (fun a b => fst a < fst b) (_conflict_map report) /\
    (forall k, map_count k (_conflict_map report) = true <->
       exists p, p ∈ [1%positive; 2%positive] /\ die_fatal_hash flagged_heap p = k) /\
    (forall e, e ∈ _conflict_map report ->
       exists l1 l2 d, [1%positive; 2%positive] = l1 ++ cd_die (snd e) :: l2 /\
         (forall q, q ∈ l1 -> die_fatal_hash flagged_heap q <> fst e) /\
         flagged_heap !! cd_die (snd e) = Some d /\ _fatal_attribute_hash d = fst e /\
         fetch_attributes_for_die two_objects_fetch d = Some (cd_attributes (snd e))) /\
    head (_conflict_map report) = Some lo /\ last (_conflict_map report) = Some hi /\
    fst lo < fst hi /\
    (forall e, e ∈ _conflict_map report -> fst lo <= fst e <= fst hi) /\
    odrv_name report
    = find_attribute_conflict nonfatal_attribute_spec two_objects_mem
        (cd_attributes (snd lo)) (cd_attributes (snd hi)) /\
    (exists d, flagged_heap !! cd_die (snd lo) = Some d /\
       category tag_names at_names flagged_heap report
       = Some (tag_names (_tag d) ++ ":" ++ at_names (odrv_name report))%string).
Proof.
  apply (odrv_report_conflict_map nonfatal_attribute_spec two_objects_mem two_objects_fetch
           tag_names at_names flagged_heap 1%positive [1%positive; 2%positive] "foo" 2).
  - apply (chain_cons _ 1%positive (die_set_conflict (foo_die 1 0x2a 10 (Some 2%positive)) true));
      [reflexivity|].
    apply (chain_cons _ 2%positive (foo_die 0 0x2a 20 None)); [reflexivity|].
    apply chain_nil.
  - intros p d Hp Hd.
    apply elem_of_cons in Hp as [->|Hp];
      [|apply elem_of_cons in Hp as [->|Hp]; [|inversion Hp]];
      vm_compute in Hd; injection Hd as <-; eexists; reflexivity.
  - simpl. lia.
  - reflexivity.
  - exists 1%positive, 2%positive. repeat split; [left|right; left|vm_compute; discriminate].
Defined.
